(** * ARTify: the adjustment pipeline and the animation renderer

    A shallow embedding of the image code of
    [ARTify/ui/workspace_page.py] (the editor: [update_image_display],
    [apply_all_adjustments] and the [apply_*] helpers) and of
    [ARTify/ui/gallery_page.py] ([export_animation_gif],
    [export_animation_video]), together with the parts of Pillow, NumPy
    and Qt those functions call.

    Conventions.
    - A Python [float] is an IEEE 754 binary64 number and a C [float] of
      Pillow's libImaging a binary32 number; both are values of
      [spec_float], computed with the operations of [SpecFloat] at the
      matching precision, every operation rounded on its own.
    - A Python exception is the [Raise] case of [result].
    - An image is a mode, a size and its pixels; a pixel is the list of
      its 8-bit bands. *)

From Stdlib Require Import Ascii String ZArith List Bool Lia.
From Stdlib Require Import Floats.SpecFloat.
Import ListNotations.
Open Scope Z_scope.

(* ================================================================== *)
(** * Exceptions *)
(* ================================================================== *)

Inductive exn : Type :=
| ZeroDivisionError
| ValueError
| KeyError
| UnboundLocalError
| OverflowError
| TypeError
| OSError.

Inductive result (A : Type) : Type :=
| Ok (a : A)
| Raise (e : exn).
Arguments Ok {A} a.
Arguments Raise {A} e.

Definition bind {A B : Type} (r : result A) (k : A -> result B) : result B :=
  match r with
  | Ok a => k a
  | Raise e => Raise e
  end.

Notation "x <- r ;; k" := (bind r (fun x => k))
  (at level 61, r at next level, right associativity).

Definition completes {A : Type} (r : result A) : Prop :=
  exists a, r = Ok a.

(* ================================================================== *)
(** * Floating point *)
(* ================================================================== *)

Module Float.

(** Operations of one binary format, [prec] bits of precision. *)
Section Format.
Variables prec emax : Z.

Definition of_Z (z : Z) : spec_float := binary_normalize prec emax z 0 false.

(** Rounds a number of another format into this one (a C cast, or the
    store of a [double] expression into a [float] variable). *)
Definition cast (f : spec_float) : spec_float :=
  match f with
  | S754_finite s m e => binary_round prec emax s m e
  | _ => f
  end.

(** The number nearest to [n/d]: what a decimal literal such as [0.1]
    (n = 1, d = 10) denotes. *)
Definition decimal (n d : Z) : spec_float :=
  SFdiv prec emax (of_Z n) (of_Z d).
End Format.

Definition is_zero (f : spec_float) : bool :=
  match f with
  | S754_zero _ => true
  | _ => false
  end.

Definition is_neg (f : spec_float) : bool := SFltb f (S754_zero false).

(** A number: neither an infinity nor NaN. *)
Definition is_finite (f : spec_float) : bool :=
match f with
| S754_zero _ | S754_finite _ _ _ => true
| _ => false
end.

(** A number whose exponent is at least [lo] and whose magnitude is
    below [2^hi]. *)
Definition ranged (lo hi : Z) (f : spec_float) : Prop :=
  match f with
  | S754_zero _ => True
  | S754_finite _ m e => lo <= e /\ Zpos (digits2_pos m) + e <= hi
  | _ => False
  end.

(** A number that is not negative and at most the integer [N]: zero,
    or [m * 2^e <= N], written with both sides scaled by a power of two
    that makes them integers. *)
Definition at_most (N : Z) (f : spec_float) : Prop :=
  match f with
  | S754_zero _ => 0 <= N
  | S754_finite false m e =>
      exists k, 0 <= k /\ 0 <= k + e /\ Zpos m * 2 ^ (k + e) <= N * 2 ^ k
  | _ => False
  end.

(** A check that a number lies between 0 and 1. *)
Definition below_one (f : spec_float) : bool :=
  match f with
  | S754_zero _ => true
  | S754_finite false m e => (e <? 0) && (Zpos m <=? 2 ^ (- e))
  | _ => false
  end.

(** A number whose mantissa has at most [prec] bits, as every result
    of an operation of the format has. *)
Definition fits (prec : Z) (f : spec_float) : Prop :=
  match f with
  | S754_finite _ m _ => Zdigits2 (Zpos m) <= prec
  | _ => True
  end.

(** Magnitude of [m * 2^e] rounded toward zero. *)
Definition mag_trunc (m : positive) (e : Z) : Z :=
  match e with
  | Zneg p => Z.shiftr (Zpos m) (Zpos p)
  | _ => Z.shiftl (Zpos m) e
  end.

(** Twice the distance of [m * 2^e] from [mag_trunc m e], compared
    with 1: [Lt] below the half, [Eq] at the half, [Gt] above. *)
Definition frac_vs_half (m : positive) (e : Z) : comparison :=
  match e with
  | Zneg p => Z.compare (2 * (Zpos m mod 2 ^ Zpos p)) (2 ^ Zpos p)
  | _ => Lt
  end.

(** C's conversion of a floating value to an integer type, Python's
    [int(x)] and NumPy's [astype] to an integer type. *)
Definition truncate (f : spec_float) : option Z :=
  match f with
  | S754_zero _ => Some 0
  | S754_finite s m e => Some (if s then - mag_trunc m e else mag_trunc m e)
  | _ => None
  end.

(** Python's [round(x)]: to the nearest integer, ties to even. *)
Definition round_half_even (f : spec_float) : option Z :=
  match f with
  | S754_zero _ => Some 0
  | S754_finite s m e =>
      let q := mag_trunc m e in
      let q' := match frac_vs_half m e with
                | Lt => q
                | Eq => if Z.even q then q else q + 1
                | Gt => q + 1
                end in
      Some (if s then - q' else q')
  | _ => None
  end.

(** C's [round]: to the nearest integer, ties away from zero. *)
Definition round_half_away (f : spec_float) : option Z :=
  match f with
  | S754_zero _ => Some 0
  | S754_finite s m e =>
      let q := mag_trunc m e in
      let q' := match frac_vs_half m e with
                | Lt => q
                | _ => q + 1
                end in
      Some (if s then - q' else q')
  | _ => None
  end.

(** C's [floor]. *)
Definition floor (f : spec_float) : option Z :=
  match f with
  | S754_zero _ => Some 0
  | S754_finite s m e =>
      let q := mag_trunc m e in
      Some (if s
            then match e with
                 | Zneg p => if Zpos m mod 2 ^ Zpos p =? 0 then - q else - q - 1
                 | _ => - q
                 end
            else q)
  | _ => None
  end.

(** C's [fmod(x, y)] for a positive integer [y]: the remainder of the
    division truncated toward zero, which is exact. *)
Definition fmod_pos (prec emax : Z) (f : spec_float) (y : Z) : spec_float :=
  match f with
  | S754_finite s m e =>
      match e with
      | Zneg p =>
          binary_normalize prec emax
            (let r := Zpos m mod (y * 2 ^ Zpos p) in if s then - r else r) e s
      | _ =>
          binary_normalize prec emax
            (let r := Z.shiftl (Zpos m) e mod y in if s then - r else r) 0 s
      end
  | S754_infinity _ => S754_nan
  | _ => f
  end.

End Float.

(** Python floats. *)
Module Py.
Definition float := spec_float.
Definition prec := 53.
Definition emax := 1024.

Definition of_int : Z -> float := Float.of_Z prec emax.
Definition lit : Z -> Z -> float := Float.decimal prec emax.
Definition add : float -> float -> float := SFadd prec emax.
Definition sub : float -> float -> float := SFsub prec emax.
Definition mul : float -> float -> float := SFmul prec emax.

(** [a / b] raises [ZeroDivisionError] on a zero divisor. *)
Definition truediv (a b : float) : result float :=
  if Float.is_zero b then Raise ZeroDivisionError else Ok (SFdiv prec emax a b).

(** [max(a, b)] is [b] when [b > a] and [a] otherwise. *)
Definition max (a b : float) : float := if SFltb a b then b else a.

(** [int(x)]. *)
Definition int (x : float) : result Z :=
  match Float.truncate x with
  | Some z => Ok z
  | None => match x with S754_nan => Raise ValueError | _ => Raise OverflowError end
  end.

(** [round(x)]. *)
Definition round (x : float) : result Z :=
  match Float.round_half_even x with
  | Some z => Ok z
  | None => match x with S754_nan => Raise ValueError | _ => Raise OverflowError end
  end.

(** [x % y] for a positive integer-valued [y]: [fmod], moved into
    [[0, y)] when negative. *)
Definition mod_pos (x : float) (y : Z) : float :=
  let m := Float.fmod_pos prec emax x y in
  if Float.is_zero m then S754_zero false
  else if Float.is_neg m then add m (of_int y) else m.
End Py.

(** C [float]s of libImaging, and the [double] expressions around them. *)
Module C.
Definition prec := 24.
Definition emax := 128.
Definition of_int : Z -> spec_float := Float.of_Z prec emax.
Definition of_double : spec_float -> spec_float := Float.cast prec emax.
Definition add : spec_float -> spec_float -> spec_float := SFadd prec emax.
Definition sub : spec_float -> spec_float -> spec_float := SFsub prec emax.
Definition mul : spec_float -> spec_float -> spec_float := SFmul prec emax.
Definition div : spec_float -> spec_float -> spec_float := SFdiv prec emax.
(** [(UINT8)x] and [(int)x] for a value in range. *)
Definition to_int (x : spec_float) : Z :=
  match Float.truncate x with Some z => z | None => 0 end.
Definition round (x : spec_float) : Z :=
  match Float.round_half_away x with Some z => z | None => 0 end.
Definition floor (x : spec_float) : Z :=
  match Float.floor x with Some z => z | None => 0 end.
End C.

(** [CLIP8] of libImaging. *)
Definition CLIP8 (v : Z) : Z := if v <=? 0 then 0 else if v <? 256 then v else 255.

(** [range(n)]. *)
Definition range (n : Z) : list Z := map Z.of_nat (seq 0 (Z.to_nat n)).

Fixpoint mapM {A B : Type} (f : A -> result B) (l : list A) : result (list B) :=
  match l with
  | [] => Ok []
  | a :: l' => b <- f a ;; bs <- mapM f l' ;; Ok (b :: bs)
  end.

Fixpoint sumZ (l : list Z) : Z :=
  match l with
  | [] => 0
  | a :: l' => a + sumZ l'
  end.

(** A Python number: what a [lambda] given to [Image.point] returns. *)
Inductive pynum : Type :=
| PyInt (z : Z)
| PyFloat (f : Py.float).

Definition py_round (n : pynum) : result Z :=
  match n with
  | PyInt z => Ok z
  | PyFloat f => Py.round f
  end.

(* ================================================================== *)
(** * Pillow: [PIL.Image] *)
(* ================================================================== *)

Module Image.

Inductive Mode : Type := L | RGB | RGBA | HSV.

Definition Mode_eqb (a b : Mode) : bool :=
  match a, b with
  | L, L | RGB, RGB | RGBA, RGBA | HSV, HSV => true
  | _, _ => false
  end.

(** [len(im.getbands())]. *)
Definition bands (m : Mode) : Z :=
  match m with
  | L => 1
  | RGB => 3
  | RGBA => 4
  | HSV => 3
  end.

(** One 8-bit value per band. *)
Definition pixel : Type := list Z.

Record t : Type := mk {
  mode : Mode;
  width : Z;
  height : Z;
  getpixel : Z -> Z -> pixel
}.

Definition size (im : t) : Z * Z := (width im, height im).

Definition inside (im : t) (x y : Z) : bool :=
  (0 <=? x) && (x <? width im) && (0 <=? y) && (y <? height im).

(** [list(im.getdata())], row by row. *)
Definition rows (im : t) : list (list pixel) :=
  map (fun y => map (fun x => getpixel im x y) (range (width im))) (range (height im)).

(** Pixel-identical images: same mode, same size, same pixels. *)
Definition same (a b : t) : Prop :=
  mode a = mode b /\ width a = width b /\ height a = height b /\
  forall x y, 0 <= x < width a -> 0 <= y < height a ->
              getpixel a x y = getpixel b x y.

Definition byte (v : Z) : Prop := 0 <= v <= 255.

(** What every image of the program is: pixels of [bands] bytes. *)
Definition valid (im : t) : Prop :=
  0 <= width im /\ 0 <= height im /\
  forall x y, 0 <= x < width im -> 0 <= y < height im ->
              Z.of_nat (length (getpixel im x y)) = bands (mode im) /\
              Forall byte (getpixel im x y).

(** [Image.new(mode, size, color)]. *)
Definition new (m : Mode) (sz : Z * Z) (color : pixel) : t :=
  mk m (fst sz) (snd sz) (fun _ _ => color).

Definition zero (m : Mode) : pixel := repeat 0 (Z.to_nat (bands m)).

(** [im.copy()]. *)
Definition copy (im : t) : t := im.

(** [im.crop((x0, y0, x1, y1))], the box being (left, upper, right,
    lower): the region, zero-filled where the box leaves the image
    (Crop.c). *)
Definition crop (im : t) (box : Z * Z * Z * Z) : result t :=
  let '(x0, y0, x1, y1) := box in
  if x1 <? x0 then Raise ValueError
  else if y1 <? y0 then Raise ValueError
  else Ok (mk (mode im) (x1 - x0) (y1 - y0)
             (fun x y => if inside im (x + x0) (y + y0)
                         then getpixel im (x + x0) (y + y0)
                         else zero (mode im))).

(** ** Mode conversions (Convert.c) *)

Definition rgb2l (r g b : Z) : Z :=
  Z.shiftr (r * 19595 + g * 38470 + b * 7471 + 32768) 16.

Definition max3 (a b c : Z) : Z := Z.max a (Z.max b c).
Definition min3 (a b c : Z) : Z := Z.min a (Z.min b c).

Definition rgb2hsv (r g b : Z) : pixel :=
  let maxc := max3 r g b in
  let minc := min3 r g b in
  if minc =? maxc then [0; 0; maxc]
  else
    let cr := C.of_int (maxc - minc) in
    let s := C.div cr (C.of_int maxc) in
    let rc := C.div (C.of_int (maxc - r)) cr in
    let gc := C.div (C.of_int (maxc - g)) cr in
    let bc := C.div (C.of_int (maxc - b)) cr in
    let h :=
      if r =? maxc then C.sub bc gc
      else if g =? maxc then C.of_double (Py.sub (Py.add (Py.of_int 2) rc) bc)
      else C.of_double (Py.sub (Py.add (Py.of_int 4) gc) rc) in
    let h6 := SFdiv Py.prec Py.emax h (Py.of_int 6) in
    let h' := C.of_double (Float.fmod_pos Py.prec Py.emax (Py.add h6 (Py.of_int 1)) 1) in
    [CLIP8 (C.to_int (Py.mul h' (Py.of_int 255)));
     CLIP8 (C.to_int (Py.mul s (Py.of_int 255)));
     maxc].

Definition hsv2rgb (h s v : Z) : pixel :=
  if s =? 0 then [v; v; v]
  else
    let one := Py.of_int 1 in
    let h6 := SFdiv Py.prec Py.emax (Py.mul (C.of_int h) (Py.of_int 6)) (Py.of_int 255) in
    let i := C.floor h6 in
    let f := C.of_double (Py.sub h6 (C.of_int i)) in
    let fs := C.of_double (SFdiv Py.prec Py.emax (C.of_int s) (Py.of_int 255)) in
    let fv := C.of_int v in
    let p := CLIP8 (C.round (Py.mul fv (Py.sub one fs))) in
    let q := CLIP8 (C.round (Py.mul fv (Py.sub one (C.mul fs f)))) in
    let u := CLIP8 (C.round (Py.mul fv (Py.sub one (Py.mul fs (Py.sub one f))))) in
    match i mod 6 with
    | 0 => [v; u; p]
    | 1 => [q; v; p]
    | 2 => [p; v; u]
    | 3 => [p; q; v]
    | 4 => [u; p; v]
    | _ => [v; p; q]
    end.

Definition band (k : nat) (p : pixel) : Z := nth k p 0.

(** The pixel converters of the table in Convert.c, for the four modes
    of this development; [None] where the table has no entry. *)
Definition convert_pixel (src dst : Mode) : option (pixel -> pixel) :=
  match src, dst with
  | L, RGB => Some (fun p => [band 0 p; band 0 p; band 0 p])
  | L, RGBA => Some (fun p => [band 0 p; band 0 p; band 0 p; 255])
  | L, HSV => Some (fun p => [0; 0; band 0 p])
  | RGB, L | RGBA, L => Some (fun p => [rgb2l (band 0 p) (band 1 p) (band 2 p)])
  | RGB, RGBA => Some (fun p => [band 0 p; band 1 p; band 2 p; 255])
  | RGBA, RGB => Some (fun p => [band 0 p; band 1 p; band 2 p])
  | RGB, HSV | RGBA, HSV => Some (fun p => rgb2hsv (band 0 p) (band 1 p) (band 2 p))
  | HSV, RGB => Some (fun p => hsv2rgb (band 0 p) (band 1 p) (band 2 p))
  | _, _ => None
  end.

(** [im.convert(mode)]: a copy when the mode is already [m]. *)
Definition convert (im : t) (m : Mode) : result t :=
  if Mode_eqb (mode im) m then Ok (copy im)
  else match convert_pixel (mode im) m with
       | Some f => Ok (mk m (width im) (height im) (fun x y => f (getpixel im x y)))
       | None => Raise ValueError
       end.

(** [im.paste(src, (x0, y0))]: [src], converted to the mode of [im]
    when it differs, replaces the pixels of its box (Paste.c). *)
Definition paste (im src : t) (at_ : Z * Z) : result t :=
  let '(x0, y0) := at_ in
  src' <- (if Mode_eqb (mode im) (mode src) then Ok src
           else match mode im, mode src with
                | RGB, RGBA => Ok src
                | _, _ => convert src (mode im)
                end) ;;
  Ok (mk (mode im) (width im) (height im)
        (fun x y =>
           if (x0 <=? x) && (x <? x0 + width src') && (y0 <=? y) && (y <? y0 + height src')
           then firstn (Z.to_nat (bands (mode im))) (getpixel src' (x - x0) (y - y0))
           else getpixel im x y)).

(** ** Point operations *)

Fixpoint lookup_bands (lut : list Z) (c : Z) (p : pixel) : pixel :=
  match p with
  | [] => []
  | v :: p' => nth (Z.to_nat (c * 256 + v)) lut 0 :: lookup_bands lut (c + 1) p'
  end.

(** [im.im.point(lut)] of the C module: [lut] has 256 entries per
    band, each clipped to a byte when the list is read. *)
Definition point_table (im : t) (lut : list Z) : result t :=
  if Z.of_nat (length lut) =? 256 * bands (mode im)
  then Ok (mk (mode im) (width im) (height im)
             (fun x y => lookup_bands (map CLIP8 lut) 0 (getpixel im x y)))
  else Raise ValueError.

(** [im.point(lut)] for a list. *)
Definition point_list (im : t) (lut : list Z) : result t := point_table im lut.

(** [im.point(f)] for a function: the table [f(0) .. f(255)], once per
    band, each entry rounded. *)
Definition point (im : t) (f : Z -> result pynum) : result t :=
  table <- mapM f (range 256) ;;
  flat <- mapM py_round (concat (repeat table (Z.to_nat (bands (mode im))))) ;;
  point_table im flat.

(** ** Bands *)

Definition getchannel (im : t) (k : nat) : t :=
  mk L (width im) (height im) (fun x y => [band k (getpixel im x y)]).

(** [im.split()]. *)
Definition split (im : t) : list t :=
  map (getchannel im) (seq 0 (Z.to_nat (bands (mode im)))).

(** [Image.merge(mode, bands)]. *)
Definition merge (m : Mode) (bs : list t) : result t :=
  match bs with
  | [] => Raise ValueError
  | b0 :: rest =>
      if negb (Z.of_nat (length bs) =? bands m) then Raise ValueError
      else if forallb (fun b => Mode_eqb (mode b) L
                                && (width b =? width b0) && (height b =? height b0)) rest
      then Ok (mk m (width b0) (height b0)
                 (fun x y => map (fun b => band 0 (getpixel b x y)) bs))
      else Raise ValueError
  end.

(** [im.putalpha(alpha_band)] on an image that has an alpha band. *)
Definition putalpha (im : t) (alpha : t) : t :=
  mk (mode im) (width im) (height im)
    (fun x y => firstn 3 (getpixel im x y) ++ [band 0 (getpixel alpha x y)]).

(** ** Blending (Blend.c) *)

(** One byte of [ImagingBlend]:
    [(int)in1[x] + alpha * ((int)in2[x] - (int)in1[x])] in [float]s,
    clipped when [alpha] extrapolates and truncated to a byte. *)
Definition blend_byte (alpha : spec_float) (v1 v2 : Z) : Z :=
  let temp := C.add (C.of_int v1) (C.mul alpha (C.of_int (v2 - v1))) in
  if SFleb (S754_zero false) alpha && SFleb alpha (C.of_int 1)
  then C.to_int temp
  else if SFleb temp (S754_zero false) then 0
  else if SFleb (C.of_int 255) temp then 255
  else C.to_int temp.

Fixpoint blend_pixel (alpha : spec_float) (p1 p2 : pixel) : pixel :=
  match p1, p2 with
  | v1 :: p1', v2 :: p2' => blend_byte alpha v1 v2 :: blend_pixel alpha p1' p2'
  | _, _ => []
  end.

(** The images [ImagingBlend] accepts: as many bands, same size. *)
Definition match_ (im1 im2 : t) : bool :=
  (bands (mode im1) =? bands (mode im2))
  && (width im1 =? width im2) && (height im1 =? height im2).

(** [Image.blend(im1, im2, alpha)]: "images do not match" unless they
    do; a copy of [im1] for [alpha] 0 and of [im2] for [alpha] 1. *)
Definition blend (im1 im2 : t) (alpha : Py.float) : result t :=
  if negb (match_ im1 im2) then Raise ValueError
  else
    let a := C.of_double alpha in
    if SFeqb a (S754_zero false) then Ok (copy im1)
    else if SFeqb a (C.of_int 1) then Ok (copy im2)
    else Ok (mk (mode im1) (width im1) (height im1)
               (fun x y => blend_pixel a (getpixel im1 x y) (getpixel im2 x y))).

(** ** 3x3 convolution (Filter.c) *)

Definition clip8 (v : spec_float) : Z :=
  if SFleb v (S754_zero false) then 0
  else if SFleb (C.of_int 255) v then 255
  else C.to_int v.

(** [KERNEL1x3]: three neighbours of band [c] on row [y], weighted by
    the kernel entries [k], [k+1], [k+2]. *)
Definition kernel1x3 (im : t) (kernel : list spec_float) (k : nat) (c : nat) (x y : Z)
  : spec_float :=
  let i2f (dx : Z) := C.of_int (band c (getpixel im (x + dx) y)) in
  let w (j : nat) := nth (k + j) kernel (S754_zero false) in
  C.add (C.add (C.mul (i2f (-1)) (w 0%nat)) (C.mul (i2f 0) (w 1%nat)))
        (C.mul (i2f 1) (w 2%nat)).

(** [ImagingFilter] for a 3x3 kernel already divided by its scale: a
    copy when the image is smaller than the kernel; the border pixels
    are kept. *)
Definition filter3x3 (im : t) (kernel : list spec_float) (offset : spec_float) : t :=
  if (width im <? 3) || (height im <? 3) then copy im
  else
    let off := C.of_double (Py.add offset (Py.lit 1 2)) in
    mk (mode im) (width im) (height im)
      (fun x y =>
         if (1 <=? x) && (x <? width im - 1) && (1 <=? y) && (y <? height im - 1)
         then map (fun c =>
                     let ss := C.add off (kernel1x3 im kernel 0 c x (y + 1)) in
                     let ss := C.add ss (kernel1x3 im kernel 3 c x y) in
                     let ss := C.add ss (kernel1x3 im kernel 6 c x (y - 1)) in
                     clip8 ss)
                (seq 0 (Z.to_nat (bands (mode im))))
         else getpixel im x y).

(** [im.filter(ImageFilter.Kernel((3, 3), kernel, scale, offset))] and
    the built-in filters of that shape. *)
Definition filter_kernel (im : t) (kernel : list Z) (scale : Z) (offset : Z) : t :=
  filter3x3 im (map (fun v => C.div (C.of_int v) (C.of_int scale)) kernel) (C.of_int offset).

End Image.

(** [ImageFilter.SMOOTH]. *)
Module ImageFilter.
Definition SMOOTH_kernel : list Z := [1; 1; 1; 1; 5; 1; 1; 1; 1].
Definition SMOOTH_scale : Z := 13.
Definition SMOOTH (im : Image.t) : Image.t :=
  Image.filter_kernel im SMOOTH_kernel SMOOTH_scale 0.
End ImageFilter.

(* ================================================================== *)
(** * Pillow: [ImageStat], [ImageOps], [ImageEnhance] *)
(* ================================================================== *)

Module ImageStat.
(** [Stat(im).sum[k]] and [Stat(im).count[k]]. Pillow adds the sum up
    in a [float], which is exact as long as it stays below 2^53. *)
Definition sum (im : Image.t) (k : nat) : Z :=
  sumZ (map (fun y => sumZ (map (fun x => Image.band k (Image.getpixel im x y))
                                (range (Image.width im))))
            (range (Image.height im))).
Definition count (im : Image.t) : Z := Z.max 0 (Image.width im) * Z.max 0 (Image.height im).
(** [Stat(im).mean[k]]. *)
Definition mean (im : Image.t) (k : nat) : result Py.float :=
  Py.truediv (Py.of_int (sum im k)) (Py.of_int (count im)).
End ImageStat.

Module ImageOps.

(** [_lut(image, lut)]. *)
Definition _lut (image : Image.t) (lut : list Z) : result Image.t :=
  match Image.mode image with
  | Image.L => Image.point_list image lut
  | Image.RGB =>
      if Z.of_nat (length lut) =? 256
      then Image.point_list image (lut ++ lut ++ lut)
      else Image.point_list image lut
  | _ => Raise OSError
  end.

(** [invert(image)]: the table [255, 254, .., 0]. *)
Definition invert (image : Image.t) : result Image.t :=
  _lut image (map (fun i => 255 - i) (range 256)).

(** [solarize(image, threshold)]: [i] below the threshold, [255 - i]
    from the threshold on. *)
Definition solarize_lut (threshold : Z) : list Z :=
  map (fun i => if i <? threshold then i else 255 - i) (range 256).

Definition solarize (image : Image.t) (threshold : Z) : result Image.t :=
  _lut image (solarize_lut threshold).

(** [posterize(image, bits)]: [mask = ~(2 ** (8 - bits) - 1)]. *)
Definition posterize (image : Image.t) (bits : Z) : result Image.t :=
  if 8 <? bits then Raise TypeError
  else
    let mask := Z.lnot (2 ^ (8 - bits) - 1) in
    _lut image (map (fun i => Z.land i mask) (range 256)).

(** [colorize(image, black, white)] with the default black point 0 and
    white point 255 and no mid colour; [image] must have mode L. *)
Definition colorize (image : Image.t) (black white : Z * Z * Z) : result Image.t :=
  match Image.mode image with
  | Image.L =>
      let '(r0, g0, b0) := black in
      let '(r1, g1, b1) := white in
      let ramp (c0 c1 : Z) :=
        map (fun i => c0 + i * (c1 - c0) / 255) (range 255) ++ [c1] in
      rgb <- Image.convert image Image.RGB ;;
      _lut rgb (ramp r0 r1 ++ ramp g0 g1 ++ ramp b0 b1)
  | _ => Raise ValueError
  end.

End ImageOps.

Module ImageEnhance.

(** The alpha band of the image is put back on the degenerate image
    when the image has one. *)
Definition keep_alpha (degenerate image : Image.t) : Image.t :=
  match Image.mode image with
  | Image.RGBA => Image.putalpha degenerate (Image.getchannel image 3)
  | _ => degenerate
  end.

(** [_Enhance.enhance(factor)]. *)
Definition enhance (degenerate image : Image.t) (factor : Py.float) : result Image.t :=
  Image.blend degenerate image factor.

(** The degenerate image of [Brightness(image)]: black. *)
Definition Brightness (image : Image.t) : result Image.t :=
  Ok (keep_alpha (Image.new (Image.mode image) (Image.size image)
                    (Image.zero (Image.mode image))) image).

(** [int(ImageStat.Stat(image.convert("L")).mean[0] + 0.5)]. *)
Definition mean_grey (image : Image.t) : result Z :=
  grey <- Image.convert image Image.L ;;
  m <- ImageStat.mean grey 0 ;;
  Py.int (Py.add m (Py.lit 1 2)).

(** The degenerate image of [Contrast(image)]: the mean grey. *)
Definition Contrast (image : Image.t) : result Image.t :=
  mean <- mean_grey image ;;
  d <- Image.convert (Image.new Image.L (Image.size image) [CLIP8 mean]) (Image.mode image) ;;
  Ok (keep_alpha d image).

(** The degenerate image of [Color(image)]: the grey image. *)
Definition Color (image : Image.t) : result Image.t :=
  grey <- Image.convert image Image.L ;;
  d <- Image.convert grey (Image.mode image) ;;
  Ok (keep_alpha d image).

(** The degenerate image of [Sharpness(image)]: the smoothed image. *)
Definition Sharpness (image : Image.t) : result Image.t :=
  Ok (keep_alpha (ImageFilter.SMOOTH image) image).

End ImageEnhance.

(* ================================================================== *)
(** * NumPy *)
(* ================================================================== *)

Module np.

(** The global generator behind [np.random]: its state is the sequence
    of standard normal deviates it has yet to return. *)
Definition RandomState : Type := nat -> Py.float.

(** [np.random.normal(loc, scale, shape)] with [n] the number of
    entries of the shape: entry [k] is [loc + scale * z_k] for the
    next [n] deviates, which the generator then leaves behind. *)
Definition normal (loc scale : Py.float) (n : nat) (g : RandomState)
  : result ((nat -> Py.float) * RandomState) :=
  if Float.is_neg scale then Raise ValueError
  else Ok (fun k => Py.add loc (Py.mul scale (g k)), fun k => g (n + k)%nat).

Definition wrap16 (z : Z) : Z := (z + 32768) mod 65536 - 32768.

(** [a.astype(np.int16)] and [a.astype(np.uint8)] on one entry. *)
Definition astype_int16 (x : Py.float) : Z :=
  match Float.truncate x with Some z => wrap16 z | None => 0 end.
Definition astype_uint8 (x : Py.float) : Z :=
  match Float.truncate x with Some z => z mod 256 | None => 0 end.

(** [np.clip(v, lo, hi)] on one entry. *)
Definition clip (v lo hi : Z) : Z := Z.min hi (Z.max lo v).

(** The mode [Image.fromarray] gives a [uint8] array by the length of
    its last axis. *)
Definition fromarray_mode (m : Image.Mode) : Image.Mode :=
  match m with
  | Image.L => Image.L
  | Image.RGBA => Image.RGBA
  | _ => Image.RGB
  end.

End np.

(* ================================================================== *)
(** * Qt widgets *)
(* ================================================================== *)

Module Qt.

Record QSlider : Type := mkSlider { minimum : Z; maximum : Z; value : Z }.

(** [setRange] then [setValue], as [add_slider] creates a slider. *)
Definition setValue (s : QSlider) (v : Z) : QSlider :=
  mkSlider (minimum s) (maximum s) (Z.max (minimum s) (Z.min (maximum s) v)).

Definition newSlider (lo hi v : Z) : QSlider := setValue (mkSlider lo hi lo) v.

(** A combo box: its items (text, user data) and the current index. *)
Record QComboBox : Type := mkCombo {
  items : list (string * option string);
  currentIndex : nat
}.

Definition setCurrentIndex (c : QComboBox) (i : nat) : QComboBox := mkCombo (items c) i.
Definition itemData (c : QComboBox) (i : nat) : option string :=
  match nth_error (items c) i with Some (_, d) => d | None => None end.
Definition currentText (c : QComboBox) : string :=
  match nth_error (items c) (currentIndex c) with Some (s, _) => s | None => EmptyString end.

(** A colour; the invalid colour has the RGB value (0, 0, 0). *)
Record QColor : Type := mkColor { isValid : bool; red : Z; green : Z; blue : Z }.

Definition invalid : QColor := mkColor false 0 0 0.

Definition hex_digit (c : Ascii.ascii) : option Z :=
  let n := Z.of_N (Ascii.N_of_ascii c) in
  if (48 <=? n) && (n <=? 57) then Some (n - 48)
  else if (65 <=? n) && (n <=? 70) then Some (n - 55)
  else if (97 <=? n) && (n <=? 102) then Some (n - 87)
  else None.

Definition hex_byte (a b : Ascii.ascii) : option Z :=
  match hex_digit a, hex_digit b with
  | Some x, Some y => Some (16 * x + y)
  | _, _ => None
  end.

(** [QColor(name)] for a name of the form [#RRGGBB]; [QColor(None)]
    is the invalid colour. *)
Definition fromName (name : option string) : QColor :=
  match name with
  | Some (String h (String r1 (String r2 (String g1 (String g2
           (String b1 (String b2 EmptyString))))))) =>
      if Ascii.eqb h "#"%char
      then match hex_byte r1 r2, hex_byte g1 g2, hex_byte b1 b2 with
           | Some r, Some g, Some b => mkColor true r g b
           | _, _, _ => invalid
           end
      else invalid
  | _ => invalid
  end.

(** [color.getRgb()[:3]]. *)
Definition getRgb3 (c : QColor) : Z * Z * Z := (red c, green c, blue c).

End Qt.

(** A Python [dict] with string keys, in insertion order. *)
Fixpoint dict_get {V : Type} (d : list (string * V)) (key : string) : result V :=
  match d with
  | [] => Raise KeyError
  | (k, v) :: d' => if String.eqb k key then Ok v else dict_get d' key
  end.

(** [ImageColor.getrgb(name)] for [#RRGGBB] and, of the named colours,
    those this program passes. *)
Definition getrgb (name : string) : result (Z * Z * Z) :=
  if String.eqb name "black" then Ok (0, 0, 0)
  else if String.eqb name "white" then Ok (255, 255, 255)
  else if String.eqb name "blue" then Ok (0, 0, 255)
  else if String.eqb name "yellow" then Ok (255, 255, 0)
  else let c := Qt.fromName (Some name) in
       if Qt.isValid c then Ok (Qt.getRgb3 c) else Raise ValueError.

Definition rgb_pixel (c : Z * Z * Z) : Image.pixel :=
  let '(r, g, b) := c in [r; g; b].

(* ================================================================== *)
(** * The editor: [WorkspacePage] of [ui/workspace_page.py] *)
(* ================================================================== *)

(** The attributes of [self] the image code reads and writes.
    [self.frame_dropdown] is the object stored under
    [self.dropdowns["Frame"]], so it is read from there.
    [tint_color] is [None] until the attribute is first assigned, and
    [temp_path_edit] is the image last saved to the file of that name,
    which is also the one on display. *)
Record WorkspacePage : Type := mkPage {
  sliders : list (string * Qt.QSlider);
  filters_enabled : list (string * bool);
  dropdowns : list (string * Qt.QComboBox);
  tint_color : option Qt.QColor;
  baseline_image : Image.t;
  original_image : Image.t;
  temp_path_edit : option Image.t
}.

(** ** The controls as [initUI] creates them *)

Definition tint_colors : list (string * option string) :=
  [("Pink", Some "#FF69B4"); ("Red", Some "#FF0000"); ("Orange", Some "#FFA500");
   ("Yellow", Some "#FFFF00"); ("Green", Some "#008000"); ("Cyan", Some "#00FFFF");
   ("Blue", Some "#0000FF"); ("Purple", Some "#800080"); ("Gray", Some "#808080")]%string.

Definition frame_styles : list (string * option string) :=
  [("None", None); ("Black", None); ("White", None); ("Gold", None);
   ("Metallic", None)]%string.

(** [add_slider(label, default_value, .., min_value, max_value)], in
    the order of the calls. *)
Definition initUI_sliders : list (string * Qt.QSlider) :=
  [("Transition", Qt.newSlider 0 100 100);
   ("Blur", Qt.newSlider 0 100 50);
   ("Posterize", Qt.newSlider 1 8 1);
   ("Solarize", Qt.newSlider 0 255 0);
   ("Noise", Qt.newSlider 0 50 5);
   ("Tint", Qt.newSlider 0 100 30);
   ("Paper Texture", Qt.newSlider 0 50 0);
   ("Exposure", Qt.newSlider 0 100 50);
   ("Gamma", Qt.newSlider 0 100 50);
   ("Brightness", Qt.newSlider 0 100 50);
   ("Contrast", Qt.newSlider 0 100 50);
   ("Saturation", Qt.newSlider 0 100 50);
   ("Hue", Qt.newSlider 0 100 50);
   ("Temperature", Qt.newSlider 0 100 50);
   ("Sharpness", Qt.newSlider 0 100 50)]%string.

Definition initUI_filters_enabled : list (string * bool) :=
  [("Sepia", false); ("Grayscale", false); ("Colorize", false); ("Invert", false);
   ("Blur", false); ("Posterize", false); ("Solarize", false); ("Noise", false);
   ("Tint", false); ("Paper Texture", false)]%string.

Definition initUI_dropdowns : list (string * Qt.QComboBox) :=
  [("Tint", Qt.mkCombo tint_colors 0); ("Frame", Qt.mkCombo frame_styles 0)]%string.

(** ** [update_image_display]: the reset of the controls *)

(** The loop over [self.sliders.items()]. *)
Definition reset_slider (key : string) (value : Qt.QSlider) : Qt.QSlider :=
  if String.eqb key "Transition" then Qt.setValue value 100
  else if String.eqb key "Posterize" then Qt.setValue value 1
  else if String.eqb key "Solarize" || String.eqb key "Paper Texture" then Qt.setValue value 0
  else if String.eqb key "Noise" then Qt.setValue value 10
  else if String.eqb key "Tint" then Qt.setValue value 30
  else Qt.setValue value 50.

Definition reset_sliders (d : list (string * Qt.QSlider)) : list (string * Qt.QSlider) :=
  map (fun kv => (fst kv, reset_slider (fst kv) (snd kv))) d.

(** The loop over [self.filters_enabled.items()]. *)
Definition reset_filters (d : list (string * bool)) : list (string * bool) :=
  map (fun kv => (fst kv, false)) d.

(** The loop over [self.dropdowns.items()]: every dropdown goes back to
    its first item, whose data [set_tint_color] is called with. *)
Fixpoint reset_dropdowns (d : list (string * Qt.QComboBox)) (tint : option Qt.QColor)
  : list (string * Qt.QComboBox) * option Qt.QColor :=
  match d with
  | [] => ([], tint)
  | (key, value) :: d' =>
      let value' := Qt.setCurrentIndex value 0 in
      let tint' := Some (Qt.fromName (Qt.itemData value' 0)) in
      let '(rest, tint'') := reset_dropdowns d' tint' in
      ((key, value') :: rest, tint'')
  end.

(** The state [update_image_display] leaves for its closing call of
    [apply_all_adjustments]; [loaded] is the image of the selected style
    read from the workspace folder. *)
Definition reset_controls (self : WorkspacePage) (loaded : Image.t) : WorkspacePage :=
  let '(dd, tint) := reset_dropdowns (dropdowns self) (tint_color self) in
  mkPage (reset_sliders (sliders self)) (reset_filters (filters_enabled self)) dd tint
         (baseline_image self) loaded (temp_path_edit self).

(** The value a slider has after the reset: the value the loop sets,
    brought into the range of the slider. *)
Definition value_set_by_reset (key : string) : Z :=
  Qt.value (reset_slider key (Qt.mkSlider (-1000) 1000 0)).

Definition slider_value (self : WorkspacePage) (key : string) : result Z :=
  s <- dict_get (sliders self) key ;; Ok (Qt.value s).

Definition isChecked (self : WorkspacePage) (key : string) : result bool :=
  dict_get (filters_enabled self) key.

Definition slider_values (self : WorkspacePage) : list (string * Z) :=
  map (fun kv => (fst kv, Qt.value (snd kv))) (sliders self).

(** ** The filters *)

(** [int(c1 * r + c2 * g + c3 * b)] capped at 255. *)
Definition sepia_band (c1 c2 c3 : Py.float) (r g b : Z) : Z :=
  let t := Py.add (Py.add (Py.mul c1 (Py.of_int r)) (Py.mul c2 (Py.of_int g)))
                  (Py.mul c3 (Py.of_int b)) in
  Z.min (match Float.truncate t with Some z => z | None => 0 end) 255.

Definition apply_sepia (image : Image.t) : result Image.t :=
  sepia_image <- Image.convert image Image.RGB ;;
  Ok (Image.mk Image.RGB (Image.width sepia_image) (Image.height sepia_image)
        (fun x y =>
           let p := Image.getpixel sepia_image x y in
           let r := Image.band 0 p in
           let g := Image.band 1 p in
           let b := Image.band 2 p in
           [sepia_band (Py.lit 393 1000) (Py.lit 769 1000) (Py.lit 189 1000) r g b;
            sepia_band (Py.lit 349 1000) (Py.lit 686 1000) (Py.lit 168 1000) r g b;
            sepia_band (Py.lit 272 1000) (Py.lit 534 1000) (Py.lit 131 1000) r g b])).

Definition apply_grayscale (image : Image.t) : result Image.t :=
  grey <- Image.convert image Image.L ;; Image.convert grey Image.RGB.

Definition apply_posterize (image : Image.t) (bits : Z) : result Image.t :=
  ImageOps.posterize image bits.

Definition apply_invert (image : Image.t) : result Image.t :=
  rgb <- Image.convert image Image.RGB ;; ImageOps.invert rgb.

Definition apply_solarize (image : Image.t) (threshold : Z) : result Image.t :=
  ImageOps.solarize image threshold.

Definition apply_colorize (image : Image.t) : result Image.t :=
  grayscale <- Image.convert image Image.L ;;
  black <- getrgb "blue" ;;
  white <- getrgb "yellow" ;;
  ImageOps.colorize grayscale black white.

(** [apply_noise]: the array of the image plus the noise truncated to
    [int16], in [int16] arithmetic, clipped to a byte.  The entries of
    the array run row by row, pixel by pixel, band by band. *)
Fixpoint add_noise (noise : nat -> Py.float) (k : nat) (p : Image.pixel) : Image.pixel :=
  match p with
  | [] => []
  | v :: p' =>
      np.clip (np.wrap16 (v + np.astype_int16 (noise k))) 0 255 :: add_noise noise (S k) p'
  end.

Definition apply_noise (image : Image.t) (intensity : Py.float) (g : np.RandomState)
  : result (Image.t * np.RandomState) :=
  let w := Z.max 0 (Image.width image) in
  let h := Z.max 0 (Image.height image) in
  let nb := Image.bands (Image.mode image) in
  drawn <- np.normal (Py.of_int 0) (Py.mul intensity (Py.of_int 255)) (Z.to_nat (h * w * nb)) g ;;
  let '(noise, g') := drawn in
  Ok (Image.mk (np.fromarray_mode (Image.mode image)) (Image.width image) (Image.height image)
        (fun x y => add_noise noise (Z.to_nat ((y * w + x) * nb)) (Image.getpixel image x y)),
      g').

(** [apply_tint]: the tint colour falls back to pink, and is stored,
    when the attribute was never assigned. *)
Definition apply_tint (image : Image.t) (alpha : Py.float) (tint : option Qt.QColor)
  : result (Image.t * option Qt.QColor) :=
  let color := match tint with
               | Some c => c
               | None => Qt.fromName (Some "#FF69B4"%string)
               end in
  let overlay := Image.new Image.RGB (Image.size image) (rgb_pixel (Qt.getRgb3 color)) in
  out <- Image.blend image overlay alpha ;;
  Ok (out, Some color).

(** [apply_basic_frame(image, frame_color)] with the default frame width
    20 and canvas size (800, 800). *)
Definition frame_width : Z := 20.
Definition canvas_size : Z * Z := (800, 800).

Definition frame_color_value (frame_color : string) : string :=
  if String.eqb frame_color "Black" then "black"
  else if String.eqb frame_color "White" then "white"
  else if String.eqb frame_color "Metallic" then "#C0C0C0"
  else if String.eqb frame_color "Gold" then "#FFD700"
  else frame_color.

Definition apply_basic_frame (image : Image.t) (frame_color : string) : result Image.t :=
  let frame_color := frame_color_value frame_color in
  let inner_width := fst canvas_size - 2 * frame_width in
  let inner_height := snd canvas_size - 2 * frame_width in
  let top := (Image.height image - inner_height) / 2 in
  let left := (Image.width image - inner_width) / 2 in
  let right := left + inner_width in
  let bottom := top + inner_height in
  cropped_image <- Image.crop image (left, top, right, bottom) ;;
  color <- getrgb frame_color ;;
  let framed_image := Image.new Image.RGB canvas_size (rgb_pixel color) in
  Image.paste framed_image cropped_image (frame_width, frame_width).

(** The colour of each named frame. *)
Definition frame_rgb (frame_style : string) : Image.pixel :=
  match getrgb (frame_color_value frame_style) with
  | Ok c => rgb_pixel c
  | Raise _ => []
  end.

Definition named_frame (frame_style : string) : bool :=
  String.eqb frame_style "Black" || String.eqb frame_style "White"
  || String.eqb frame_style "Gold" || String.eqb frame_style "Metallic".

Definition apply_frame (self : WorkspacePage) (image : Image.t) : result Image.t :=
  frame_dropdown <- dict_get (dropdowns self) "Frame" ;;
  let frame_style := Qt.currentText frame_dropdown in
  if named_frame frame_style then apply_basic_frame image frame_style
  else Ok image.

(** ** The tone adjustments *)

(** The eight sliders of the "Editing" group. *)
Definition tone_sliders : list string :=
  ["Exposure"; "Gamma"; "Brightness"; "Contrast"; "Saturation"; "Hue"; "Temperature";
   "Sharpness"]%string.

(** An RGB pixel converted to HSV and back, as the hue adjustment does
    on every pixel before and after it shifts the H band. *)
Definition hsv_round_trip (p : Image.pixel) : Image.pixel :=
  let hsv := Image.rgb2hsv (Image.band 0 p) (Image.band 1 p) (Image.band 2 p) in
  Image.hsv2rgb (Image.band 0 hsv) (Image.band 1 hsv) (Image.band 2 hsv).

Definition brightness_enhance (image : Image.t) (factor : Py.float) : result Image.t :=
  degenerate <- ImageEnhance.Brightness image ;; ImageEnhance.enhance degenerate image factor.

(** Exposure: [ImageEnhance.Brightness(..).enhance(slider / 50.0)]. *)
Definition exposure_stage (slider : Z) (image : Image.t) : result Image.t :=
  exposure_value <- Py.truediv (Py.of_int slider) (Py.of_int 50) ;;
  brightness_enhance image exposure_value.

(** Brightness: the same enhancement, from its own slider. *)
Definition brightness_stage (slider : Z) (image : Image.t) : result Image.t :=
  brightness_value <- Py.truediv (Py.of_int slider) (Py.of_int 50) ;;
  brightness_enhance image brightness_value.

Definition contrast_stage (slider : Z) (image : Image.t) : result Image.t :=
  contrast_value <- Py.truediv (Py.of_int slider) (Py.of_int 50) ;;
  degenerate <- ImageEnhance.Contrast image ;;
  ImageEnhance.enhance degenerate image contrast_value.

Definition saturation_stage (slider : Z) (image : Image.t) : result Image.t :=
  saturation_value <- Py.truediv (Py.of_int slider) (Py.of_int 50) ;;
  degenerate <- ImageEnhance.Color image ;;
  ImageEnhance.enhance degenerate image saturation_value.

(** Hue: [(slider - 50) * 3.6] added to the H band modulo 256. *)
Definition hue_lut (hue_shift : Py.float) (p : Z) : result pynum :=
  Ok (PyFloat (Py.mod_pos (Py.add (Py.of_int p) hue_shift) 256)).

Definition hue_stage (slider : Z) (image : Image.t) : result Image.t :=
  let hue_shift := Py.mul (Py.of_int (slider - 50)) (Py.lit 36 10) in
  hsv_image <- Image.convert image Image.HSV ;;
  match Image.split hsv_image with
  | [h; s; v] =>
      h <- Image.point h (hue_lut hue_shift) ;;
      merged <- Image.merge Image.HSV [h; s; v] ;;
      Image.convert merged Image.RGB
  | _ => Raise ValueError
  end.

(** Temperature: red raised for a positive shift, otherwise blue raised
    by the opposite of the shift. *)
Definition temperature_stage (slider : Z) (image : Image.t) : result Image.t :=
  let temperature_shift := slider - 50 in
  match Image.split image with
  | [r; g; b] =>
      rb <- (if 0 <? temperature_shift
             then r <- Image.point r (fun p => Ok (PyInt (Z.min 255 (p + temperature_shift)))) ;;
                  Ok (r, b)
             else b <- Image.point b (fun p => Ok (PyInt (Z.min 255 (p - temperature_shift)))) ;;
                  Ok (r, b)) ;;
      Image.merge Image.RGB [fst rb; g; snd rb]
  | _ => Raise ValueError
  end.

Definition sharpness_stage (slider : Z) (image : Image.t) : result Image.t :=
  q <- Py.truediv (Py.of_int slider) (Py.of_int 10) ;;
  let sharpness_value := Py.add q (Py.of_int 1) in
  degenerate <- ImageEnhance.Sharpness image ;;
  ImageEnhance.enhance degenerate image sharpness_value.

Section Editor.

(** Two library functions are not embedded and stay parameters: the
    [pow] of the C library behind Python's [x ** y] on floats, and
    Pillow's Gaussian blur (BoxBlur.c), [im.filter(GaussianBlur(r))],
    a pure function of the radius and the image. *)
Variable float_pow : Py.float -> Py.float -> Py.float.
Variable GaussianBlur : Py.float -> Image.t -> Image.t.

(** [x ** y] on floats, for [x >= 0]: zero to a negative power raises
    [ZeroDivisionError]. *)
Definition py_pow (x y : Py.float) : result Py.float :=
  if Float.is_zero x && Float.is_neg y then Raise ZeroDivisionError
  else Ok (float_pow x y).

Definition apply_blur (image : Image.t) (blur_radius : Py.float) : result Image.t :=
  Ok (GaussianBlur blur_radius image).

(** Gamma: [gamma_value = max(0.1, slider / 50.0)], then the table
    [255 * ((p / 255) ** (1.0 / gamma_value))]. *)
Definition gamma_value (slider : Z) : result Py.float :=
  q <- Py.truediv (Py.of_int slider) (Py.of_int 50) ;;
  Ok (Py.max (Py.lit 1 10) q).

Definition gamma_lut (inv_gamma : Py.float) (p : Z) : result pynum :=
  x <- Py.truediv (Py.of_int p) (Py.of_int 255) ;;
  y <- py_pow x inv_gamma ;;
  Ok (PyFloat (Py.mul (Py.of_int 255) y)).

Definition gamma_stage (slider : Z) (image : Image.t) : result Image.t :=
  gamma_value <- gamma_value slider ;;
  inv_gamma <- Py.truediv (Py.of_int 1) gamma_value ;;
  Image.point image (gamma_lut inv_gamma).

(** The entry of the gamma table for the byte [p]. *)
Definition gamma_entry (inv_gamma : Py.float) (p : Z) : Py.float :=
  Py.mul (Py.of_int 255) (float_pow (SFdiv Py.prec Py.emax (Py.of_int p) (Py.of_int 255)) inv_gamma).

(** The power function returns numbers on the table: no entry is an
    infinity or NaN. *)
Definition table_is_finite (inv_gamma : Py.float) : Prop :=
  forall p, 0 <= p <= 255 -> Float.is_finite (gamma_entry inv_gamma p) = true.

(** [generate_paper_texture(size, intensity)]. *)
Definition generate_paper_texture (size : Z * Z) (intensity : Py.float) (g : np.RandomState)
  : result (Image.t * np.RandomState) :=
  let w := Z.max 0 (fst size) in
  let h := Z.max 0 (snd size) in
  drawn <- np.normal (Py.of_int 127) (Py.mul (Py.of_int 127) intensity)
                     (Z.to_nat (h * w * 3)) g ;;
  let '(texture, g') := drawn in
  let texture_image :=
    Image.mk Image.RGB (fst size) (snd size)
      (fun x y =>
         let k := Z.to_nat ((y * w + x) * 3) in
         [np.astype_uint8 (texture k); np.astype_uint8 (texture (S k));
          np.astype_uint8 (texture (S (S k)))]) in
  Ok (GaussianBlur (Py.of_int 1) texture_image, g').

(** ** [apply_all_adjustments] *)

(** BLENDING. *)
Definition blend_stage (self : WorkspacePage) : result Image.t :=
  let styled_image := Image.copy (original_image self) in
  let original_image := Image.copy (baseline_image self) in
  transition <- slider_value self "Transition" ;;
  blend_value <- Py.truediv (Py.of_int transition) (Py.of_int 100) ;;
  Image.blend original_image styled_image blend_value.

Definition when (c : bool) (f : Image.t -> result Image.t) (image : Image.t)
  : result Image.t :=
  if c then f image else Ok image.

(** FILTERS, up to the noise. *)
Definition filters_before_noise (self : WorkspacePage) (adjusted_image : Image.t)
  : result Image.t :=
  c <- isChecked self "Invert" ;;
  adjusted_image <- when c apply_invert adjusted_image ;;
  c <- isChecked self "Grayscale" ;;
  adjusted_image <- when c apply_grayscale adjusted_image ;;
  c <- isChecked self "Solarize" ;;
  adjusted_image <- when c (fun im => threshold <- slider_value self "Solarize" ;;
                                      apply_solarize im threshold) adjusted_image ;;
  c <- isChecked self "Sepia" ;;
  adjusted_image <- when c apply_sepia adjusted_image ;;
  c <- isChecked self "Colorize" ;;
  adjusted_image <- when c apply_colorize adjusted_image ;;
  c <- isChecked self "Posterize" ;;
  when c (fun im => posterize_bits <- slider_value self "Posterize" ;;
                    apply_posterize im posterize_bits) adjusted_image.

(** Noise. *)
Definition noise_filter (self : WorkspacePage) (g : np.RandomState) (adjusted_image : Image.t)
  : result (Image.t * np.RandomState) :=
  c <- isChecked self "Noise" ;;
  if c then
    v <- slider_value self "Noise" ;;
    noise_intensity <- Py.truediv (Py.of_int v) (Py.of_int 100) ;;
    apply_noise adjusted_image noise_intensity g
  else Ok (adjusted_image, g).

(** Tint. *)
Definition tint_filter (self : WorkspacePage) (adjusted_image : Image.t)
  : result (Image.t * option Qt.QColor) :=
  c <- isChecked self "Tint" ;;
  if c then
    v <- slider_value self "Tint" ;;
    alpha <- Py.truediv (Py.of_int v) (Py.of_int 100) ;;
    apply_tint adjusted_image alpha (tint_color self)
  else Ok (adjusted_image, tint_color self).

(** Blur. *)
Definition blur_filter (self : WorkspacePage) (adjusted_image : Image.t) : result Image.t :=
  c <- isChecked self "Blur" ;;
  when c (fun im => v <- slider_value self "Blur" ;;
                    blur_intensity <- Py.truediv (Py.of_int v) (Py.of_int 5) ;;
                    apply_blur im blur_intensity) adjusted_image.

(** EDITING: the eight tone adjustments, each from its slider. *)
Definition tone_adjustments (self : WorkspacePage) (adjusted_image : Image.t)
  : result Image.t :=
  v <- slider_value self "Exposure" ;;
  adjusted_image <- exposure_stage v adjusted_image ;;
  v <- slider_value self "Gamma" ;;
  adjusted_image <- gamma_stage v adjusted_image ;;
  v <- slider_value self "Brightness" ;;
  adjusted_image <- brightness_stage v adjusted_image ;;
  v <- slider_value self "Contrast" ;;
  adjusted_image <- contrast_stage v adjusted_image ;;
  v <- slider_value self "Saturation" ;;
  adjusted_image <- saturation_stage v adjusted_image ;;
  v <- slider_value self "Hue" ;;
  adjusted_image <- hue_stage v adjusted_image ;;
  v <- slider_value self "Temperature" ;;
  adjusted_image <- temperature_stage v adjusted_image ;;
  v <- slider_value self "Sharpness" ;;
  sharpness_stage v adjusted_image.

(** Paper Texture. *)
Definition paper_texture_overlay (self : WorkspacePage) (g : np.RandomState)
    (adjusted_image : Image.t) : result (Image.t * np.RandomState) :=
  c <- isChecked self "Paper Texture" ;;
  if c then
    v <- slider_value self "Paper Texture" ;;
    paper_texture_intensity <- Py.truediv (Py.of_int v) (Py.of_int 100) ;;
    if SFltb (Py.of_int 0) paper_texture_intensity then
      made <- generate_paper_texture (Image.size adjusted_image) paper_texture_intensity g ;;
      let '(paper_texture, g') := made in
      out <- Image.blend adjusted_image paper_texture paper_texture_intensity ;;
      Ok (out, g')
    else Ok (adjusted_image, g)
  else Ok (adjusted_image, g).

(** The whole method: the image it saves and displays, with the page
    and the generator as it leaves them. *)
Definition apply_all_adjustments (self : WorkspacePage) (g : np.RandomState)
  : result (Image.t * WorkspacePage * np.RandomState) :=
  blended_image <- blend_stage self ;;
  let adjusted_image := blended_image in
  adjusted_image <- filters_before_noise self adjusted_image ;;
  noisy <- noise_filter self g adjusted_image ;;
  let '(adjusted_image, g) := noisy in
  tinted <- tint_filter self adjusted_image ;;
  let '(adjusted_image, tint) := tinted in
  adjusted_image <- blur_filter self adjusted_image ;;
  adjusted_image <- tone_adjustments self adjusted_image ;;
  textured <- paper_texture_overlay self g adjusted_image ;;
  let '(adjusted_image, g) := textured in
  adjusted_image <- apply_frame self adjusted_image ;;
  Ok (adjusted_image,
      mkPage (sliders self) (filters_enabled self) (dropdowns self) tint
             (baseline_image self) (original_image self) (Some adjusted_image),
      g).


End Editor.

(** What the slider range guarantees, checked on each of its values:
    the effective gamma is at least 0.1, hence not zero, and its
    reciprocal is not negative. *)
Definition gamma_checked (slider : Z) : bool :=
  match gamma_value slider with
  | Ok gamma =>
      SFleb (Py.lit 1 10) gamma && negb (Float.is_zero gamma)
      && match Py.truediv (Py.of_int 1) gamma with
         | Ok inv_gamma => negb (Float.is_neg inv_gamma)
         | Raise _ => false
         end
  | Raise _ => false
  end.

(** The images the editor works on: valid RGB images of one size. *)
Definition rgb_of_size (w h : Z) (im : Image.t) : Prop :=
  Image.valid im /\ Image.mode im = Image.RGB /\
  Image.width im = w /\ Image.height im = h.

(** A page with the controls [initUI] creates, in any state: the
    sliders under their labels, each with its range and a value in it,
    the check boxes and the two dropdowns under theirs, and a tint
    colour, if one is stored, with bands that are bytes. *)
Definition controls_of_initUI (self : WorkspacePage) : Prop :=
  map fst (sliders self) = map fst initUI_sliders /\
  map (fun kv => (Qt.minimum (snd kv), Qt.maximum (snd kv))) (sliders self)
  = map (fun kv => (Qt.minimum (snd kv), Qt.maximum (snd kv))) initUI_sliders /\
  Forall (fun kv => Qt.minimum (snd kv) <= Qt.value (snd kv) <= Qt.maximum (snd kv))
    (sliders self) /\
  map fst (filters_enabled self) = map fst initUI_filters_enabled /\
  map fst (dropdowns self) = map fst initUI_dropdowns /\
  (forall c, tint_color self = Some c ->
     Image.byte (Qt.red c) /\ Image.byte (Qt.green c) /\ Image.byte (Qt.blue c)).

(* ================================================================== *)
(** * The gallery: the animation frames of [ui/gallery_page.py] *)
(* ================================================================== *)

(** [int(width * (i / 100.0))]. *)
Definition split_position (width i : Z) : result Z :=
  q <- Py.truediv (Py.of_int i) (Py.of_int 100) ;;
  Py.int (Py.mul (Py.of_int width) q).

(** The body of the loop [for i in range(101)] of
    [export_animation_gif]: the frame appended to [frames].  With a
    mode that is neither string, [blended_frame] is unbound. *)
Definition gif_frame (mode : string) (original_image styled_image : Image.t) (i : Z)
  : result Image.t :=
  if String.eqb mode "Transition" then
    alpha <- Py.truediv (Py.of_int i) (Py.of_int 100) ;;
    Image.blend original_image styled_image alpha
  else if String.eqb mode "Before/After" then
    let blended_frame := Image.copy styled_image in
    let width := Image.width styled_image in
    split_position <- split_position width i ;;
    piece <- Image.crop original_image
               (split_position, 0, width, Image.height original_image) ;;
    Image.paste blended_frame piece (split_position, 0)
  else Raise UnboundLocalError.

(** The same loop in [export_animation_video], where [width] and
    [height] are those of the original image. *)
Definition video_frame (mode : string) (original_image styled_image : Image.t) (i : Z)
  : result Image.t :=
  let width := Image.width original_image in
  let height := Image.height original_image in
  if String.eqb mode "Transition" then
    alpha <- Py.truediv (Py.of_int i) (Py.of_int 100) ;;
    Image.blend original_image styled_image alpha
  else if String.eqb mode "Before/After" then
    let blended_frame := Image.copy styled_image in
    split_position <- split_position width i ;;
    piece <- Image.crop original_image (split_position, 0, width, height) ;;
    Image.paste blended_frame piece (split_position, 0)
  else Raise UnboundLocalError.

(** The list [frames] of [export_animation_gif], and the frames
    [export_animation_video] hands to the video writer. *)
Definition export_animation_gif (mode : string) (original_image styled_image : Image.t)
  : result (list Image.t) :=
  mapM (gif_frame mode original_image styled_image) (range 101).

Definition export_animation_video (mode : string) (original_image styled_image : Image.t)
  : result (list Image.t) :=
  mapM (video_frame mode original_image styled_image) (range 101).

(** The renderer as the specification names it: image A is the original
    image, the first of the two, and image B the styled one. *)
Inductive Effect : Type := Transition | BeforeAfter.

Definition effect_name (e : Effect) : string :=
  match e with
  | Transition => "Transition"
  | BeforeAfter => "Before/After"
  end.

Definition render_frames (imageA imageB : Image.t) (e : Effect) : result (list Image.t) :=
  export_animation_gif (effect_name e) imageA imageB.


(* ================================================================== *)
(** * Sample inputs *)
(* ================================================================== *)

Definition solid (m : Image.Mode) (w h : Z) (p : Image.pixel) : Image.t :=
  Image.new m (w, h) p.

(** Two RGBA images of two pixels, as the gallery loads them. *)
Definition red2 : Image.t := solid Image.RGBA 2 1 [255; 0; 0; 255].
Definition blue2 : Image.t := solid Image.RGBA 2 1 [0; 0; 255; 255].

(** RGB images of one pixel, as the editor loads them. *)
Definition leaf1 : Image.t := solid Image.RGB 1 1 [10; 200; 30].
Definition white1 : Image.t := solid Image.RGB 1 1 [255; 255; 255].
Definition grey1 : Image.t := solid Image.RGB 1 1 [100; 100; 100].

(** A grey dot on black, three pixels wide and high. *)
Definition dot3 : Image.t :=
  Image.mk Image.RGB 3 3
    (fun x y => if (x =? 1) && (y =? 1) then [100; 100; 100] else [0; 0; 0]).

(** The page as [initUI] leaves it, for two loaded images. *)
Definition page_of (baseline styled : Image.t) : WorkspacePage :=
  mkPage initUI_sliders initUI_filters_enabled initUI_dropdowns None baseline styled None.

Fixpoint dict_set {V : Type} (d : list (string * V)) (key : string) (v : V)
  : list (string * V) :=
  match d with
  | [] => []
  | (k, v0) :: d' => if String.eqb k key then (k, v) :: d' else (k, v0) :: dict_set d' key v
  end.

(** The user moves a slider, ticks a box, picks a frame. *)
Definition move_slider (self : WorkspacePage) (key : string) (v : Z) : WorkspacePage :=
  match dict_get (sliders self) key with
  | Ok s => mkPage (dict_set (sliders self) key (Qt.setValue s v)) (filters_enabled self)
              (dropdowns self) (tint_color self) (baseline_image self) (original_image self)
              (temp_path_edit self)
  | Raise _ => self
  end.

Definition tick (self : WorkspacePage) (key : string) : WorkspacePage :=
  mkPage (sliders self) (dict_set (filters_enabled self) key true) (dropdowns self)
    (tint_color self) (baseline_image self) (original_image self) (temp_path_edit self).

(** A generator whose deviates are 0, 1, 2, ... *)
Definition counting : np.RandomState := fun k => Py.of_int (Z.of_nat k).

(** The page with grey as both images and the noise filter ticked, its
    slider at the 5 [initUI] gave it. *)
Definition noisy_page : WorkspacePage := tick (page_of grey1 grey1) "Noise".

(** The standard deviation of the noise at 5%. *)
Definition sigma_5 : Py.float :=
  Py.mul (SFdiv Py.prec Py.emax (Py.of_int 5) (Py.of_int 100)) (Py.of_int 255).


(** Stand-ins for the two library functions that are parameters, for
    closed examples: a power function that is right for the exponent
    1.0, and a blur that does nothing. *)
Definition pow_stand_in : Py.float -> Py.float -> Py.float := fun x _ => x.
Definition blur_stand_in : Py.float -> Image.t -> Image.t := fun _ im => im.

Definition rows_of (r : result Image.t) : result (list (list Image.pixel)) :=
  match r with
  | Ok im => Ok (Image.rows im)
  | Raise e => Raise e
  end.

(* ================================================================== *)
(** * Lemmas on the result monad, ranges and images *)
(* ================================================================== *)

(** Case analysis on the integer comparisons of the goal. *)
Ltac case_cmp :=
  repeat match goal with
         | |- context [?a <=? ?b] => destruct (Z.leb_spec a b)
         | |- context [?a <? ?b] => destruct (Z.ltb_spec a b)
         | |- context [?a =? ?b] => destruct (Z.eqb_spec a b)
         end.

Lemma bind_Ok {A B : Type} (r : result A) (k : A -> result B) (a : A) :
  r = Ok a -> bind r k = k a.
Proof. intros ->. reflexivity. Qed.

Lemma mapM_pure {A B : Type} (f : A -> B) (l : list A) :
  mapM (fun a => Ok (f a)) l = Ok (map f l).
Proof.
  induction l as [|a l IH]; simpl.
  - reflexivity.
  - rewrite IH. reflexivity.
Qed.

Lemma mapM_ext_in {A B : Type} (f g : A -> result B) (l : list A) :
  (forall a, In a l -> f a = g a) -> mapM f l = mapM g l.
Proof.
  induction l as [|a l IH]; intros H; simpl.
  - reflexivity.
  - rewrite (H a) by (left; reflexivity).
    rewrite IH by (intros b Hb; apply H; right; exact Hb).
    reflexivity.
Qed.

(** When every call succeeds, [mapM] returns the results in order. *)
Lemma mapM_nth {A B : Type} (f : A -> result B) (l : list A) :
  (forall a, In a l -> exists b, f a = Ok b) ->
  exists bs, mapM f l = Ok bs /\ length bs = length l /\
             forall i a, nth_error l i = Some a ->
                         exists b, nth_error bs i = Some b /\ f a = Ok b.
Proof.
  induction l as [|a l IH]; intros H.
  - exists []. repeat split. intros [|i] a0 Hi; discriminate.
  - destruct (H a (or_introl eq_refl)) as [b Hb].
    destruct IH as [bs [E [Hlen Hnth]]].
    { intros a0 Ha0. apply H. right. exact Ha0. }
    exists (b :: bs). simpl. rewrite Hb, E. simpl. repeat split.
    + rewrite Hlen. reflexivity.
    + intros [|i] a0 Hi; simpl in *.
      * inversion Hi; subst. exists b. split; [reflexivity | exact Hb].
      * apply Hnth. exact Hi.
Qed.

Lemma range_length (n : Z) : length (range n) = Z.to_nat n.
Proof. unfold range. rewrite length_map, length_seq. reflexivity. Qed.

Lemma In_range (i n : Z) : In i (range n) <-> 0 <= i < n.
Proof.
  unfold range. rewrite in_map_iff. split.
  - intros [k [<- Hk]]. apply in_seq in Hk. lia.
  - intros H. exists (Z.to_nat i). split; [lia | apply in_seq; lia].
Qed.

Lemma nth_error_range (i n : Z) :
  0 <= i < n -> nth_error (range n) (Z.to_nat i) = Some i.
Proof.
  intros H. unfold range.
  rewrite nth_error_map, nth_error_seq.
  destruct (Nat.ltb_spec (Z.to_nat i) (Z.to_nat n)); [|lia].
  simpl. f_equal. lia.
Qed.

(** A property checked on every integer of [0 .. n-1] holds on each. *)
Lemma forallb_range (P : Z -> bool) (n i : Z) :
  forallb P (range n) = true -> 0 <= i < n -> P i = true.
Proof.
  intros H Hi. rewrite forallb_forall in H. apply H, In_range, Hi.
Qed.

Lemma same_refl (a : Image.t) : Image.same a a.
Proof. repeat split. Qed.

Lemma same_sym (a b : Image.t) : Image.same a b -> Image.same b a.
Proof.
  intros [Hm [Hw [Hh Hp]]]. repeat split; try congruence.
  intros x y Hx Hy. symmetry. apply Hp; congruence.
Qed.

Lemma same_trans (a b c : Image.t) : Image.same a b -> Image.same b c -> Image.same a c.
Proof.
  intros [Hm [Hw [Hh Hp]]] [Hm' [Hw' [Hh' Hp']]]. repeat split; try congruence.
  intros x y Hx Hy. rewrite Hp by assumption. apply Hp'; congruence.
Qed.

(** Pixel-identical images have the same rows. *)
Lemma same_rows (a b : Image.t) : Image.same a b -> Image.rows a = Image.rows b.
Proof.
  intros [_ [Hw [Hh Hp]]]. unfold Image.rows. rewrite <- Hw, <- Hh.
  apply map_ext_in. intros y Hy. apply In_range in Hy.
  apply map_ext_in. intros x Hx. apply In_range in Hx.
  apply Hp; assumption.
Qed.

(** ** Blending at the two ends *)

Lemma blend_0 (im1 im2 : Image.t) :
  Image.match_ im1 im2 = true -> Image.blend im1 im2 (S754_zero false) = Ok im1.
Proof. intros H. unfold Image.blend. rewrite H. reflexivity. Qed.

Lemma blend_1 (im1 im2 : Image.t) :
  Image.match_ im1 im2 = true -> Image.blend im1 im2 (Py.of_int 1) = Ok im2.
Proof. intros H. unfold Image.blend. rewrite H. reflexivity. Qed.

Lemma match_same_shape (im1 im2 : Image.t) :
  Image.mode im1 = Image.mode im2 -> Image.width im1 = Image.width im2 ->
  Image.height im1 = Image.height im2 -> Image.match_ im1 im2 = true.
Proof.
  intros Hm Hw Hh. unfold Image.match_. rewrite Hm, Hw, Hh, !Z.eqb_refl. reflexivity.
Qed.

Lemma div100_0 : Py.truediv (Py.of_int 0) (Py.of_int 100) = Ok (S754_zero false).
Proof. reflexivity. Qed.

Lemma div100_100 : Py.truediv (Py.of_int 100) (Py.of_int 100) = Ok (Py.of_int 1).
Proof. reflexivity. Qed.

Lemma div100_Ok (i : Z) :
  Py.truediv (Py.of_int i) (Py.of_int 100) = Ok (SFdiv Py.prec Py.emax (Py.of_int i) (Py.of_int 100)).
Proof. reflexivity. Qed.

(* ================================================================== *)
(** * The blend stage and the Transition frames *)
(* ================================================================== *)

(** C7. For a base image and a styled image of the same mode and size,
    the blend stage returns the base image itself when the Transition
    slider is at 0 and the styled image itself when it is at 100. *)
Theorem blend_stage_endpoints (self : WorkspacePage) (s : Qt.QSlider) :
  Image.mode (baseline_image self) = Image.mode (original_image self) ->
  Image.width (baseline_image self) = Image.width (original_image self) ->
  Image.height (baseline_image self) = Image.height (original_image self) ->
  dict_get (sliders self) "Transition" = Ok s ->
  (Qt.value s = 0 -> blend_stage self = Ok (baseline_image self)) /\
  (Qt.value s = 100 -> blend_stage self = Ok (original_image self)).
Proof.
  intros Hm Hw Hh Hs.
  pose proof (match_same_shape _ _ Hm Hw Hh) as Hmatch.
  unfold blend_stage, slider_value. rewrite Hs. cbn [bind].
  split; intros ->.
  - rewrite div100_0. cbn [bind]. apply blend_0. exact Hmatch.
  - rewrite div100_100. cbn [bind]. apply blend_1. exact Hmatch.
Qed.

Lemma blend_stage_endpoints_witness :
  blend_stage (move_slider (page_of grey1 leaf1) "Transition" 0) = Ok grey1 /\
  blend_stage (page_of grey1 leaf1) = Ok leaf1.
Proof.
  split.
  - apply (proj1 (blend_stage_endpoints
                    (move_slider (page_of grey1 leaf1) "Transition" 0)
                    (Qt.mkSlider 0 100 0) eq_refl eq_refl eq_refl eq_refl)).
    reflexivity.
  - apply (proj2 (blend_stage_endpoints (page_of grey1 leaf1)
                    (Qt.mkSlider 0 100 100) eq_refl eq_refl eq_refl eq_refl)).
    reflexivity.
Defined.

(** The example of the specification: black and white blended at 50
    give 127 in every band. *)
Example blend_black_white_50 :
  rows_of (blend_stage (move_slider (page_of (solid Image.RGB 2 2 [0; 0; 0])
                                             (solid Image.RGB 2 2 [255; 255; 255]))
                                    "Transition" 50))
  = Ok [[[127; 127; 127]; [127; 127; 127]]; [[127; 127; 127]; [127; 127; 127]]].
Proof. vm_compute. reflexivity. Qed.

Lemma blend_completes (im1 im2 : Image.t) (alpha : Py.float) :
  Image.match_ im1 im2 = true -> exists out, Image.blend im1 im2 alpha = Ok out.
Proof.
  intros H. unfold Image.blend. rewrite H. simpl.
  destruct (SFeqb _ _); [eexists; reflexivity|].
  destruct (SFeqb _ _); eexists; reflexivity.
Qed.




(** Frame 50 of the transition from red to blue. *)
Example transition_frame_50 :
  rows_of (gif_frame "Transition" red2 blue2 50)
  = Ok [[[127; 0; 127; 255]; [127; 0; 127; 255]]].
Proof. vm_compute. reflexivity. Qed.

(* ================================================================== *)
(** * The Before/After frames *)
(* ================================================================== *)

(** The floating-point product can fall just short of the exact one:
    29% of 100 pixels is 28 pixels, and 57% of 800 is 455. *)
Example split_position_100_29 : split_position 100 29 = Ok 28.
Proof. vm_compute. reflexivity. Qed.

Example split_position_800_57 : split_position 800 57 = Ok 455.
Proof. vm_compute. reflexivity. Qed.

Lemma firstn_valid (im : Image.t) (x y : Z) :
  Image.valid im -> 0 <= x < Image.width im -> 0 <= y < Image.height im ->
  firstn (Z.to_nat (Image.bands (Image.mode im))) (Image.getpixel im x y)
  = Image.getpixel im x y.
Proof.
  intros [_ [_ Hv]] Hx Hy. destruct (Hv x y Hx Hy) as [Hlen _].
  apply firstn_all2. lia.
Qed.

Lemma Mode_eqb_refl (m : Image.Mode) : Image.Mode_eqb m m = true.
Proof. destruct m; reflexivity. Qed.

(** What the Before/After loop computes: frame [i] has the pixels of the
    styled image left of the split position [sp] and those of the
    original image from the split position on. *)
Theorem before_after_frame (original_image styled_image : Image.t) (i sp : Z) :
  Image.valid original_image ->
  Image.mode original_image = Image.mode styled_image ->
  Image.width original_image = Image.width styled_image ->
  Image.height original_image = Image.height styled_image ->
  split_position (Image.width styled_image) i = Ok sp ->
  0 <= sp <= Image.width styled_image ->
  exists frame,
    gif_frame "Before/After" original_image styled_image i = Ok frame /\
    video_frame "Before/After" original_image styled_image i = Ok frame /\
    Image.mode frame = Image.mode styled_image /\
    Image.width frame = Image.width styled_image /\
    Image.height frame = Image.height styled_image /\
    forall x y, 0 <= x < Image.width frame -> 0 <= y < Image.height frame ->
      Image.getpixel frame x y =
        if x <? sp then Image.getpixel styled_image x y
        else Image.getpixel original_image x y.
Proof.
  intros Hv Hm Hw Hh Hsp Hb.
  assert (Hh0 : 0 <= Image.height original_image) by (destruct Hv as [_ [? _]]; lia).
  unfold gif_frame, video_frame. cbn [String.eqb Ascii.eqb Bool.eqb].
  rewrite Hw, Hsp. cbn [bind]. unfold Image.crop.
  destruct (Z.ltb_spec (Image.width styled_image) sp); [lia|].
  destruct (Z.ltb_spec (Image.height original_image) 0); [lia|].
  cbn [bind]. unfold Image.paste, Image.copy. cbn [Image.mode Image.width Image.height].
  rewrite <- Hm, Mode_eqb_refl. cbn [bind].
  eexists. split; [reflexivity|]. split; [reflexivity|].
  cbn [Image.mode Image.width Image.height Image.getpixel].
  split; [reflexivity|]. split; [reflexivity|]. split; [reflexivity|].
  intros x y Hx Hy.
  destruct (Z.ltb_spec x sp) as [Hlt|Hge].
  - destruct (Z.leb_spec sp x); [lia|]. reflexivity.
  - destruct (Z.leb_spec sp x); [|lia].
    destruct (Z.ltb_spec x (sp + (Image.width styled_image - sp))); [|lia].
    destruct (Z.leb_spec 0 y); [|lia].
    destruct (Z.ltb_spec y (0 + (Image.height original_image - 0))); [|lia].
    cbn [andb]. unfold Image.inside.
    replace (x - sp + sp) with x by lia. replace (y - 0 + 0) with y by lia.
    destruct (Z.leb_spec 0 x); [|lia].
    destruct (Z.ltb_spec x (Image.width original_image)); [|lia].
    destruct (Z.leb_spec 0 y); [|lia].
    destruct (Z.ltb_spec y (Image.height original_image)); [|lia].
    cbn [andb]. apply firstn_valid; [exact Hv | lia | lia].
Qed.

(** On images up to 800 pixels wide, which is what the gallery scales
    them to, the split position is 0 for frame 0 and the width for
    frame 100. *)
Lemma split_position_0 (w : Z) : 0 <= w <= 800 -> split_position w 0 = Ok 0.
Proof.
  intros Hw.
  assert (H : forallb (fun w => match split_position w 0 with
                                | Ok sp => sp =? 0
                                | Raise _ => false
                                end) (range 801) = true) by (vm_cast_no_check (eq_refl true)).
  apply (forallb_range _ 801 w) in H; [|lia]. cbv beta in H.
  destruct (split_position w 0) as [sp|]; [|discriminate].
  f_equal. lia.
Qed.

Lemma split_position_100 (w : Z) : 0 <= w <= 800 -> split_position w 100 = Ok w.
Proof.
  intros Hw.
  assert (H : forallb (fun w => match split_position w 100 with
                                | Ok sp => sp =? w
                                | Raise _ => false
                                end) (range 801) = true) by (vm_cast_no_check (eq_refl true)).
  apply (forallb_range _ 801 w) in H; [|lia]. cbv beta in H.
  destruct (split_position w 100) as [sp|]; [|discriminate].
  f_equal. lia.
Qed.

(** So the sweep runs from the original image to the styled one: the
    first frame is pixel-identical to the original image (image A) and
    the last one to the styled image (image B). *)
Theorem before_after_endpoints (imageA imageB : Image.t) :
  Image.valid imageA ->
  Image.mode imageA = Image.mode imageB ->
  Image.width imageA = Image.width imageB ->
  Image.height imageA = Image.height imageB ->
  Image.width imageB <= 800 ->
  exists first last,
    gif_frame "Before/After" imageA imageB 0 = Ok first /\
    gif_frame "Before/After" imageA imageB 100 = Ok last /\
    Image.same first imageA /\ Image.same last imageB.
Proof.
  intros Hv Hm Hw Hh Hw800.
  assert (Hw0 : 0 <= Image.width imageB) by (destruct Hv as [? _]; lia).
  destruct (before_after_frame imageA imageB 0 0 Hv Hm Hw Hh)
    as [f0 [Hg0 [_ [Hm0 [Hw0' [Hh0 Hp0]]]]]]; [apply split_position_0; lia | lia |].
  destruct (before_after_frame imageA imageB 100 (Image.width imageB) Hv Hm Hw Hh)
    as [f1 [Hg1 [_ [Hm1 [Hw1 [Hh1 Hp1]]]]]]; [apply split_position_100; lia | lia |].
  exists f0, f1. split; [exact Hg0|]. split; [exact Hg1|]. split.
  - repeat split; try congruence.
    intros x y Hx Hy. rewrite Hp0 by assumption.
    destruct (Z.ltb_spec x 0); [lia | reflexivity].
  - repeat split; try congruence.
    intros x y Hx Hy. rewrite Hp1 by assumption.
    destruct (Z.ltb_spec x (Image.width imageB)); [reflexivity | lia].
Qed.

(** C1, on the code. With a red original image A and a blue styled
    image B, frame 0 of Before/After mode is A (all red) and frame 100
    is B (all blue), in the GIF export and in the video export alike;
    midway the blue, styled pixel is the one on the left. *)
Theorem before_after_sweep_runs_from_A_to_B :
  exists frames video,
    render_frames red2 blue2 BeforeAfter = Ok frames /\
    export_animation_video "Before/After" red2 blue2 = Ok video /\
    length frames = 101%nat /\
    option_map Image.rows (nth_error frames 0) = Some (Image.rows red2) /\
    option_map Image.rows (nth_error frames 100) = Some (Image.rows blue2) /\
    option_map Image.rows (nth_error frames 50)
      = Some [[[0; 0; 255; 255]; [255; 0; 0; 255]]] /\
    map Image.rows video = map Image.rows frames /\
    Image.rows red2 <> Image.rows blue2.
Proof.
  eexists. eexists.
  split; [vm_compute; reflexivity|].
  split; [vm_compute; reflexivity|].
  split; [reflexivity|].
  split; [vm_compute; reflexivity|].
  split; [vm_compute; reflexivity|].
  split; [vm_compute; reflexivity|].
  split; [vm_compute; reflexivity|].
  vm_compute. discriminate.
Qed.

(* ================================================================== *)
(** * Lookup tables *)
(* ================================================================== *)

Lemma nth_range_map (f : Z -> Z) (n v d : Z) :
  0 <= v < n -> nth (Z.to_nat v) (map f (range n)) d = f v.
Proof.
  intros Hv. apply nth_error_nth.
  rewrite nth_error_map, nth_error_range by lia. reflexivity.
Qed.

Lemma length_concat_repeat {A : Type} (table : list A) (n : nat) :
  length (concat (repeat table n)) = (n * length table)%nat.
Proof.
  induction n as [|n IH]; simpl.
  - reflexivity.
  - rewrite length_app, IH. reflexivity.
Qed.

(** Entry [c * 256 + v] of a table repeated once per band is entry [v]
    of the table. *)
Lemma nth_concat_repeat (table : list Z) (n c : nat) (v d : Z) :
  length table = 256%nat -> (c < n)%nat -> 0 <= v < 256 ->
  nth (Z.to_nat (Z.of_nat c * 256 + v)) (concat (repeat table n)) d
  = nth (Z.to_nat v) table d.
Proof.
  intros Hlen. revert c. induction n as [|n IH]; intros c Hc Hv; [lia|].
  simpl. destruct c as [|c].
  - simpl. rewrite app_nth1 by lia. reflexivity.
  - rewrite app_nth2 by lia. rewrite Hlen.
    replace (Z.to_nat (Z.of_nat (S c) * 256 + v) - 256)%nat
      with (Z.to_nat (Z.of_nat c * 256 + v)) by lia.
    apply IH; lia.
Qed.

Lemma lookup_bands_repeat (table : list Z) (n c : nat) (p : Image.pixel) :
  length table = 256%nat -> Forall Image.byte p -> (c + length p <= n)%nat ->
  Image.lookup_bands (concat (repeat table n)) (Z.of_nat c) p
  = map (fun v => nth (Z.to_nat v) table 0) p.
Proof.
  intros Hlen Hp. revert c. induction Hp as [|v p Hv Hp IH]; intros c Hc; simpl.
  - reflexivity.
  - simpl in Hc. rewrite nth_concat_repeat by (unfold Image.byte in Hv; lia).
    f_equal. replace (Z.of_nat c + 1) with (Z.of_nat (S c)) by lia.
    apply IH. lia.
Qed.

Lemma concat_repeat_map {A B : Type} (f : A -> B) (table : list A) (n : nat) :
  map f (concat (repeat table n)) = concat (repeat (map f table) n).
Proof.
  induction n as [|n IH]; simpl.
  - reflexivity.
  - rewrite map_app, IH. reflexivity.
Qed.

Lemma bands_nat (m : Image.Mode) : Z.of_nat (Z.to_nat (Image.bands m)) = Image.bands m.
Proof. destruct m; reflexivity. Qed.

(** A table given by a function, once per band, maps every band of
    every pixel through the function and clips the result. *)
Lemma point_table_tabulated (im : Image.t) (f : Z -> Z) :
  Image.valid im ->
  exists out,
    Image.point_table im (concat (repeat (map f (range 256))
                                         (Z.to_nat (Image.bands (Image.mode im))))) = Ok out /\
    Image.mode out = Image.mode im /\
    Image.width out = Image.width im /\
    Image.height out = Image.height im /\
    forall x y, 0 <= x < Image.width im -> 0 <= y < Image.height im ->
      Image.getpixel out x y = map (fun v => CLIP8 (f v)) (Image.getpixel im x y).
Proof.
  intros [_ [_ Hv]]. unfold Image.point_table.
  rewrite length_concat_repeat, length_map, range_length.
  replace (Z.of_nat (Z.to_nat (Image.bands (Image.mode im)) * Z.to_nat 256))
    with (256 * Image.bands (Image.mode im)) by (destruct (Image.mode im); reflexivity).
  rewrite Z.eqb_refl. eexists. split; [reflexivity|].
  cbn [Image.mode Image.width Image.height Image.getpixel].
  repeat (split; [reflexivity|]).
  intros x y Hx Hy. destruct (Hv x y Hx Hy) as [Hlen Hb].
  rewrite concat_repeat_map.
  rewrite (lookup_bands_repeat _ _ 0).
  - apply map_ext_in. intros v Hin. rewrite Forall_forall in Hb.
    rewrite map_map. apply (nth_range_map (fun i => CLIP8 (f i))).
    apply Hb in Hin. unfold Image.byte in Hin. lia.
  - rewrite !length_map, range_length. reflexivity.
  - exact Hb.
  - simpl. lia.
Qed.

(** [im.point(f)] for a function that returns integers. *)
Lemma point_int (im : Image.t) (f : Z -> Z) :
  Image.point im (fun p => Ok (PyInt (f p)))
  = Image.point_table im (concat (repeat (map f (range 256))
                                         (Z.to_nat (Image.bands (Image.mode im))))).
Proof.
  unfold Image.point. rewrite mapM_pure. cbn [bind].
  rewrite <- (map_map f PyInt), <- concat_repeat_map.
  rewrite (mapM_ext_in _ (fun n => Ok (match n with PyInt z => z | PyFloat _ => 0 end))).
  - rewrite mapM_pure, map_map. cbn [bind]. rewrite map_id. reflexivity.
  - intros n Hn. apply in_map_iff in Hn. destruct Hn as [z [Hz Hin]]. subst n. reflexivity.
Qed.

Lemma getchannel_valid (im : Image.t) (k : nat) :
  Image.valid im -> Image.valid (Image.getchannel im k).
Proof.
  intros [Hw [Hh Hv]]. split; [exact Hw|]. split; [exact Hh|].
  intros x y Hx Hy.
  cbn [Image.getchannel Image.getpixel Image.width Image.height Image.mode] in *.
  destruct (Hv x y Hx Hy) as [_ Hb]. split; [reflexivity|].
  constructor; [|constructor].
  unfold Image.band.
  destruct (nth_in_or_default k (Image.getpixel im x y) 0) as [Hin | Hd].
  - rewrite Forall_forall in Hb. apply Hb, Hin.
  - rewrite Hd. unfold Image.byte. lia.
Qed.

(** A valid RGB pixel is a red, a green and a blue byte. *)
Lemma rgb_pixel_inv (im : Image.t) (x y : Z) :
  Image.valid im -> Image.mode im = Image.RGB ->
  0 <= x < Image.width im -> 0 <= y < Image.height im ->
  exists r g b, Image.getpixel im x y = [r; g; b] /\
                Image.byte r /\ Image.byte g /\ Image.byte b.
Proof.
  intros [_ [_ Hv]] Hm Hx Hy. destruct (Hv x y Hx Hy) as [Hlen Hb].
  rewrite Hm in Hlen. cbn in Hlen.
  destruct (Image.getpixel im x y) as [|r [|g [|b [|]]]]; try (cbn in Hlen; lia).
  exists r, g, b. inversion Hb as [|? ? Hr Hb1]; subst.
  inversion Hb1 as [|? ? Hg Hb2]; subst. inversion Hb2 as [|? ? Hbb _]; subst.
  split; [reflexivity|]. split; [assumption|]. split; assumption.
Qed.

(* ================================================================== *)
(** * Solarize *)
(* ================================================================== *)


Lemma lut3 (lut : list Z) : lut ++ lut ++ lut = concat (repeat lut 3).
Proof. simpl. rewrite app_nil_r. reflexivity. Qed.

Lemma lut1 (lut : list Z) : lut = concat (repeat lut 1).
Proof. simpl. rewrite app_nil_r. reflexivity. Qed.

(** [_lut] with a table given by a function, on an RGB or L image. *)
Lemma _lut_tabulated (image : Image.t) (f : Z -> Z) :
  Image.valid image ->
  Image.mode image = Image.RGB \/ Image.mode image = Image.L ->
  exists out,
    ImageOps._lut image (map f (range 256)) = Ok out /\
    Image.mode out = Image.mode image /\
    Image.width out = Image.width image /\
    Image.height out = Image.height image /\
    forall x y, 0 <= x < Image.width image -> 0 <= y < Image.height image ->
      Image.getpixel out x y = map (fun v => CLIP8 (f v)) (Image.getpixel image x y).
Proof.
  intros Hv Hm. pose proof (point_table_tabulated image f Hv) as H.
  unfold ImageOps._lut, Image.point_list.
  destruct Hm as [Hm | Hm]; rewrite Hm in *.
  - rewrite length_map, range_length. change (Z.of_nat (Z.to_nat 256) =? 256) with true.
    cbv iota. rewrite lut3. exact H.
  - rewrite (lut1 (map f (range 256))). exact H.
Qed.

(** C5, as the code has it. On an RGB or L image the solarize filter
    replaces every band value [v] at or above the threshold by
    [255 - v] and keeps every value below it.  So threshold 0 inverts
    the entire image, and threshold 255 keeps every value below 255 and
    turns 255 into 0. *)
Theorem solarize_inverts_from_threshold (image : Image.t) (threshold : Z) :
  Image.valid image ->
  Image.mode image = Image.RGB \/ Image.mode image = Image.L ->
  exists out,
    apply_solarize image threshold = Ok out /\
    Image.mode out = Image.mode image /\
    Image.width out = Image.width image /\
    Image.height out = Image.height image /\
    forall x y, 0 <= x < Image.width image -> 0 <= y < Image.height image ->
      Image.getpixel out x y
        = map (fun v => if v <? threshold then v else 255 - v) (Image.getpixel image x y) /\
      (threshold = 0 ->
       Image.getpixel out x y = map (fun v => 255 - v) (Image.getpixel image x y)) /\
      (threshold = 255 ->
       Image.getpixel out x y
         = map (fun v => if v =? 255 then 0 else v) (Image.getpixel image x y)).
Proof.
  intros Hv Hm.
  destruct (_lut_tabulated image (fun i => if i <? threshold then i else 255 - i) Hv Hm)
    as [out [E [Hmo [Hw [Hh Hp]]]]].
  exists out. split; [exact E|]. repeat (split; [assumption|]).
  intros x y Hx Hy. rewrite (Hp x y Hx Hy).
  destruct Hv as [_ [_ Hv]]. destruct (Hv x y Hx Hy) as [_ Hb].
  rewrite Forall_forall in Hb.
  split; [|split].
  - apply map_ext_in. intros v Hin. apply Hb in Hin. unfold Image.byte in Hin.
    unfold CLIP8. case_cmp; lia.
  - intros ->. apply map_ext_in. intros v Hin. apply Hb in Hin. unfold Image.byte in Hin.
    unfold CLIP8. destruct (Z.ltb_spec v 0); [lia|].
    destruct (Z.leb_spec (255 - v) 0); [lia|].
    destruct (Z.ltb_spec (255 - v) 256); lia.
  - intros ->. apply map_ext_in. intros v Hin. apply Hb in Hin. unfold Image.byte in Hin.
    unfold CLIP8. destruct (Z.eqb_spec v 255) as [->|Hne]; [reflexivity|].
    destruct (Z.ltb_spec v 255); [|lia].
    destruct (Z.leb_spec v 0); [lia|].
    destruct (Z.ltb_spec v 256); lia.
Qed.

Lemma leaf1_valid : Image.valid leaf1.
Proof.
  split; [cbn; lia|]. split; [cbn; lia|]. intros x y _ _. split; [reflexivity|].
  repeat constructor; unfold Image.byte; lia.
Qed.

Lemma white1_valid : Image.valid white1.
Proof.
  split; [cbn; lia|]. split; [cbn; lia|]. intros x y _ _. split; [reflexivity|].
  repeat constructor; unfold Image.byte; lia.
Qed.

Lemma solarize_inverts_from_threshold_witness :
  exists out,
    apply_solarize leaf1 128 = Ok out /\
    Image.mode out = Image.RGB /\ Image.width out = 1 /\ Image.height out = 1 /\
    forall x y, 0 <= x < 1 -> 0 <= y < 1 ->
      Image.getpixel out x y
        = map (fun v => if v <? 128 then v else 255 - v) (Image.getpixel leaf1 x y) /\
      (128 = 0 ->
       Image.getpixel out x y = map (fun v => 255 - v) (Image.getpixel leaf1 x y)) /\
      (128 = 255 ->
       Image.getpixel out x y
         = map (fun v => if v =? 255 then 0 else v) (Image.getpixel leaf1 x y)).
Proof.
  exact (solarize_inverts_from_threshold leaf1 128 leaf1_valid (or_introl eq_refl)).
Defined.

Example solarize_leaf_128 : rows_of (apply_solarize leaf1 128) = Ok [[[10; 55; 30]]].
Proof. vm_compute. reflexivity. Qed.

(** C5, the counterexample: solarize with threshold 255 turns the white
    pixel (255, 255, 255) into the black pixel (0, 0, 0), so it is not a
    no-op. *)
Lemma solarize_255_changes_white :
  exists out,
    apply_solarize white1 255 = Ok out /\
    Image.rows out = [[[0; 0; 0]]] /\
    Image.rows white1 = [[[255; 255; 255]]] /\
    ~ Image.same out white1.
Proof.
  eexists. split; [vm_compute; reflexivity|].
  split; [vm_compute; reflexivity|]. split; [reflexivity|].
  intros [_ [_ [_ H]]].
  specialize (H 0 0 ltac:(cbn; lia) ltac:(cbn; lia)).
  vm_compute in H. discriminate H.
Qed.

(* ================================================================== *)
(** * Temperature *)
(* ================================================================== *)

Lemma split_RGB (im : Image.t) :
  Image.mode im = Image.RGB ->
  Image.split im = [Image.getchannel im 0; Image.getchannel im 1; Image.getchannel im 2].
Proof. intros H. unfold Image.split. rewrite H. reflexivity. Qed.

(** What the temperature adjustment does to every pixel of an RGB
    image. *)
Lemma temperature_stage_pixels (slider : Z) (image : Image.t) :
  Image.valid image ->
  Image.mode image = Image.RGB ->
  exists out,
    temperature_stage slider image = Ok out /\
    Image.mode out = Image.RGB /\
    Image.width out = Image.width image /\
    Image.height out = Image.height image /\
    forall x y, 0 <= x < Image.width image -> 0 <= y < Image.height image ->
      exists r g b,
        Image.getpixel image x y = [r; g; b] /\
        Image.getpixel out x y
          = [if 50 <? slider then CLIP8 (r + (slider - 50)) else r;
             g;
             if slider <? 50 then CLIP8 (b - (slider - 50)) else b].
Proof.
  intros Hv Hm. unfold temperature_stage. rewrite (split_RGB image Hm). cbv zeta.
  destruct (Z.ltb_spec 0 (slider - 50)) as [Hpos | Hneg].
  - rewrite point_int.
    destruct (point_table_tabulated (Image.getchannel image 0)
                (fun p => Z.min 255 (p + (slider - 50)))
                (getchannel_valid image 0 Hv)) as [r' [E [Hmr [Hwr [Hhr Hpr]]]]].
    rewrite E. cbn [bind fst snd]. unfold Image.merge.
    cbn [length Z.of_nat Pos.of_succ_nat Pos.succ Image.bands Z.eqb Pos.eqb negb forallb
           Image.getchannel Image.mode Image.width Image.height Image.Mode_eqb andb].
    rewrite !Hwr, !Hhr. cbn [Image.getchannel Image.mode Image.width Image.height].
    rewrite !Z.eqb_refl. cbn [andb].
    eexists. split; [reflexivity|]. cbn [Image.mode Image.width Image.height Image.getpixel].
    repeat (split; [first [reflexivity | assumption]|]).
    intros x y Hx Hy.
    destruct (rgb_pixel_inv image x y Hv Hm Hx Hy) as [r [g [b [Hp [Hr [Hg Hb]]]]]].
    exists r, g, b. split; [exact Hp|].
    cbn [map]. rewrite Hpr by assumption.
    cbn [Image.getchannel Image.getpixel]. rewrite Hp. cbn [Image.band nth map].
    destruct (Z.ltb_spec 50 slider); [|lia].
    destruct (Z.ltb_spec slider 50); [lia|].
    f_equal. unfold CLIP8, Image.byte in *. case_cmp; lia.
  - rewrite point_int.
    destruct (point_table_tabulated (Image.getchannel image 2)
                (fun p => Z.min 255 (p - (slider - 50)))
                (getchannel_valid image 2 Hv)) as [b' [E [Hmb [Hwb [Hhb Hpb]]]]].
    rewrite E. cbn [bind fst snd]. unfold Image.merge.
    cbn [length Z.of_nat Pos.of_succ_nat Pos.succ Image.bands Z.eqb Pos.eqb negb forallb
           Image.getchannel Image.mode Image.width Image.height Image.Mode_eqb andb].
    rewrite Hmb, !Hwb, !Hhb. cbn [Image.getchannel Image.mode Image.width Image.height Image.Mode_eqb].
    rewrite !Z.eqb_refl. cbn [andb].
    eexists. split; [reflexivity|]. cbn [Image.mode Image.width Image.height Image.getpixel].
    repeat (split; [first [reflexivity | assumption]|]).
    intros x y Hx Hy.
    destruct (rgb_pixel_inv image x y Hv Hm Hx Hy) as [r [g [b [Hp [Hr [Hg Hb]]]]]].
    exists r, g, b. split; [exact Hp|].
    cbn [map]. rewrite Hpb by assumption.
    cbn [Image.getchannel Image.getpixel]. rewrite Hp. cbn [Image.band nth map].
    destruct (Z.ltb_spec 50 slider); [lia|].
    f_equal. f_equal. f_equal. unfold CLIP8, Image.byte in *. case_cmp; lia.
Qed.



(** Ten steps below 50 raise blue by ten; ten steps above raise red. *)
Example temperature_leaf_40 : rows_of (temperature_stage 40 leaf1) = Ok [[[10; 200; 40]]].
Proof. vm_compute. reflexivity. Qed.

Example temperature_leaf_60 : rows_of (temperature_stage 60 leaf1) = Ok [[[20; 200; 30]]].
Proof. vm_compute. reflexivity. Qed.

(* ================================================================== *)
(** * The reset of the controls *)
(* ================================================================== *)

Lemma dict_get_reset_sliders (d : list (string * Qt.QSlider)) (key : string) :
  dict_get (reset_sliders d) key = (s <- dict_get d key ;; Ok (reset_slider key s)).
Proof.
  induction d as [|[k s] d IH]; simpl.
  - reflexivity.
  - destruct (String.eqb_spec k key) as [->|Hne].
    + reflexivity.
    + exact IH.
Qed.

Lemma dict_get_reset_filters (d : list (string * bool)) (key : string) :
  dict_get (reset_filters d) key = (_ <- dict_get d key ;; Ok false).
Proof.
  induction d as [|[k c] d IH]; simpl.
  - reflexivity.
  - destruct (String.eqb k key).
    + reflexivity.
    + exact IH.
Qed.

Lemma sliders_reset_controls (self : WorkspacePage) (loaded : Image.t) :
  sliders (reset_controls self loaded) = reset_sliders (sliders self).
Proof. unfold reset_controls. destruct (reset_dropdowns _ _). reflexivity. Qed.

Lemma filters_reset_controls (self : WorkspacePage) (loaded : Image.t) :
  filters_enabled (reset_controls self loaded) = reset_filters (filters_enabled self).
Proof. unfold reset_controls. destruct (reset_dropdowns _ _). reflexivity. Qed.


Lemma slider_value_after_reset (self : WorkspacePage) (loaded : Image.t) (key : string)
    (s : Qt.QSlider) :
  dict_get (sliders self) key = Ok s ->
  Qt.minimum s <= value_set_by_reset key <= Qt.maximum s ->
  slider_value (reset_controls self loaded) key = Ok (value_set_by_reset key).
Proof.
  intros Hs Hr. unfold slider_value.
  rewrite sliders_reset_controls, dict_get_reset_sliders, Hs. cbn [bind].
  f_equal. revert Hr. unfold value_set_by_reset, reset_slider.
  repeat match goal with
         | |- context [if ?c then _ else _] => destruct c
         end; cbn [Qt.setValue Qt.value Qt.minimum Qt.maximum]; lia.
Qed.

(** Every check box is cleared. *)
Lemma filters_cleared_by_reset (self : WorkspacePage) (loaded : Image.t) (key : string)
    (c : bool) :
  dict_get (filters_enabled self) key = Ok c ->
  isChecked (reset_controls self loaded) key = Ok false.
Proof.
  intros Hc. unfold isChecked.
  rewrite filters_reset_controls, dict_get_reset_filters, Hc. reflexivity.
Qed.


(** What the reset leaves, for every page with the sliders of [initUI]
    whatever their values: every slider has the value [initUI] gave it
    except the noise slider, which has 10; every check box is cleared
    and every dropdown shows its first item. *)
Theorem reset_controls_values (self : WorkspacePage) (loaded : Image.t) :
  map fst (sliders self) = map fst initUI_sliders ->
  map (fun kv => (Qt.minimum (snd kv), Qt.maximum (snd kv))) (sliders self)
  = map (fun kv => (Qt.minimum (snd kv), Qt.maximum (snd kv))) initUI_sliders ->
  slider_values (reset_controls self loaded)
  = [("Transition", 100); ("Blur", 50); ("Posterize", 1); ("Solarize", 0); ("Noise", 10);
     ("Tint", 30); ("Paper Texture", 0); ("Exposure", 50); ("Gamma", 50);
     ("Brightness", 50); ("Contrast", 50); ("Saturation", 50); ("Hue", 50);
     ("Temperature", 50); ("Sharpness", 50)]%string /\
  map snd (filters_enabled (reset_controls self loaded))
  = map (fun _ => false) (filters_enabled self) /\
  map (fun kv => Qt.currentIndex (snd kv)) (dropdowns (reset_controls self loaded))
  = map (fun _ => 0%nat) (dropdowns self).
Proof.
  intros Hkeys Hranges. split; [|split].
  - unfold slider_values. rewrite sliders_reset_controls.
    destruct self as [sl fe dd tc bi oi tp]. cbn [sliders] in *.
    repeat (destruct sl as [|[? [? ? ?]] sl]; [discriminate Hkeys|]).
    destruct sl; [|discriminate Hkeys].
    cbn [map fst snd Qt.minimum Qt.maximum initUI_sliders Qt.newSlider Qt.setValue]
      in Hkeys, Hranges.
    injection Hkeys as -> -> -> -> -> -> -> -> -> -> -> -> -> -> ->.
    injection Hranges
      as -> -> -> -> -> -> -> -> -> -> -> -> -> -> -> -> -> -> -> -> -> -> -> -> -> -> -> -> -> ->.
    reflexivity.
  - rewrite filters_reset_controls. unfold reset_filters. rewrite !map_map. reflexivity.
  - unfold reset_controls.
    assert (H : forall d t, map (fun kv => Qt.currentIndex (snd kv)) (fst (reset_dropdowns d t))
                            = map (fun _ => 0%nat) d).
    { induction d as [|[k v] d IH]; intros t; simpl.
      - reflexivity.
      - specialize (IH (Some (Qt.fromName (Qt.itemData (Qt.setCurrentIndex v 0) 0)))).
        destruct (reset_dropdowns d _). simpl in *. rewrite IH. reflexivity. }
    specialize (H (dropdowns self) (tint_color self)).
    destruct (reset_dropdowns _ _). exact H.
Qed.

(** C4, on the code. [initUI] creates the noise slider with the default
    5; a change of style resets it to 10, from its default as from any
    other value.  The other sliders go back to the values [initUI] gave
    them and the check boxes are cleared. *)
Theorem reset_sets_noise_to_10 :
  slider_value (page_of grey1 leaf1) "Noise" = Ok 5 /\
  slider_value (reset_controls (page_of grey1 leaf1) leaf1) "Noise" = Ok 10 /\
  slider_value (reset_controls (move_slider (page_of grey1 leaf1) "Noise" 37) leaf1) "Noise"
  = Ok 10 /\
  slider_values (reset_controls (tick (move_slider (page_of grey1 leaf1) "Hue" 80) "Sepia")
                                leaf1)
  = [("Transition", 100); ("Blur", 50); ("Posterize", 1); ("Solarize", 0); ("Noise", 10);
     ("Tint", 30); ("Paper Texture", 0); ("Exposure", 50); ("Gamma", 50);
     ("Brightness", 50); ("Contrast", 50); ("Saturation", 50); ("Hue", 50);
     ("Temperature", 50); ("Sharpness", 50)]%string /\
  map snd (filters_enabled
             (reset_controls (tick (move_slider (page_of grey1 leaf1) "Hue" 80) "Sepia") leaf1))
  = [false; false; false; false; false; false; false; false; false; false].
Proof. repeat split; reflexivity. Qed.

(* ================================================================== *)
(** * Frames *)
(* ================================================================== *)

Lemma named_frame_inv (frame_style : string) :
  named_frame frame_style = true ->
  frame_style = "Black"%string \/ frame_style = "White"%string \/
  frame_style = "Gold"%string \/ frame_style = "Metallic"%string.
Proof.
  unfold named_frame. intros H.
  destruct (String.eqb_spec frame_style "Black"); [tauto|].
  destruct (String.eqb_spec frame_style "White"); [tauto|].
  destruct (String.eqb_spec frame_style "Gold"); [tauto|].
  destruct (String.eqb_spec frame_style "Metallic"); [tauto|].
  discriminate H.
Qed.


Example frame_rgb_named :
  frame_rgb "Black" = [0; 0; 0] /\ frame_rgb "White" = [255; 255; 255] /\
  frame_rgb "Gold" = [255; 215; 0] /\ frame_rgb "Metallic" = [192; 192; 192].
Proof. repeat split; reflexivity. Qed.

(** C10. For every RGB image, whatever its size, a named frame
    completes and returns an RGB image of 800 by 800 pixels.  Its
    border, 20 pixels wide, has the frame colour.  The inner 760 by 760
    pixels show the image centred: pixel (x, y) of the canvas is the
    pixel of the image at [(x - 20 + left, y - 20 + top)], with
    [left = (width - 760) // 2] and [top = (height - 760) // 2], and is
    black, (0, 0, 0), where that position lies outside the image; black
    is not the frame colour of the white, gold and metallic frames. *)
Theorem frame_canvas (image : Image.t) (frame_style : string) :
  Image.valid image ->
  Image.mode image = Image.RGB ->
  named_frame frame_style = true ->
  exists out,
    apply_basic_frame image frame_style = Ok out /\
    Image.mode out = Image.RGB /\
    Image.width out = 800 /\
    Image.height out = 800 /\
    (forall x y, 0 <= x < 800 -> 0 <= y < 800 ->
       Image.getpixel out x y =
         if (20 <=? x) && (x <? 780) && (20 <=? y) && (y <? 780)
         then
           let sx := x - 20 + (Image.width image - 760) / 2 in
           let sy := y - 20 + (Image.height image - 760) / 2 in
           if Image.inside image sx sy then Image.getpixel image sx sy else [0; 0; 0]
         else frame_rgb frame_style) /\
    (frame_style <> "Black"%string -> frame_rgb frame_style <> [0; 0; 0]).
Proof.
  intros Hv Hm Hnamed.
  assert (Hpaste : forall color,
    getrgb (frame_color_value frame_style) = Ok color ->
    exists out,
      apply_basic_frame image frame_style = Ok out /\
      Image.mode out = Image.RGB /\ Image.width out = 800 /\ Image.height out = 800 /\
      forall x y, 0 <= x < 800 -> 0 <= y < 800 ->
        Image.getpixel out x y =
          if (20 <=? x) && (x <? 780) && (20 <=? y) && (y <? 780)
          then
            let sx := x - 20 + (Image.width image - 760) / 2 in
            let sy := y - 20 + (Image.height image - 760) / 2 in
            if Image.inside image sx sy then Image.getpixel image sx sy else [0; 0; 0]
          else rgb_pixel color).
  { intros color Hc. unfold apply_basic_frame, frame_width, canvas_size.
    cbv zeta. cbn [fst snd]. change (800 - 2 * 20) with 760.
    unfold Image.crop.
    destruct (Z.ltb_spec ((Image.width image - 760) / 2 + 760) ((Image.width image - 760) / 2));
      [lia|].
    destruct (Z.ltb_spec ((Image.height image - 760) / 2 + 760) ((Image.height image - 760) / 2));
      [lia|].
    cbn [bind]. rewrite Hc. cbn [bind]. unfold Image.paste.
    cbn [Image.new Image.mode Image.width Image.height fst snd].
    rewrite Hm. cbn [Image.Mode_eqb bind Image.bands Image.width Image.height].
    eexists. split; [reflexivity|].
    cbn [Image.mode Image.width Image.height Image.getpixel].
    repeat (split; [reflexivity|]).
    intros x y Hx Hy.
    replace ((Image.width image - 760) / 2 + 760 - (Image.width image - 760) / 2)
      with 760 by lia.
    replace ((Image.height image - 760) / 2 + 760 - (Image.height image - 760) / 2)
      with 760 by lia.
    change (20 + 760) with 780.
    destruct ((20 <=? x) && (x <? 780) && (20 <=? y) && (y <? 780)) eqn:Hin.
    - cbv zeta.
      destruct (Image.inside image (x - 20 + (Image.width image - 760) / 2)
                  (y - 20 + (Image.height image - 760) / 2)) eqn:Hins.
      + change (Z.to_nat 3) with 3%nat.
        unfold Image.inside in Hins.
        apply andb_prop in Hins. destruct Hins as [Hins H4].
        apply andb_prop in Hins. destruct Hins as [Hins H3].
        apply andb_prop in Hins. destruct Hins as [H1 H2].
        destruct (rgb_pixel_inv image (x - 20 + (Image.width image - 760) / 2)
                    (y - 20 + (Image.height image - 760) / 2) Hv Hm)
          as [r [g [b [Hp _]]]]; [lia | lia |].
        rewrite Hp. reflexivity.
      + reflexivity.
    - reflexivity. }
  destruct (named_frame_inv frame_style Hnamed) as [-> | [-> | [-> | ->]]].
  - destruct (Hpaste (0, 0, 0) eq_refl) as [out [E [H1 [H2 [H3 H4]]]]].
    exists out. repeat (split; [assumption|]). intros H. contradiction H. reflexivity.
  - destruct (Hpaste (255, 255, 255) eq_refl) as [out [E [H1 [H2 [H3 H4]]]]].
    exists out. repeat (split; [assumption|]). intros _. discriminate.
  - destruct (Hpaste (255, 215, 0) eq_refl) as [out [E [H1 [H2 [H3 H4]]]]].
    exists out. repeat (split; [assumption|]). intros _. discriminate.
  - destruct (Hpaste (192, 192, 192) eq_refl) as [out [E [H1 [H2 [H3 H4]]]]].
    exists out. repeat (split; [assumption|]). intros _. discriminate.
Qed.

Lemma frame_canvas_witness :
  exists out,
    apply_basic_frame leaf1 "White" = Ok out /\
    Image.mode out = Image.RGB /\
    Image.width out = 800 /\
    Image.height out = 800 /\
    (forall x y, 0 <= x < 800 -> 0 <= y < 800 ->
       Image.getpixel out x y =
         if (20 <=? x) && (x <? 780) && (20 <=? y) && (y <? 780)
         then
           let sx := x - 20 + (Image.width leaf1 - 760) / 2 in
           let sy := y - 20 + (Image.height leaf1 - 760) / 2 in
           if Image.inside leaf1 sx sy then Image.getpixel leaf1 sx sy else [0; 0; 0]
         else frame_rgb "White") /\
    ("White"%string <> "Black"%string -> frame_rgb "White" <> [0; 0; 0]).
Proof. exact (frame_canvas leaf1 "White" leaf1_valid eq_refl eq_refl). Defined.

(** A one-pixel image in the white frame: the border is white, the
    pixel sits at (400, 400), and the rest of the inner area is black. *)
Example frame_leaf_white :
  match apply_basic_frame leaf1 "White" with
  | Ok out =>
      [Image.getpixel out 0 0; Image.getpixel out 19 400; Image.getpixel out 20 20;
       Image.getpixel out 400 400; Image.getpixel out 401 400; Image.getpixel out 779 779;
       Image.getpixel out 780 780]
  | Raise _ => []
  end
  = [[255; 255; 255]; [255; 255; 255]; [0; 0; 0]; [10; 200; 30]; [0; 0; 0]; [0; 0; 0];
     [255; 255; 255]].
Proof. vm_compute. reflexivity. Qed.

(** [apply_frame] applies the frame the dropdown shows when it is a
    named one, and returns the image as it is otherwise. *)
Lemma apply_frame_named (self : WorkspacePage) (image : Image.t) (dd : Qt.QComboBox) :
  dict_get (dropdowns self) "Frame" = Ok dd ->
  apply_frame self image
  = if named_frame (Qt.currentText dd) then apply_basic_frame image (Qt.currentText dd)
    else Ok image.
Proof. intros H. unfold apply_frame. rewrite H. reflexivity. Qed.

(* ================================================================== *)
(** * Gamma *)
(* ================================================================== *)

Lemma mapM_not_raise {A B : Type} (f : A -> result B) (l : list A) (e : exn) :
  (forall a, In a l -> f a <> Raise e) -> mapM f l <> Raise e.
Proof.
  induction l as [|a l IH]; intros H; simpl.
  - discriminate.
  - destruct (f a) as [b|e'] eqn:Ea.
    + cbn [bind]. destruct (mapM f l) as [bs|e''] eqn:El.
      * discriminate.
      * cbn [bind]. intros Heq. apply IH.
        -- intros a0 Ha0. apply H. right. exact Ha0.
        -- exact Heq.
    + cbn [bind]. intros Heq. apply (H a (or_introl eq_refl)). rewrite Ea.
      injection Heq as ->. reflexivity.
Qed.

Lemma mapM_length {A B : Type} (f : A -> result B) (l : list A) (bs : list B) :
  mapM f l = Ok bs -> length bs = length l.
Proof.
  revert bs. induction l as [|a l IH]; intros bs H; simpl in H.
  - injection H as <-. reflexivity.
  - destruct (f a) as [b|]; [|discriminate]. cbn [bind] in H.
    destruct (mapM f l) as [bs'|]; [|discriminate]. cbn [bind] in H.
    injection H as <-. simpl. f_equal. apply IH. reflexivity.
Qed.


Lemma gamma_checked_all (slider : Z) : 0 <= slider <= 100 -> gamma_checked slider = true.
Proof.
  intros H.
  assert (E : forallb gamma_checked (range 101) = true) by (vm_cast_no_check (eq_refl true)).
  apply (forallb_range _ 101 slider E). lia.
Qed.

Example gamma_value_0 : gamma_value 0 = Ok (Py.lit 1 10).
Proof. reflexivity. Qed.

Example inv_gamma_0 : Py.truediv (Py.of_int 1) (Py.lit 1 10) = Ok (Py.of_int 10).
Proof. vm_compute. reflexivity. Qed.

Section Gamma.

Variable float_pow : Py.float -> Py.float -> Py.float.



Lemma gamma_table (inv_gamma : Py.float) :
  Float.is_neg inv_gamma = false ->
  mapM (gamma_lut float_pow inv_gamma) (range 256)
  = Ok (map (fun p => PyFloat (gamma_entry float_pow inv_gamma p)) (range 256)).
Proof.
  intros Hneg. rewrite <- mapM_pure. apply mapM_ext_in. intros p _.
  unfold gamma_lut, py_pow. change (Py.truediv (Py.of_int p) (Py.of_int 255))
    with (Ok (SFdiv Py.prec Py.emax (Py.of_int p) (Py.of_int 255))).
  cbn [bind]. rewrite Hneg, andb_false_r. reflexivity.
Qed.

Lemma round_not_zero_division (n : pynum) : py_round n <> Raise ZeroDivisionError.
Proof.
  destruct n as [z|f]; [discriminate|]. unfold py_round, Py.round.
  destruct (Float.round_half_even f); [discriminate|].
  destruct f; discriminate.
Qed.

Lemma round_finite (f : Py.float) :
  Float.is_finite f = true -> exists z, py_round (PyFloat f) = Ok z.
Proof.
  intros H. unfold py_round, Py.round.
  destruct f; try discriminate H; eexists; reflexivity.
Qed.

(** C9. For every image and every value 0..100 of the gamma slider, 0
    included, the effective gamma value is at least 0.1, its reciprocal
    is taken without error, and the gamma stage does not raise
    [ZeroDivisionError]; the stage completes, the entries of its table
    being numbers. *)
Theorem gamma_never_divides_by_zero (slider : Z) (image : Image.t) :
  0 <= slider <= 100 ->
  exists gamma inv_gamma,
    gamma_value slider = Ok gamma /\
    SFleb (Py.lit 1 10) gamma = true /\
    Py.truediv (Py.of_int 1) gamma = Ok inv_gamma /\
    gamma_stage float_pow slider image <> Raise ZeroDivisionError /\
    (table_is_finite float_pow inv_gamma -> completes (gamma_stage float_pow slider image)).
Proof.
  intros Hs. pose proof (gamma_checked_all slider Hs) as Hc.
  unfold gamma_checked in Hc. unfold gamma_stage.
  destruct (gamma_value slider) as [gamma|] eqn:Eg; [|discriminate Hc].
  apply andb_prop in Hc. destruct Hc as [Hc Hinv].
  apply andb_prop in Hc. destruct Hc as [Hge Hnz].
  destruct (Py.truediv (Py.of_int 1) gamma) as [inv_gamma|] eqn:Ei; [|discriminate Hinv].
  apply negb_true_iff in Hinv.
  exists gamma, inv_gamma. split; [reflexivity|]. split; [exact Hge|]. split; [exact Ei|].
  cbn [bind]. rewrite Ei. cbn [bind]. unfold Image.point. rewrite (gamma_table inv_gamma Hinv). cbn [bind].
  split.
  - destruct (mapM py_round _) as [flat|e] eqn:Ef.
    + cbn [bind]. unfold Image.point_table. destruct (_ =? _); discriminate.
    + cbn [bind]. intros Heq. injection Heq as ->. revert Ef. apply mapM_not_raise.
      intros n _. apply round_not_zero_division.
  - intros Hfin.
    destruct (mapM_nth py_round
                (concat (repeat (map (fun p => PyFloat (gamma_entry float_pow inv_gamma p)) (range 256))
                           (Z.to_nat (Image.bands (Image.mode image))))))
      as [flat [Ef [Hlen _]]].
    { intros n Hn. apply in_concat in Hn. destruct Hn as [table [Ht Hn]].
      apply repeat_spec in Ht. subst table.
      apply in_map_iff in Hn. destruct Hn as [p [Hp Hin]]. subst n.
      apply round_finite, Hfin. apply In_range in Hin. lia. }
    rewrite Ef. cbn [bind]. unfold Image.point_table.
    rewrite Hlen, length_concat_repeat, length_map, range_length.
    replace (Z.of_nat (Z.to_nat (Image.bands (Image.mode image)) * Z.to_nat 256))
      with (256 * Image.bands (Image.mode image)) by (destruct (Image.mode image); reflexivity).
    rewrite Z.eqb_refl. eexists. reflexivity.
Qed.

End Gamma.

(** With the gamma slider at 0 the effective gamma is 0.1 and the
    exponent of the table 10. *)
Lemma gamma_never_divides_by_zero_witness :
  exists gamma inv_gamma,
    gamma_value 0 = Ok gamma /\
    SFleb (Py.lit 1 10) gamma = true /\
    Py.truediv (Py.of_int 1) gamma = Ok inv_gamma /\
    gamma_stage (fun x _ => x) 0 leaf1 <> Raise ZeroDivisionError /\
    (table_is_finite (fun x _ => x) inv_gamma ->
     completes (gamma_stage (fun x _ => x) 0 leaf1)).
Proof.
  apply (gamma_never_divides_by_zero (fun x _ => x) 0 leaf1). lia.
Defined.

(* ================================================================== *)
(** * Floating-point results that stay in range *)
(* ================================================================== *)

Lemma digits2_pos_size (p : positive) : digits2_pos p = Pos.size p.
Proof. induction p; cbn; congruence. Qed.

Lemma Zdigits2_log2 (m : Z) : 0 < m -> Zdigits2 m = Z.log2 m + 1.
Proof.
  destruct m as [|p|p]; try lia. intros _. cbn [Zdigits2].
  rewrite digits2_pos_size. destruct p; cbn [Z.log2 Pos.size]; lia.
Qed.

Lemma Zdigits2_nonneg (m : Z) : 0 <= Zdigits2 m.
Proof. destruct m; cbn; lia. Qed.

Lemma Zdigits2_pos (m : Z) : 0 < m -> 0 < Zdigits2 m.
Proof. destruct m; cbn; lia. Qed.

Lemma Zdigits2_mono (a b : Z) : 0 <= a <= b -> Zdigits2 a <= Zdigits2 b.
Proof.
  intros H. destruct (Z.eq_dec a 0) as [->|Ha].
  - apply Zdigits2_nonneg.
  - rewrite !Zdigits2_log2 by lia. pose proof (Z.log2_le_mono a b). lia.
Qed.

Lemma Zdigits2_succ (m : Z) : 0 <= m -> Zdigits2 (m + 1) <= Zdigits2 m + 1.
Proof.
  intros H. destruct (Z.eq_dec m 0) as [->|Hm]; [cbn; lia|].
  rewrite !Zdigits2_log2 by lia. pose proof (Z.log2_succ_le m). unfold Z.succ in *. lia.
Qed.

Lemma Zdigits2_lower (m : Z) : 0 < m -> 2 ^ (Zdigits2 m - 1) <= m.
Proof.
  intros H. rewrite Zdigits2_log2 by lia.
  replace (Z.log2 m + 1 - 1) with (Z.log2 m) by lia. apply Z.log2_spec, H.
Qed.

Lemma Zdigits2_below (m k : Z) : 0 <= m -> 0 <= k -> m < 2 ^ k -> Zdigits2 m <= k.
Proof.
  intros Hm Hk H. destruct (Z.eq_dec m 0) as [->|Hn]; [cbn; lia|].
  rewrite Zdigits2_log2 by lia. apply Z.log2_lt_pow2 in H; lia.
Qed.

Lemma Zdigits2_upper (m : Z) : 0 <= m -> m < 2 ^ Zdigits2 m.
Proof.
  intros H. destruct (Z.eq_dec m 0) as [->|Hn]; [cbn; lia|].
  rewrite Zdigits2_log2 by lia. apply Z.log2_spec. lia.
Qed.

(** Dropping [n] low bits drops [n] digits. *)
Lemma Zdigits2_div_pow2 (m n : Z) :
  0 <= m -> 0 < n -> 0 < m / 2 ^ n -> Zdigits2 (m / 2 ^ n) = Zdigits2 m - n.
Proof.
  intros Hm Hn Hq.
  assert (0 < m).
  { destruct (Z.eq_dec m 0) as [->|]; [|lia]. rewrite Z.div_0_l in Hq; lia. }
  rewrite !Zdigits2_log2 by lia.
  rewrite <- Z.shiftr_div_pow2 in * by lia.
  rewrite Z.log2_shiftr by lia.
  assert (n <= Z.log2 m); [|lia].
  destruct (Z.le_gt_cases n (Z.log2 m)) as [Hle|Hgt]; [exact Hle|].
  rewrite Z.shiftr_eq_0 in Hq; lia.
Qed.

Lemma div_pow2_pos (m n : Z) : 0 < m -> 0 <= n -> n <= Zdigits2 m - 1 -> 0 < m / 2 ^ n.
Proof.
  intros Hm Hn Hd. apply Z.div_str_pos. split; [apply Z.pow_pos_nonneg; lia|].
  transitivity (2 ^ (Zdigits2 m - 1)); [apply Z.pow_le_mono_r; lia|apply Zdigits2_lower, Hm].
Qed.

Lemma shr_1_m (mrs : shr_record) : 0 <= shr_m mrs -> shr_m (shr_1 mrs) = shr_m mrs / 2.
Proof.
  destruct mrs as [m r s]. cbn [shr_m]. intros H.
  destruct m as [|p|p]; [reflexivity| |lia].
  destruct p; cbn [shr_1 shr_m].
  - rewrite (Pos2Z.inj_xI p). apply (Z.div_unique _ 2 _ 1); lia.
  - rewrite (Pos2Z.inj_xO p). apply (Z.div_unique _ 2 _ 0); lia.
  - reflexivity.
Qed.

Lemma shr_iter_m (p : positive) (mrs : shr_record) :
  0 <= shr_m mrs -> shr_m (iter_pos shr_1 p mrs) = shr_m mrs / 2 ^ Zpos p.
Proof.
  revert mrs. induction p as [p IH|p IH|]; intros mrs H; cbn [iter_pos].
  - assert (H1 : 0 <= shr_m (shr_1 mrs)) by (rewrite shr_1_m by exact H; apply Z.div_pos; lia).
    assert (H2 : 0 <= shr_m (iter_pos shr_1 p (shr_1 mrs)))
      by (rewrite IH by exact H1; apply Z.div_pos; [exact H1|apply Z.pow_pos_nonneg; lia]).
    rewrite IH by exact H2. rewrite IH by exact H1. rewrite shr_1_m by exact H.
    rewrite !Z.div_div by (try apply Z.pow_pos_nonneg; lia).
    f_equal. rewrite (Pos2Z.inj_xI p).
    replace (2 * Zpos p + 1) with (1 + Zpos p + Zpos p) by lia.
    rewrite !Z.pow_add_r by lia. lia.
  - assert (H2 : 0 <= shr_m (iter_pos shr_1 p mrs))
      by (rewrite IH by exact H; apply Z.div_pos; [exact H|apply Z.pow_pos_nonneg; lia]).
    rewrite IH by exact H2. rewrite IH by exact H.
    rewrite !Z.div_div by (try apply Z.pow_pos_nonneg; lia).
    f_equal. rewrite (Pos2Z.inj_xO p).
    replace (2 * Zpos p) with (Zpos p + Zpos p) by lia.
    rewrite !Z.pow_add_r by lia. lia.
  - rewrite shr_1_m by exact H. reflexivity.
Qed.

Lemma shr_m_of_loc (m : Z) (l : location) : shr_m (shr_record_of_loc m l) = m.
Proof. destruct l as [|[| |]]; reflexivity. Qed.

Section Rounding.
Variables prec emax : Z.
Hypothesis prec_pos : 0 < prec.
Hypothesis prec_lt_emax : prec < emax.

(** [shr_fexp] drops the bits below the exponent of the format. *)
Lemma shr_fexp_spec (m e : Z) (l : location) :
  0 <= m ->
  exists mrs e',
    shr_fexp prec emax m e l = (mrs, e') /\
    e' = Z.max e (fexp prec emax (Zdigits2 m + e)) /\
    0 <= shr_m mrs <= m /\
    (0 < shr_m mrs -> Zdigits2 (shr_m mrs) + e' = Zdigits2 m + e) /\
    (0 < m -> emin prec emax + prec <= Zdigits2 m + e -> 0 < shr_m mrs).
Proof.
  intros Hm. unfold shr_fexp, shr.
  set (n := fexp prec emax (Zdigits2 m + e) - e).
  assert (Hn : fexp prec emax (Zdigits2 m + e) = e + n) by (unfold n; lia).
  destruct n as [|p|p] eqn:En.
  - eexists _, _. split; [reflexivity|]. rewrite shr_m_of_loc. repeat split; lia.
  - eexists _, _. split; [reflexivity|].
    rewrite shr_iter_m by (rewrite shr_m_of_loc; exact Hm). rewrite shr_m_of_loc.
    assert (Hpow : 0 < 2 ^ Zpos p) by (apply Z.pow_pos_nonneg; lia).
    split; [lia|]. split; [|split].
    + split; [apply Z.div_pos; lia|]. apply Z.div_le_upper_bound; [lia|]. nia.
    + intros Hq. rewrite Zdigits2_div_pow2 by lia. lia.
    + intros Hpos Hnormal. apply div_pow2_pos; [exact Hpos|lia|].
      unfold fexp in Hn. lia.
  - eexists _, _. split; [reflexivity|]. rewrite shr_m_of_loc. repeat split; lia.
Qed.

Lemma round_nearest_even_range (m : Z) (l : location) :
  m <= round_nearest_even m l <= m + 1.
Proof.
  unfold round_nearest_even. destruct l as [|[| |]]; try lia.
  destruct (Z.even m); lia.
Qed.

(** Rounding keeps a number in range: the exponent does not go down,
    the magnitude gains at most one bit. *)
Lemma binary_round_aux_ranged (s : bool) (m e : Z) (l : location) (lo K : Z) :
  0 <= m -> lo <= e -> e <= emax - prec ->
  Zdigits2 m + e <= K -> emin prec emax <= K -> K < emax ->
  Float.ranged lo (K + 1) (binary_round_aux prec emax s m e l).
Proof.
  intros Hm Hlo He HK Hmin Hmax. unfold binary_round_aux.
  destruct (shr_fexp_spec m e l Hm) as [mrs1 [e1 [E1 [He1 [Hm1 [Hd1 _]]]]]].
  rewrite E1.
  set (m2 := round_nearest_even (shr_m mrs1) (loc_of_shr_record mrs1)).
  pose proof (round_nearest_even_range (shr_m mrs1) (loc_of_shr_record mrs1)) as Hm2.
  fold m2 in Hm2.
  assert (Hm2' : 0 <= m2) by lia.
  destruct (shr_fexp_spec m2 e1 loc_Exact Hm2') as [mrs3 [e3 [E3 [He3 [Hm3 [Hd3 _]]]]]].
  rewrite E3.
  pose proof (Zdigits2_nonneg m) as Hdm.
  assert (Hde1 : Zdigits2 (shr_m mrs1) + e1 <= K).
  { destruct (Z.eq_dec (shr_m mrs1) 0) as [->|Hnz].
    - cbn [Zdigits2]. unfold fexp, emin in *. lia.
    - rewrite Hd1 by lia. lia. }
  assert (Hde2 : Zdigits2 m2 + e1 <= K + 1).
  { pose proof (Zdigits2_mono m2 (shr_m mrs1 + 1)).
    pose proof (Zdigits2_succ (shr_m mrs1)). lia. }
  destruct (shr_m mrs3) as [|p|p] eqn:Ep; [exact I| |lia].
  assert (Hp : Zpos (digits2_pos p) + e3 = Zdigits2 m2 + e1).
  { change (Zpos (digits2_pos p)) with (Zdigits2 (Zpos p)). apply Hd3. lia. }
  assert (He3' : e3 <= emax - prec).
  { pose proof (Zdigits2_nonneg m2). unfold fexp, emin in *. lia. }
  destruct (Z.leb_spec e3 (emax - prec)); [|lia].
  cbn [Float.ranged]. unfold fexp, emin in *. lia.
Qed.

(** A positive number in the normal range does not round to zero. *)
Lemma binary_round_aux_not_zero (s : bool) (m e : Z) (l : location) :
  0 < m -> emin prec emax + prec <= Zdigits2 m + e ->
  Float.is_zero (binary_round_aux prec emax s m e l) = false.
Proof.
  intros Hm Hn. unfold binary_round_aux.
  assert (Hm0 : 0 <= m) by lia.
  destruct (shr_fexp_spec m e l Hm0) as [mrs1 [e1 [E1 [He1 [Hm1 [Hd1 Hp1]]]]]].
  rewrite E1. specialize (Hp1 Hm Hn). specialize (Hd1 Hp1).
  set (m2 := round_nearest_even (shr_m mrs1) (loc_of_shr_record mrs1)).
  pose proof (round_nearest_even_range (shr_m mrs1) (loc_of_shr_record mrs1)) as Hm2.
  fold m2 in Hm2.
  assert (Hm2' : 0 <= m2) by lia.
  destruct (shr_fexp_spec m2 e1 loc_Exact Hm2') as [mrs3 [e3 [E3 [He3 [Hm3 [Hd3 Hp3]]]]]].
  rewrite E3.
  assert (0 < shr_m mrs3).
  { apply Hp3; [lia|]. pose proof (Zdigits2_mono (shr_m mrs1) m2). lia. }
  destruct (shr_m mrs3) as [|p|p]; [lia| |lia].
  destruct (Z.leb _ _); reflexivity.
Qed.

Lemma iter_xO (p d : positive) : Zpos (Pos.iter xO p d) = Zpos p * 2 ^ Zpos d.
Proof.
  induction d as [|d IH] using Pos.peano_ind.
  - cbn [Pos.iter]. lia.
  - rewrite Pos.iter_succ, Pos2Z.inj_xO, IH, Pos2Z.inj_succ, Z.pow_succ_r; lia.
Qed.

Lemma Zdigits2_mul_pow2 (m n : Z) : 0 < m -> 0 <= n -> Zdigits2 (m * 2 ^ n) = Zdigits2 m + n.
Proof.
  intros Hm Hn. assert (0 < 2 ^ n) by (apply Z.pow_pos_nonneg; lia).
  rewrite !Zdigits2_log2 by nia. rewrite Z.log2_mul_pow2 by lia. lia.
Qed.

(** [shl_align] lowers the exponent to [e'] when it is above, keeping
    the number. *)
Lemma shl_align_spec (m : positive) (e e' : Z) :
  exists mz ez,
    shl_align m e e' = (mz, ez) /\
    ez = Z.min e e' /\
    Zpos mz = Zpos m * 2 ^ (e - ez) /\
    Zpos (digits2_pos mz) + ez = Zpos (digits2_pos m) + e.
Proof.
  unfold shl_align. destruct (e' - e) as [|d|d] eqn:Ed.
  - exists m, e. split; [reflexivity|]. split; [lia|].
    replace (e - e) with 0 by lia. split; lia.
  - exists m, e. split; [reflexivity|]. split; [lia|].
    replace (e - e) with 0 by lia. split; lia.
  - eexists _, _. split; [reflexivity|]. split; [lia|].
    replace (e - e') with (Zpos d) by lia. rewrite iter_xO. split; [reflexivity|].
    change (Zpos (digits2_pos (Pos.iter xO m d))) with (Zdigits2 (Zpos (Pos.iter xO m d))).
    rewrite iter_xO, Zdigits2_mul_pow2 by lia. cbn [Zdigits2]. lia.
Qed.

Lemma binary_round_ranged (s : bool) (m : positive) (e lo K : Z) :
  lo <= e -> lo <= fexp prec emax (Zpos (digits2_pos m) + e) ->
  Zpos (digits2_pos m) + e <= K -> emin prec emax <= K -> K < emax ->
  Float.ranged lo (K + 1) (binary_round prec emax s m e).
Proof.
  intros Hlo Hlo' HK Hmin Hmax. unfold binary_round.
  destruct (shl_align_spec m e (fexp prec emax (Zpos (digits2_pos m) + e)))
    as [mz [ez [E [Hez [_ Hd]]]]].
  rewrite E. apply binary_round_aux_ranged; cbn [Zdigits2]; try lia.
  unfold fexp, emin in *. lia.
Qed.

Lemma binary_round_not_zero (s : bool) (m : positive) (e : Z) :
  emin prec emax + prec <= Zpos (digits2_pos m) + e ->
  Float.is_zero (binary_round prec emax s m e) = false.
Proof.
  intros Hn. unfold binary_round.
  destruct (shl_align_spec m e (fexp prec emax (Zpos (digits2_pos m) + e)))
    as [mz [ez [E [Hez [_ Hd]]]]].
  rewrite E. apply binary_round_aux_not_zero; cbn [Zdigits2]; lia.
Qed.

(** The float of a positive integer is a positive number. *)
Lemma of_Z_pos (n K : Z) :
  0 < n -> Zdigits2 n <= K -> K < emax ->
  exists m e,
    binary_normalize prec emax n 0 false = S754_finite false m e /\
    1 - prec <= e /\ Zpos (digits2_pos m) + e <= K + 1.
Proof.
  intros Hn HK Hmax. destruct n as [|p|p]; try lia. cbn [binary_normalize Zdigits2] in *.
  pose proof (binary_round_ranged false p 0 (1 - prec) K) as Hr.
  pose proof (binary_round_not_zero false p 0) as Hz.
  assert (Hr' : Float.ranged (1 - prec) (K + 1) (binary_round prec emax false p 0))
    by (apply Hr; unfold fexp, emin in *; lia).
  assert (Hz' : Float.is_zero (binary_round prec emax false p 0) = false)
    by (apply Hz; unfold emin; lia).
  clear Hr Hz.
  assert (Hs : forall s m e, binary_round prec emax false p 0 = S754_finite s m e -> s = false).
  { intros s m e. unfold binary_round, binary_round_aux.
    destruct (shl_align _ _ _) as [mz ez]. destruct (shr_fexp _ _ _ _ _) as [a b].
    destruct (shr_fexp _ _ _ _ _) as [c d]. destruct (shr_m c); try discriminate.
    destruct (Z.leb _ _); [|discriminate]. congruence. }
  destruct (binary_round prec emax false p 0) as [| | |s m e]; try discriminate; try contradiction.
  rewrite (Hs s m e eq_refl). exists m, e. split; [reflexivity|exact Hr'].
Qed.

Lemma ranged_weaken (lo hi lo' hi' : Z) (f : spec_float) :
  lo' <= lo -> hi <= hi' -> Float.ranged lo hi f -> Float.ranged lo' hi' f.
Proof. destruct f; cbn [Float.ranged]; lia. Qed.

(** The quotient of two numbers in range is in range. *)
Lemma SFdiv_ranged (sx sy : bool) (mx my : positive) (ex ey lox hix loy hiy : Z) :
  lox <= ex -> Zpos (digits2_pos mx) + ex <= hix ->
  loy <= ey -> Zpos (digits2_pos my) + ey <= hiy ->
  emin prec emax <= hix - loy -> hix - loy < emax ->
  Float.ranged (Z.min (emin prec emax) (lox - hiy)) (hix - loy + 1)
    (SFdiv prec emax (S754_finite sx mx ex) (S754_finite sy my ey)).
Proof.
  intros Hlox Hhix Hloy Hhiy Hmin Hmax. cbn [SFdiv]. unfold SFdiv_core_binary.
  cbn [Zdigits2].
  set (e' := Z.min (fexp prec emax (Zpos (digits2_pos mx) + ex - (Zpos (digits2_pos my) + ey)))
               (ex - ey)).
  set (s := ex - ey - e').
  set (m' := match s with Z0 => Zpos mx | Zpos _ => Z.shiftl (Zpos mx) s | Zneg _ => 0 end).
  assert (Hs : 0 <= s) by (unfold s, e'; lia).
  assert (Hm' : m' = Zpos mx * 2 ^ s).
  { unfold m'. destruct s as [|p|p]; [cbn; lia| |lia]. apply Z.shiftl_mul_pow2. lia. }
  destruct (Z.div_eucl m' (Zpos my)) as [q r] eqn:E.
  assert (Hq : q = m' / Zpos my) by (unfold Z.div; rewrite E; reflexivity).
  assert (Hpow : 0 < 2 ^ s) by (apply Z.pow_pos_nonneg; lia).
  assert (Hq0 : 0 <= q) by (rewrite Hq; apply Z.div_pos; nia).
  assert (Hqm : q <= m') by (rewrite Hq; apply Z.div_le_upper_bound; nia).
  assert (Hd : Zdigits2 q <= Zpos (digits2_pos mx) + s).
  { pose proof (Zdigits2_mono q m'). rewrite Hm' in H at 2.
    rewrite Zdigits2_mul_pow2 in H by lia. cbn [Zdigits2] in H. lia. }
  pose proof (Pos2Z.is_pos (digits2_pos mx)). pose proof (Pos2Z.is_pos (digits2_pos my)).
  apply binary_round_aux_ranged; unfold e', s, fexp, emin in *; lia.
Qed.

(** The sum of two numbers in range is in range. *)
Lemma SFadd_ranged (x y : spec_float) (lo hi : Z) :
  Float.ranged lo hi x -> Float.ranged lo hi y ->
  emin prec emax <= hi + 1 -> hi + 1 < emax ->
  Float.ranged (Z.min lo (emin prec emax)) (hi + 2) (SFadd prec emax x y).
Proof.
  intros Hx Hy Hmin Hmax.
  destruct x as [sx| | |sx mx ex]; try contradiction;
    destruct y as [sy| | |sy my ey]; try contradiction.
  - cbn [SFadd]. destruct sx, sy; exact I.
  - cbn [SFadd]. apply (ranged_weaken lo hi); [lia|lia|exact Hy].
  - cbn [SFadd]. apply (ranged_weaken lo hi); [lia|lia|exact Hx].
  - cbn [Float.ranged] in Hx, Hy. cbn [SFadd]. set (ez := Z.min ex ey).
    replace (hi + 2) with (hi + 1 + 1) by lia.
    destruct (shl_align_spec mx ex ez) as [ax [ea [Ea [Hea [_ Hda]]]]].
    destruct (shl_align_spec my ey ez) as [ay [eb [Eb [Heb [_ Hdb]]]]].
    rewrite Ea, Eb. cbn [fst].
    assert (Hax : Zpos ax < 2 ^ (hi - ez)).
    { apply Z.lt_le_trans with (2 ^ Zdigits2 (Zpos ax)); [apply Zdigits2_upper; lia|].
      apply Z.pow_le_mono_r; [lia|]. cbn [Zdigits2]. unfold ez in *. lia. }
    assert (Hay : Zpos ay < 2 ^ (hi - ez)).
    { apply Z.lt_le_trans with (2 ^ Zdigits2 (Zpos ay)); [apply Zdigits2_upper; lia|].
      apply Z.pow_le_mono_r; [lia|]. cbn [Zdigits2]. unfold ez in *. lia. }
    pose proof (Pos2Z.is_pos (digits2_pos mx)) as Hpx.
    assert (Hez : 0 <= hi - ez) by (unfold ez; lia).
    assert (Hsum : forall p, Zpos p <= Zpos ax + Zpos ay ->
              Zpos (digits2_pos p) + ez <= hi + 1).
    { intros p Hp. change (Zpos (digits2_pos p)) with (Zdigits2 (Zpos p)).
      pose proof (Zdigits2_below (Zpos p) (hi - ez + 1)) as Hb.
      rewrite Z.pow_add_r, Z.pow_1_r in Hb by lia. lia. }
    assert (Hlo : Z.min lo (emin prec emax) <= ez) by (unfold ez; lia).
    destruct (cond_Zopp sx (Zpos ax) + cond_Zopp sy (Zpos ay)) as [|p|p] eqn:Es;
      cbn [binary_normalize]; [exact I| |].
    + apply binary_round_ranged; try lia.
      * unfold fexp. lia.
      * apply Hsum. unfold cond_Zopp in Es. destruct sx, sy; lia.
    + apply binary_round_ranged; try lia.
      * unfold fexp. lia.
      * apply Hsum. unfold cond_Zopp in Es. destruct sx, sy; lia.
Qed.

End Rounding.

(* ================================================================== *)
(** * The tone adjustments with every slider at 50 *)
(* ================================================================== *)

Lemma Mode_eqb_eq (a b : Image.Mode) : Image.Mode_eqb a b = true -> a = b.
Proof. destruct a, b; simpl; intros H; try discriminate H; reflexivity. Qed.

Lemma convert_shape (a b : Image.t) (m : Image.Mode) :
  Image.convert a m = Ok b ->
  Image.mode b = m /\ Image.width b = Image.width a /\ Image.height b = Image.height a.
Proof.
  unfold Image.convert. destruct (Image.Mode_eqb (Image.mode a) m) eqn:E.
  - intros H. injection H as <-. apply Mode_eqb_eq in E. unfold Image.copy. auto.
  - destruct (Image.convert_pixel (Image.mode a) m); [|discriminate].
    intros H. injection H as <-. auto.
Qed.

Lemma keep_alpha_match (d im : Image.t) :
  Image.mode d = Image.mode im -> Image.width d = Image.width im ->
  Image.height d = Image.height im ->
  Image.match_ (ImageEnhance.keep_alpha d im) im = true.
Proof.
  intros Hm Hw Hh. unfold ImageEnhance.keep_alpha.
  destruct (Image.mode im) eqn:E; apply match_same_shape;
    cbn [Image.putalpha Image.mode Image.width Image.height]; congruence.
Qed.

Lemma div50_50 : Py.truediv (Py.of_int 50) (Py.of_int 50) = Ok (Py.of_int 1).
Proof. reflexivity. Qed.

(** Brightness enhancement by the factor 1.0 returns the image. *)
Lemma brightness_enhance_1 (image : Image.t) :
  brightness_enhance image (Py.of_int 1) = Ok image.
Proof.
  unfold brightness_enhance, ImageEnhance.Brightness, ImageEnhance.enhance. cbn [bind].
  apply blend_1, keep_alpha_match; reflexivity.
Qed.

Lemma exposure_50 (image : Image.t) : exposure_stage 50 image = Ok image.
Proof. unfold exposure_stage. rewrite div50_50. cbn [bind]. apply brightness_enhance_1. Qed.

Lemma brightness_50 (image : Image.t) : brightness_stage 50 image = Ok image.
Proof. unfold brightness_stage. rewrite div50_50. cbn [bind]. apply brightness_enhance_1. Qed.

(** Contrast at 50 returns the image, provided its degenerate image,
    the mean grey, can be made: an empty image has no mean. *)
Lemma contrast_50 (image : Image.t) :
  completes (ImageEnhance.Contrast image) -> contrast_stage 50 image = Ok image.
Proof.
  intros [d Hd]. unfold contrast_stage. rewrite div50_50, Hd. cbn [bind].
  unfold ImageEnhance.enhance. apply blend_1.
  unfold ImageEnhance.Contrast in Hd.
  destruct (ImageEnhance.mean_grey image) as [mean|]; [|discriminate Hd]. cbn [bind] in Hd.
  destruct (Image.convert _ _) as [d0|] eqn:Ec; [|discriminate Hd]. cbn [bind] in Hd.
  injection Hd as <-. apply convert_shape in Ec. destruct Ec as [Hm [Hw Hh]].
  apply keep_alpha_match; assumption.
Qed.

Example contrast_empty_image :
  contrast_stage 50 (solid Image.RGB 0 0 [0; 0; 0]) = Raise ZeroDivisionError.
Proof. vm_compute. reflexivity. Qed.

Lemma saturation_50 (image : Image.t) :
  Image.mode image = Image.RGB -> saturation_stage 50 image = Ok image.
Proof.
  intros Hm. unfold saturation_stage, ImageEnhance.Color, Image.convert.
  rewrite div50_50, Hm. cbn [bind Image.Mode_eqb Image.convert_pixel Image.mode].
  unfold ImageEnhance.enhance. apply blend_1, keep_alpha_match; try reflexivity.
  cbn [Image.mode]. congruence.
Qed.

(** The mean reads the pixels of the image only. *)
Lemma mean_ext (w h : Z) (fa fb : Z -> Z -> Image.pixel) (k : nat) :
  (forall x y, 0 <= x < w -> 0 <= y < h -> fa x y = fb x y) ->
  ImageStat.mean (Image.mk Image.L w h fa) k = ImageStat.mean (Image.mk Image.L w h fb) k.
Proof.
  intros Hp. unfold ImageStat.mean, ImageStat.sum, ImageStat.count.
  cbn [Image.width Image.height Image.getpixel].
  do 3 f_equal. apply map_ext_in. intros y Hy. apply In_range in Hy.
  f_equal. apply map_ext_in. intros x Hx. apply In_range in Hx.
  rewrite Hp by assumption. reflexivity.
Qed.

Lemma mean_grey_same (a b : Image.t) :
  Image.same a b -> ImageEnhance.mean_grey a = ImageEnhance.mean_grey b.
Proof.
  intros [Hm [Hw [Hh Hp]]]. unfold ImageEnhance.mean_grey, Image.convert.
  rewrite <- Hm.
  destruct (Image.Mode_eqb (Image.mode a) Image.L) eqn:E.
  - cbn [bind]. unfold Image.copy. apply Mode_eqb_eq in E.
    destruct a as [ma wa ha pa], b as [mb wb hb pb].
    cbn [Image.mode Image.width Image.height Image.getpixel] in *. subst ma mb wb hb.
    rewrite (mean_ext wa ha pa pb 0 Hp). reflexivity.
  - destruct (Image.convert_pixel (Image.mode a) Image.L) as [f|]; [|reflexivity].
    cbn [bind]. rewrite <- Hw, <- Hh.
    rewrite (mean_ext (Image.width a) (Image.height a)
               (fun x y => f (Image.getpixel a x y)) (fun x y => f (Image.getpixel b x y)) 0).
    + reflexivity.
    + intros x y Hx Hy. rewrite Hp by assumption. reflexivity.
Qed.

Lemma Contrast_completes_same (a b : Image.t) :
  Image.same a b -> completes (ImageEnhance.Contrast a) -> completes (ImageEnhance.Contrast b).
Proof.
  intros Hs [d Hd]. pose proof (mean_grey_same a b Hs) as Hmean.
  destruct Hs as [Hm [Hw [Hh _]]].
  unfold ImageEnhance.Contrast in *. rewrite <- Hmean.
  destruct (ImageEnhance.mean_grey a) as [mean|]; [|discriminate Hd]. cbn [bind] in *.
  unfold Image.size in *. rewrite <- Hw, <- Hh, <- Hm.
  destruct (Image.convert _ _) as [d0|]; [|discriminate Hd]. cbn [bind].
  eexists. reflexivity.
Qed.

Lemma sumZ_bounds (l : list Z) (c : Z) :
  (forall a, In a l -> 0 <= a <= c) -> 0 <= sumZ l <= c * Z.of_nat (length l).
Proof.
  induction l as [|a l IH]; cbn [sumZ length]; intros H; [lia|].
  pose proof (H a (or_introl eq_refl)).
  pose proof (IH (fun b Hb => H b (or_intror Hb))). lia.
Qed.

(** The sum of a band of bytes is at most 255 a pixel. *)
Lemma sum_bounds (im : Image.t) (k : nat) :
  0 <= Image.width im -> 0 <= Image.height im ->
  (forall x y, 0 <= x < Image.width im -> 0 <= y < Image.height im ->
     Image.byte (Image.band k (Image.getpixel im x y))) ->
  0 <= ImageStat.sum im k <= 255 * ImageStat.count im.
Proof.
  intros Hw Hh Hb. unfold ImageStat.sum, ImageStat.count.
  rewrite !Z.max_r by lia.
  set (rows := map _ (range (Image.height im))).
  assert (Hrows : 0 <= sumZ rows <= 255 * Image.width im * Z.of_nat (length rows)).
  { apply sumZ_bounds. intros a Ha. unfold rows in Ha. apply in_map_iff in Ha.
    destruct Ha as [y [<- Hy]]. apply In_range in Hy.
    set (row := map _ (range (Image.width im))).
    assert (Hrow : 0 <= sumZ row <= 255 * Z.of_nat (length row)).
    { apply sumZ_bounds. intros b Hin. unfold row in Hin. apply in_map_iff in Hin.
      destruct Hin as [x [<- Hx]]. apply In_range in Hx. apply Hb; assumption. }
    assert (Hlen : length row = Z.to_nat (Image.width im))
      by (unfold row; rewrite length_map, range_length; reflexivity).
    rewrite Hlen in Hrow. lia. }
  assert (Hlen : length rows = Z.to_nat (Image.height im))
    by (unfold rows; rewrite length_map, range_length; reflexivity).
  rewrite Hlen in Hrows. nia.
Qed.

Lemma rgb2l_byte (r g b : Z) :
  Image.byte r -> Image.byte g -> Image.byte b -> Image.byte (Image.rgb2l r g b).
Proof.
  unfold Image.rgb2l, Image.byte. intros Hr Hg Hb.
  rewrite Z.shiftr_div_pow2 by lia. change (2 ^ 16) with 65536. split.
  - apply Z.div_pos; lia.
  - apply Z.lt_succ_r. apply Z.div_lt_upper_bound; lia.
Qed.

(** A number in range converts to an integer. *)
Lemma int_of_ranged (lo hi : Z) (x : Py.float) : Float.ranged lo hi x -> completes (Py.int x).
Proof.
  destruct x; cbn [Float.ranged]; try contradiction; intros _;
    unfold Py.int; cbn [Float.truncate]; eexists; reflexivity.
Qed.

(** The mean of the integers [0 <= total <= 255 * n] over [n] pixels,
    [0 < n] and [255 * n < 2^53], plus one half, has an integer part. *)
Lemma mean_plus_half (total n : Z) :
  0 <= total -> 0 < n -> total < 2 ^ 53 -> n < 2 ^ 53 ->
  exists m, Py.truediv (Py.of_int total) (Py.of_int n) = Ok m /\
            completes (Py.int (Py.add m (Py.lit 1 2))).
Proof.
  intros Ht Hn Htb Hnb.
  assert (Hp : 0 < 53) by lia. assert (Hpe : 53 < 1024) by lia.
  destruct (of_Z_pos 53 1024 Hp Hpe n 53 Hn) as [mc [ec [Ec [Hec Hdc]]]];
    [apply Zdigits2_below; lia|lia|].
  unfold Py.truediv, Py.of_int, Float.of_Z, Py.prec, Py.emax. rewrite Ec. cbn [Float.is_zero].
  eexists. split; [reflexivity|].
  apply (int_of_ranged (Z.min (-1074) (emin 53 1024)) (107 + 2)).
  apply (SFadd_ranged 53 1024 Hp Hpe); try (unfold emin; lia).
  - destruct (Z.eq_dec total 0) as [->|Hnz].
    + exact I.
    + destruct (of_Z_pos 53 1024 Hp Hpe total 53) as [ms [es [Es [Hes Hds]]]];
        [lia|apply Zdigits2_below; lia|lia|].
      rewrite Es.
      apply (ranged_weaken (Z.min (emin 53 1024) (-52 - 54)) (54 - -52 + 1));
        [unfold emin; lia|lia|].
      apply (SFdiv_ranged 53 1024 Hp Hpe); unfold emin; lia.
  - vm_compute. split; discriminate.
Qed.

(** The contrast enhancer can be made for every image that is not
    empty. *)
Lemma Contrast_completes (image : Image.t) :
  Image.valid image -> Image.mode image = Image.RGB ->
  0 < Image.width image -> 0 < Image.height image ->
  255 * (Image.width image * Image.height image) < 2 ^ 53 ->
  completes (ImageEnhance.Contrast image).
Proof.
  intros Hv Hm Hw Hh Hsize.
  unfold ImageEnhance.Contrast, ImageEnhance.mean_grey, Image.convert.
  rewrite Hm. cbn [Image.Mode_eqb Image.convert_pixel bind].
  set (grey := Image.mk Image.L _ _ _).
  assert (Hsum : 0 <= ImageStat.sum grey 0 <= 255 * ImageStat.count grey).
  { apply sum_bounds; cbn [grey Image.width Image.height Image.getpixel]; try lia.
    intros x y Hx Hy.
    destruct (rgb_pixel_inv image x y Hv Hm Hx Hy) as [r [g [b [E [Hr [Hg Hb]]]]]].
    rewrite E. cbn [Image.band nth]. apply rgb2l_byte; assumption. }
  assert (Hcount : ImageStat.count grey = Image.width image * Image.height image).
  { unfold ImageStat.count. cbn [grey Image.width Image.height]. lia. }
  destruct (mean_plus_half (ImageStat.sum grey 0) (ImageStat.count grey))
    as [m [Em [mean Emean]]]; try nia.
  unfold ImageStat.mean. rewrite Em. cbn [bind]. rewrite Emean. cbn [bind].
  unfold Image.new, Image.size. cbn [Image.mode Image.Mode_eqb Image.convert_pixel bind].
  eexists. reflexivity.
Qed.

Lemma CLIP8_byte (v : Z) : Image.byte (CLIP8 v).
Proof. unfold CLIP8, Image.byte. case_cmp; lia. Qed.

Lemma CLIP8_of_byte (v : Z) : Image.byte v -> CLIP8 v = v.
Proof. unfold CLIP8, Image.byte. intros H. case_cmp; lia. Qed.

(** The identity table leaves a valid image as it is. *)
Lemma point_table_identity (im : Image.t) :
  Image.valid im ->
  exists out,
    Image.point_table im (concat (repeat (range 256) (Z.to_nat (Image.bands (Image.mode im)))))
    = Ok out /\
    Image.mode out = Image.mode im /\
    Image.width out = Image.width im /\
    Image.height out = Image.height im /\
    forall x y, 0 <= x < Image.width im -> 0 <= y < Image.height im ->
      Image.getpixel out x y = Image.getpixel im x y.
Proof.
  intros Hv. destruct (point_table_tabulated im (fun v => v) Hv) as [out [E [Hm [Hw [Hh Hp]]]]].
  rewrite map_id in E. exists out. split; [exact E|]. repeat (split; [assumption|]).
  intros x y Hx Hy. rewrite Hp by assumption.
  destruct Hv as [_ [_ Hv]]. destruct (Hv x y Hx Hy) as [_ Hb].
  rewrite <- (map_id (Image.getpixel im x y)) at 2.
  apply map_ext_in. intros v Hin. rewrite Forall_forall in Hb.
  apply CLIP8_of_byte, Hb, Hin.
Qed.

(** The table of the hue adjustment at 50, where the shift is 0.0. *)
Lemma hue_table_50 :
  (table <- mapM (hue_lut (Py.mul (Py.of_int (50 - 50)) (Py.lit 36 10))) (range 256) ;;
   mapM py_round (concat (repeat table 1)))
  = Ok (range 256).
Proof. vm_compute. reflexivity. Qed.

Lemma rgb2hsv_valid (r g b : Z) :
  Image.byte r -> Image.byte g -> Image.byte b ->
  exists h s v, Image.rgb2hsv r g b = [h; s; v] /\
                Image.byte h /\ Image.byte s /\ Image.byte v.
Proof.
  intros Hr Hg Hb. unfold Image.rgb2hsv. cbv zeta.
  assert (Hmax : Image.byte (Image.max3 r g b))
    by (unfold Image.max3, Image.byte in *; lia).
  destruct (Image.min3 r g b =? Image.max3 r g b).
  - exists 0, 0, (Image.max3 r g b). split; [reflexivity|].
    split; [unfold Image.byte; lia|]. split; [unfold Image.byte; lia | exact Hmax].
  - eexists _, _, _. split; [reflexivity|].
    split; [apply CLIP8_byte|]. split; [apply CLIP8_byte | exact Hmax].
Qed.

Lemma hsv2rgb_valid (h s v : Z) :
  Image.byte v ->
  exists r g b, Image.hsv2rgb h s v = [r; g; b] /\
                Image.byte r /\ Image.byte g /\ Image.byte b.
Proof.
  intros Hv. unfold Image.hsv2rgb. destruct (s =? 0).
  - exists v, v, v. auto.
  - cbv zeta.
    assert (H : forall k p q u, Image.byte p -> Image.byte q -> Image.byte u ->
              exists r g b,
                match k with
                | 0 => [v; u; p]
                | 1 => [q; v; p]
                | 2 => [p; v; u]
                | 3 => [p; q; v]
                | 4 => [u; p; v]
                | _ => [v; p; q]
                end = [r; g; b] /\ Image.byte r /\ Image.byte g /\ Image.byte b).
    { intros k p q u Hp Hq Hu.
      repeat match goal with
             | |- context [match ?x with _ => _ end] => is_var x; destruct x
             end;
        eexists _, _, _; (split; [reflexivity|]); auto. }
    apply H; apply CLIP8_byte.
Qed.

Lemma split_HSV (im : Image.t) :
  Image.mode im = Image.HSV ->
  Image.split im = [Image.getchannel im 0; Image.getchannel im 1; Image.getchannel im 2].
Proof. intros H. unfold Image.split. rewrite H. reflexivity. Qed.

(** Three L bands of one size merge into an image of three bands. *)
Lemma merge_3 (m : Image.Mode) (b0 b1 b2 : Image.t) :
  Image.bands m = 3 ->
  Image.mode b1 = Image.L -> Image.mode b2 = Image.L ->
  Image.width b1 = Image.width b0 -> Image.height b1 = Image.height b0 ->
  Image.width b2 = Image.width b0 -> Image.height b2 = Image.height b0 ->
  Image.merge m [b0; b1; b2]
  = Ok (Image.mk m (Image.width b0) (Image.height b0)
          (fun x y => [Image.band 0 (Image.getpixel b0 x y);
                       Image.band 0 (Image.getpixel b1 x y);
                       Image.band 0 (Image.getpixel b2 x y)])).
Proof.
  intros Hb Hm1 Hm2 Hw1 Hh1 Hw2 Hh2. unfold Image.merge.
  cbn [length Z.of_nat Pos.of_succ_nat Pos.succ forallb]. rewrite Hb.
  rewrite Hm1, Hm2, Hw1, Hh1, Hw2, Hh2, !Z.eqb_refl. reflexivity.
Qed.

(** On an L band the table of the hue adjustment at 50 is the identity
    table. *)
Lemma hue_point_50 (h : Image.t) :
  Image.mode h = Image.L ->
  Image.point h (hue_lut (Py.mul (Py.of_int (50 - 50)) (Py.lit 36 10)))
  = Ok (Image.mk Image.L (Image.width h) (Image.height h)
          (fun x y => Image.lookup_bands (map CLIP8 (range 256)) 0 (Image.getpixel h x y))).
Proof.
  intros Hm. unfold Image.point. rewrite Hm. change (Z.to_nat (Image.bands Image.L)) with 1%nat.
  pose proof hue_table_50 as Ht.
  destruct (mapM (hue_lut _) (range 256)) as [table|]; [|discriminate Ht].
  cbn [bind] in Ht |- *. rewrite Ht. cbn [bind].
  unfold Image.point_table. rewrite Hm, range_length. reflexivity.
Qed.

(** Hue at 50: every pixel goes to HSV and back, its H band unshifted. *)
Lemma hue_50 (image : Image.t) :
  Image.valid image -> Image.mode image = Image.RGB ->
  exists out,
    hue_stage 50 image = Ok out /\
    Image.valid out /\
    Image.mode out = Image.RGB /\
    Image.width out = Image.width image /\
    Image.height out = Image.height image /\
    forall x y, 0 <= x < Image.width image -> 0 <= y < Image.height image ->
      Image.getpixel out x y = hsv_round_trip (Image.getpixel image x y).
Proof.
  intros Hv Hm. unfold hue_stage. cbv zeta.
  unfold Image.convert at 1. rewrite Hm.
  cbn [Image.Mode_eqb Image.convert_pixel bind].
  set (hsv := Image.mk Image.HSV _ _ _).
  rewrite (split_HSV hsv eq_refl).
  rewrite (hue_point_50 (Image.getchannel hsv 0) eq_refl). cbn [bind].
  rewrite merge_3 by reflexivity. cbn [bind].
  unfold Image.convert. cbn [Image.mode Image.Mode_eqb Image.convert_pixel].
  cbn [Image.width Image.height Image.getpixel Image.getchannel].
  assert (Hpix : forall x y, 0 <= x < Image.width image -> 0 <= y < Image.height image ->
     Image.hsv2rgb
       (Image.band 0 [Image.band 0 (Image.lookup_bands (map CLIP8 (range 256)) 0
                                      [Image.band 0 (Image.getpixel hsv x y)]);
                      Image.band 0 [Image.band 1 (Image.getpixel hsv x y)];
                      Image.band 0 [Image.band 2 (Image.getpixel hsv x y)]])
       (Image.band 1 [Image.band 0 (Image.lookup_bands (map CLIP8 (range 256)) 0
                                      [Image.band 0 (Image.getpixel hsv x y)]);
                      Image.band 0 [Image.band 1 (Image.getpixel hsv x y)];
                      Image.band 0 [Image.band 2 (Image.getpixel hsv x y)]])
       (Image.band 2 [Image.band 0 (Image.lookup_bands (map CLIP8 (range 256)) 0
                                      [Image.band 0 (Image.getpixel hsv x y)]);
                      Image.band 0 [Image.band 1 (Image.getpixel hsv x y)];
                      Image.band 0 [Image.band 2 (Image.getpixel hsv x y)]])
     = hsv_round_trip (Image.getpixel image x y)).
  { intros x y Hx Hy.
    destruct (rgb_pixel_inv image x y Hv Hm Hx Hy) as [r [g [b [Hp [Hr [Hg Hb]]]]]].
    unfold hsv_round_trip, hsv. cbn [Image.getpixel Image.lookup_bands].
    rewrite !Hp. cbn [Image.band nth].
    destruct (rgb2hsv_valid r g b Hr Hg Hb) as [h [s [v [E [Hh [Hs Hvv]]]]]].
    rewrite !E. cbn [Image.band nth].
    replace (nth (Z.to_nat (0 * 256 + h)) (map CLIP8 (range 256)) 0) with h; [reflexivity|].
    symmetry. rewrite Z.mul_0_l, Z.add_0_l.
    rewrite (nth_range_map CLIP8 256 h 0) by (unfold Image.byte in Hh; lia).
    apply CLIP8_of_byte, Hh. }
  eexists. split; [reflexivity|].
  cbn [Image.mode Image.width Image.height Image.getpixel].
  split; [|split; [reflexivity|split; [reflexivity|split; [reflexivity|exact Hpix]]]].
  destruct Hv as [Hw0 [Hh0 Hvp]]. split; [exact Hw0|]. split; [exact Hh0|].
  cbn [Image.mode Image.width Image.height Image.getpixel Image.bands].
  intros x y Hx Hy. rewrite (Hpix x y Hx Hy).
  destruct (rgb_pixel_inv image x y (conj Hw0 (conj Hh0 Hvp)) Hm Hx Hy)
    as [r [g [b [Hp [Hr [Hg Hb]]]]]].
  unfold hsv_round_trip. rewrite Hp. cbn [Image.band nth].
  destruct (rgb2hsv_valid r g b Hr Hg Hb) as [h [s [v [E [Hh [Hs Hvv]]]]]].
  rewrite E. cbn [Image.band nth].
  destruct (hsv2rgb_valid h s v Hvv) as [r' [g' [b' [E' [Hr' [Hg' Hb']]]]]].
  rewrite E'. split; [reflexivity|].
  constructor; [assumption|]. constructor; [assumption|]. constructor; [assumption|].
  constructor.
Qed.

Lemma mapM_app {A B : Type} (f : A -> result B) (l1 l2 : list A) (r1 r2 : list B) :
  mapM f l1 = Ok r1 -> mapM f l2 = Ok r2 -> mapM f (l1 ++ l2) = Ok (r1 ++ r2).
Proof.
  revert r1. induction l1 as [|a l1 IH]; intros r1 H1 H2; simpl in *.
  - injection H1 as <-. exact H2.
  - destruct (f a) as [b|]; [|discriminate H1]. cbn [bind] in *.
    destruct (mapM f l1) as [bs|]; [|discriminate H1]. cbn [bind] in *.
    injection H1 as <-. rewrite (IH bs eq_refl H2). reflexivity.
Qed.

Lemma mapM_concat_repeat {A B : Type} (f : A -> result B) (table : list A) (r : list B)
    (n : nat) :
  mapM f table = Ok r -> mapM f (concat (repeat table n)) = Ok (concat (repeat r n)).
Proof.
  intros H. induction n as [|n IH]; simpl.
  - reflexivity.
  - apply mapM_app; assumption.
Qed.

(** With the exponent 1.0 the entries [255 * (p / 255)] of the gamma
    table round to [p]. *)
Lemma gamma_round_50 :
  mapM py_round
    (map (fun p => PyFloat (Py.mul (Py.of_int 255)
                              (SFdiv Py.prec Py.emax (Py.of_int p) (Py.of_int 255))))
       (range 256))
  = Ok (range 256).
Proof. vm_compute. reflexivity. Qed.

Lemma SMOOTH_shape (im : Image.t) :
  Image.mode (ImageFilter.SMOOTH im) = Image.mode im /\
  Image.width (ImageFilter.SMOOTH im) = Image.width im /\
  Image.height (ImageFilter.SMOOTH im) = Image.height im.
Proof.
  unfold ImageFilter.SMOOTH, Image.filter_kernel, Image.filter3x3.
  destruct (_ || _); auto.
Qed.

Lemma sharpness_completes (slider : Z) (image : Image.t) :
  completes (sharpness_stage slider image).
Proof.
  unfold sharpness_stage.
  change (Py.truediv (Py.of_int slider) (Py.of_int 10))
    with (Ok (SFdiv Py.prec Py.emax (Py.of_int slider) (Py.of_int 10))).
  cbn [bind]. unfold ImageEnhance.Sharpness, ImageEnhance.enhance. cbn [bind].
  apply blend_completes, keep_alpha_match; apply SMOOTH_shape.
Qed.

(** The factor of the sharpness enhancement at 50: 50 / 10.0 + 1. *)
Example sharpness_factor_50 :
  Py.add (SFdiv Py.prec Py.emax (Py.of_int 50) (Py.of_int 10)) (Py.of_int 1) = Py.of_int 6.
Proof. vm_compute. reflexivity. Qed.

(** On an RGB image less than three pixels wide the smoothed image is
    the image, and sharpening blends every pixel with itself. *)
Lemma sharpness_50_narrow (t : Image.t) :
  Image.mode t = Image.RGB -> Image.width t < 3 ->
  sharpness_stage 50 t
  = Ok (Image.mk Image.RGB (Image.width t) (Image.height t)
          (fun x y => Image.blend_pixel (C.of_int 6) (Image.getpixel t x y)
                        (Image.getpixel t x y))).
Proof.
  intros Hm Hw. unfold sharpness_stage.
  change (Py.truediv (Py.of_int 50) (Py.of_int 10))
    with (Ok (SFdiv Py.prec Py.emax (Py.of_int 50) (Py.of_int 10))).
  cbn [bind]. rewrite sharpness_factor_50.
  unfold ImageEnhance.Sharpness, ImageEnhance.keep_alpha, ImageFilter.SMOOTH,
    Image.filter_kernel, Image.filter3x3.
  rewrite Hm. destruct (Z.ltb_spec (Image.width t) 3); [|lia].
  cbn [orb bind]. unfold ImageEnhance.enhance, Image.blend, Image.copy.
  rewrite (match_same_shape t t eq_refl eq_refl eq_refl). cbn [negb].
  change (SFeqb (C.of_double (Py.of_int 6)) (S754_zero false)) with false.
  change (SFeqb (C.of_double (Py.of_int 6)) (C.of_int 1)) with false.
  cbv iota. rewrite Hm. reflexivity.
Qed.

(** Sharpness at 50 is the factor 6: on the grey dot it drives the
    centre to white. *)
Example sharpness_50_dot :
  rows_of (sharpness_stage 50 dot3)
  = Ok [[[0; 0; 0]; [0; 0; 0]; [0; 0; 0]];
        [[0; 0; 0]; [255; 255; 255]; [0; 0; 0]];
        [[0; 0; 0]; [0; 0; 0]; [0; 0; 0]]].
Proof. vm_compute. reflexivity. Qed.

(** Hue at 50 changes the one pixel of the leaf-green image. *)
Example hue_50_leaf : rows_of (hue_stage 50 leaf1) = Ok [[[10; 200; 28]]].
Proof. vm_compute. reflexivity. Qed.

Section Neutral.

Variable float_pow : Py.float -> Py.float -> Py.float.

(** A number to the power 1.0 is the number. *)
Hypothesis pow_one : forall x, float_pow x (Py.of_int 1) = x.

(** Gamma at 50: the exponent is 1.0 and the table the identity. *)
Lemma gamma_stage_50 (image : Image.t) :
  gamma_stage float_pow 50 image
  = Image.point_table image
      (concat (repeat (range 256) (Z.to_nat (Image.bands (Image.mode image))))).
Proof.
  unfold gamma_stage.
  change (gamma_value 50) with (Ok (Py.of_int 1)). cbn [bind].
  change (Py.truediv (Py.of_int 1) (Py.of_int 1)) with (Ok (Py.of_int 1)). cbn [bind].
  unfold Image.point. rewrite (gamma_table float_pow (Py.of_int 1) eq_refl). cbn [bind].
  rewrite (map_ext _ (fun p => PyFloat (Py.mul (Py.of_int 255)
                                 (SFdiv Py.prec Py.emax (Py.of_int p) (Py.of_int 255))))).
  - rewrite (mapM_concat_repeat _ _ _ _ gamma_round_50). reflexivity.
  - intros p. unfold gamma_entry. rewrite pow_one. reflexivity.
Qed.

Lemma tone_adjustments_at (self : WorkspacePage) (image : Image.t)
    (e g b c s h t sh : Z) :
  slider_value self "Exposure" = Ok e -> slider_value self "Gamma" = Ok g ->
  slider_value self "Brightness" = Ok b -> slider_value self "Contrast" = Ok c ->
  slider_value self "Saturation" = Ok s -> slider_value self "Hue" = Ok h ->
  slider_value self "Temperature" = Ok t -> slider_value self "Sharpness" = Ok sh ->
  tone_adjustments float_pow self image
  = (im <- exposure_stage e image ;;
     im <- gamma_stage float_pow g im ;;
     im <- brightness_stage b im ;;
     im <- contrast_stage c im ;;
     im <- saturation_stage s im ;;
     im <- hue_stage h im ;;
     im <- temperature_stage t im ;;
     sharpness_stage sh im).
Proof.
  intros He Hg Hb Hc Hs Hh Ht Hsh. unfold tone_adjustments.
  rewrite He, Hg, Hb, Hc, Hs, Hh, Ht, Hsh. reflexivity.
Qed.

(** The chain with every tone slider at 50, stage by stage. *)
Lemma tone_chain_at_50 (self : WorkspacePage) (image : Image.t) :
  Image.valid image ->
  Image.mode image = Image.RGB ->
  0 < Image.width image -> 0 < Image.height image ->
  255 * (Image.width image * Image.height image) < 2 ^ 53 ->
  (forall key, In key tone_sliders -> slider_value self key = Ok 50) ->
  exposure_stage 50 image = Ok image /\
  (exists out, gamma_stage float_pow 50 image = Ok out /\ Image.same out image) /\
  brightness_stage 50 image = Ok image /\
  contrast_stage 50 image = Ok image /\
  saturation_stage 50 image = Ok image /\
  (exists out, temperature_stage 50 image = Ok out /\ Image.same out image) /\
  exists t out,
    Image.mode t = Image.RGB /\
    Image.width t = Image.width image /\
    Image.height t = Image.height image /\
    (forall x y, 0 <= x < Image.width image -> 0 <= y < Image.height image ->
       Image.getpixel t x y = hsv_round_trip (Image.getpixel image x y)) /\
    sharpness_stage 50 t = Ok out /\
    tone_adjustments float_pow self image = Ok out.
Proof.
  intros Hv Hm Hwpos Hhpos Hsize Hs.
  pose proof (Contrast_completes image Hv Hm Hwpos Hhpos Hsize) as Hc.
  assert (Htemp : forall im, Image.valid im -> Image.mode im = Image.RGB ->
            exists out, temperature_stage 50 im = Ok out /\ Image.same out im /\
                        Image.mode out = Image.RGB).
  { intros im Hvi Hmi.
    destruct (temperature_stage_pixels 50 im Hvi Hmi) as [out [E [Hmo [Hw [Hh Hp]]]]].
    exists out. split; [exact E|]. split; [|exact Hmo].
    split; [congruence|]. split; [exact Hw|]. split; [exact Hh|].
    intros x y Hx Hy. rewrite Hw in Hx. rewrite Hh in Hy.
    destruct (Hp x y Hx Hy) as [r [g [b [E1 E2]]]]. rewrite E1, E2. reflexivity. }
  destruct (point_table_identity image Hv) as [g [Eg [Hmg [Hwg [Hhg Hpg]]]]].
  rewrite <- gamma_stage_50 in Eg.
  assert (Hsg : Image.same g image).
  { split; [exact Hmg|]. split; [exact Hwg|]. split; [exact Hhg|].
    intros x y Hx Hy. apply Hpg; congruence. }
  assert (Hvg : Image.valid g).
  { destruct Hv as [Hw0 [Hh0 Hvp]]. split; [congruence|]. split; [congruence|].
    intros x y Hx Hy. rewrite Hwg in Hx. rewrite Hhg in Hy.
    rewrite Hpg, Hmg by assumption. apply Hvp; assumption. }
  split; [apply exposure_50|].
  split; [exists g; split; assumption|].
  split; [apply brightness_50|].
  split; [apply contrast_50, Hc|].
  split; [apply saturation_50, Hm|].
  split.
  { destruct (Htemp image Hv Hm) as [out [E [Hsame _]]]. exists out. split; assumption. }
  destruct (hue_50 g Hvg) as [h1 [Eh [Hvh [Hmh [Hwh [Hhh Hph]]]]]]; [congruence|].
  destruct (Htemp h1 Hvh Hmh) as [t [Et [[_ [Hwt [Hht Hpt]]] Hmt]]].
  destruct (sharpness_completes 50 t) as [out Eout].
  exists t, out. split; [exact Hmt|]. split; [congruence|]. split; [congruence|].
  split.
  { intros x y Hx Hy. rewrite Hpt by congruence.
    rewrite Hph by congruence. rewrite Hpg by assumption. reflexivity. }
  split; [exact Eout|].
  rewrite (tone_adjustments_at self image 50 50 50 50 50 50 50 50)
    by (apply Hs; simpl; tauto).
  rewrite exposure_50. cbn [bind]. rewrite Eg. cbn [bind].
  rewrite brightness_50. cbn [bind].
  rewrite contrast_50 by (apply (Contrast_completes_same image g); [apply same_sym, Hsg | exact Hc]).
  cbn [bind]. rewrite saturation_50 by congruence. cbn [bind].
  rewrite Eh. cbn [bind]. rewrite Et. cbn [bind]. exact Eout.
Qed.

(** C3, as the code has it. With every tone slider at 50, on a valid RGB
    image that is not empty (and of fewer than 2^53 / 255 pixels, so
    that the sums of [ImageStat] are exact), six of the eight
    adjustments return their input pixel-identical:
    exposure, gamma, brightness, contrast, saturation and temperature.
    The chain as a whole returns what the sharpness adjustment, at its
    factor 50 / 10 + 1 = 6, makes of the image [t] whose pixels are the
    pixels of the input converted to HSV and back. *)
Theorem neutral_tone_sliders (self : WorkspacePage) (image : Image.t) :
  Image.valid image ->
  Image.mode image = Image.RGB ->
  0 < Image.width image -> 0 < Image.height image ->
  255 * (Image.width image * Image.height image) < 2 ^ 53 ->
  (forall key, In key tone_sliders -> slider_value self key = Ok 50) ->
  exposure_stage 50 image = Ok image /\
  (exists out, gamma_stage float_pow 50 image = Ok out /\ Image.same out image) /\
  brightness_stage 50 image = Ok image /\
  contrast_stage 50 image = Ok image /\
  saturation_stage 50 image = Ok image /\
  (exists out, temperature_stage 50 image = Ok out /\ Image.same out image) /\
  exists t out,
    Image.mode t = Image.RGB /\
    Image.width t = Image.width image /\
    Image.height t = Image.height image /\
    (forall x y, 0 <= x < Image.width image -> 0 <= y < Image.height image ->
       Image.getpixel t x y = hsv_round_trip (Image.getpixel image x y)) /\
    sharpness_stage 50 t = Ok out /\
    tone_adjustments float_pow self image = Ok out.
Proof. exact (tone_chain_at_50 self image). Qed.

(** On the leaf-green pixel (10, 200, 30) the chain with every slider
    at 50 returns (10, 200, 28). *)
Lemma neutral_sliders_on_leaf :
  rows_of (tone_adjustments float_pow (page_of leaf1 leaf1) leaf1) = Ok [[[10; 200; 28]]].
Proof.
  destruct (tone_chain_at_50 (page_of leaf1 leaf1) leaf1 leaf1_valid eq_refl)
    as [_ [_ [_ [_ [_ [_ [t [out [Hm [Hw [Hh [Hp [Esh Etone]]]]]]]]]]]]].
  - reflexivity.
  - reflexivity.
  - reflexivity.
  - intros key Hk. simpl in Hk.
    repeat (destruct Hk as [<- | Hk]; [reflexivity|]). contradiction.
  - rewrite Etone. rewrite sharpness_50_narrow in Esh by (rewrite ?Hw; cbn; congruence || lia).
    injection Esh as <-. unfold rows_of, Image.rows.
    cbn [Image.width Image.height Image.getpixel]. rewrite Hw, Hh.
    change (Image.width leaf1) with 1. change (Image.height leaf1) with 1.
    change (range 1) with [0]. cbn [map].
    rewrite (Hp 0 0) by (cbn; lia). vm_compute. reflexivity.
Qed.

End Neutral.

(** C3, the counterexample: whatever the power function, as long as a
    number to the power 1.0 is the number, the chain with every tone
    slider at 50 does not return the one-pixel image (10, 200, 30)
    pixel-identical: the pixel comes back as (10, 200, 28). *)
Lemma neutral_sliders_not_identity :
  ~ exists float_pow : Py.float -> Py.float -> Py.float,
      (forall x, float_pow x (Py.of_int 1) = x) /\
      forall (self : WorkspacePage) (image : Image.t),
        Image.valid image -> Image.mode image = Image.RGB ->
        0 < Image.width image -> 0 < Image.height image ->
        (forall key, In key tone_sliders -> slider_value self key = Ok 50) ->
        exists out, tone_adjustments float_pow self image = Ok out /\ Image.same out image.
Proof.
  intros [float_pow [Hone Hclaim]].
  destruct (Hclaim (page_of leaf1 leaf1) leaf1 leaf1_valid eq_refl) as [out [E Hsame]].
  - cbn. lia.
  - cbn. lia.
  - intros key Hk. simpl in Hk.
    repeat (destruct Hk as [<- | Hk]; [reflexivity|]). contradiction.
  - pose proof (neutral_sliders_on_leaf float_pow Hone) as Hrows.
    rewrite E in Hrows. cbn [rows_of] in Hrows.
    apply same_rows in Hsame. rewrite Hsame in Hrows. discriminate Hrows.
Qed.

Lemma neutral_tone_sliders_witness :
  exposure_stage 50 leaf1 = Ok leaf1 /\
  (exists out, gamma_stage (fun x _ => x) 50 leaf1 = Ok out /\ Image.same out leaf1) /\
  brightness_stage 50 leaf1 = Ok leaf1 /\
  contrast_stage 50 leaf1 = Ok leaf1 /\
  saturation_stage 50 leaf1 = Ok leaf1 /\
  (exists out, temperature_stage 50 leaf1 = Ok out /\ Image.same out leaf1) /\
  exists t out,
    Image.mode t = Image.RGB /\
    Image.width t = Image.width leaf1 /\
    Image.height t = Image.height leaf1 /\
    (forall x y, 0 <= x < Image.width leaf1 -> 0 <= y < Image.height leaf1 ->
       Image.getpixel t x y = hsv_round_trip (Image.getpixel leaf1 x y)) /\
    sharpness_stage 50 t = Ok out /\
    tone_adjustments (fun x _ => x) (page_of leaf1 leaf1) leaf1 = Ok out.
Proof.
  apply (neutral_tone_sliders (fun x _ => x) (fun x => eq_refl) (page_of leaf1 leaf1) leaf1
           leaf1_valid eq_refl).
  - reflexivity.
  - reflexivity.
  - reflexivity.
  - intros key Hk. simpl in Hk.
    repeat (destruct Hk as [<- | Hk]; [reflexivity|]). contradiction.
Defined.

(* ================================================================== *)
(** * The random generator in the adjustment computation *)
(* ================================================================== *)

Section Determinism.

Variable float_pow : Py.float -> Py.float -> Py.float.
Variable GaussianBlur : Py.float -> Image.t -> Image.t.





End Determinism.


(** The standard deviation of the noise at the slider value 5 is
    12.75. *)
Example sigma_5_value : sigma_5 = Py.lit 1275 100.
Proof. vm_compute. reflexivity. Qed.


Lemma np_clip_byte (v : Z) : Image.byte (np.clip v 0 255).
Proof. unfold np.clip, Image.byte. lia. Qed.


Section NoisyRuns.

Variable float_pow : Py.float -> Py.float -> Py.float.
Variable GaussianBlur : Py.float -> Image.t -> Image.t.
Hypothesis pow_one : forall x, float_pow x (Py.of_int 1) = x.



End NoisyRuns.


(** The two runs, with the stand-ins for the library functions. *)
Example noisy_runs :
  match apply_all_adjustments pow_stand_in blur_stand_in noisy_page counting with
  | Ok (out1, _, g1) =>
      match apply_all_adjustments pow_stand_in blur_stand_in noisy_page g1 with
      | Ok (out2, _, _) => (Image.rows out1, Image.rows out2)
      | Raise _ => ([], [])
      end
  | Raise _ => ([], [])
  end
  = ([[[100; 112; 125]]], [[[138; 152; 163]]]).
Proof. vm_compute. reflexivity. Qed.

(* ================================================================== *)
(** * The colour filters *)
(* ================================================================== *)

(** An image whose pixels are those of a valid image mapped through a
    function from bytes to bytes is valid. *)
Lemma valid_map_bytes (image out : Image.t) (f : Z -> Z) :
  Image.valid image ->
  Image.mode out = Image.mode image ->
  Image.width out = Image.width image ->
  Image.height out = Image.height image ->
  (forall v, Image.byte v -> Image.byte (f v)) ->
  (forall x y, 0 <= x < Image.width image -> 0 <= y < Image.height image ->
     Image.getpixel out x y = map f (Image.getpixel image x y)) ->
  Image.valid out.
Proof.
  intros [Hw [Hh Hv]] Hm Hwo Hho Hf Hp.
  split; [lia|]. split; [lia|]. intros x y Hx Hy.
  rewrite Hwo in Hx. rewrite Hho in Hy.
  destruct (Hv x y Hx Hy) as [Hlen Hb].
  rewrite Hp, Hm, length_map by assumption. split; [exact Hlen|].
  apply Forall_map. revert Hb. apply Forall_impl. exact Hf.
Qed.

Lemma rgb2l_grey (l : Z) : Image.byte l -> Image.rgb2l l l l = l.
Proof.
  unfold Image.rgb2l, Image.byte. intros Hl.
  rewrite Z.shiftr_div_pow2 by lia. change (2 ^ 16) with 65536.
  symmetry. apply (Z.div_unique _ 65536 l 32768); lia.
Qed.

(** [apply_grayscale] on an RGB image: every pixel becomes its luma,
    three times. *)
Lemma grayscale_pixels (image : Image.t) :
  Image.mode image = Image.RGB ->
  apply_grayscale image
  = Ok (Image.mk Image.RGB (Image.width image) (Image.height image)
          (fun x y =>
             let p := Image.getpixel image x y in
             let l := Image.rgb2l (Image.band 0 p) (Image.band 1 p) (Image.band 2 p) in
             [l; l; l])).
Proof.
  intros Hm. unfold apply_grayscale, Image.convert. rewrite Hm.
  cbn [Image.Mode_eqb Image.convert_pixel bind Image.mode]. reflexivity.
Qed.

(** X1. The Grayscale filter turns every pixel (r, g, b) of an RGB
    image into (l, l, l), with l the luma
    [(19595 r + 38470 g + 7471 b + 32768) >> 16], a byte; the three
    channels of the output are equal, and applying the filter to its
    own output changes nothing. *)
Theorem grayscale_is_idempotent (image : Image.t) :
  Image.valid image ->
  Image.mode image = Image.RGB ->
  exists out,
    apply_grayscale image = Ok out /\
    Image.mode out = Image.RGB /\
    Image.width out = Image.width image /\
    Image.height out = Image.height image /\
    (forall x y, 0 <= x < Image.width image -> 0 <= y < Image.height image ->
       exists r g b l,
         Image.getpixel image x y = [r; g; b] /\
         l = Image.rgb2l r g b /\ Image.byte l /\
         Image.getpixel out x y = [l; l; l]) /\
    exists again, apply_grayscale out = Ok again /\ Image.same again out.
Proof.
  intros Hv Hm. rewrite (grayscale_pixels image Hm).
  eexists. split; [reflexivity|]. cbn [Image.mode Image.width Image.height Image.getpixel].
  repeat (split; [reflexivity|]).
  assert (Hpix : forall x y, 0 <= x < Image.width image -> 0 <= y < Image.height image ->
            exists r g b l,
              Image.getpixel image x y = [r; g; b] /\
              l = Image.rgb2l r g b /\ Image.byte l /\
              (let p := Image.getpixel image x y in
               let l := Image.rgb2l (Image.band 0 p) (Image.band 1 p) (Image.band 2 p) in
               [l; l; l]) = [l; l; l]).
  { intros x y Hx Hy.
    destruct (rgb_pixel_inv image x y Hv Hm Hx Hy) as [r [g [b [E [Hr [Hg Hb]]]]]].
    exists r, g, b, (Image.rgb2l r g b). rewrite E.
    split; [reflexivity|]. split; [reflexivity|].
    split; [apply rgb2l_byte; assumption|reflexivity]. }
  split; [exact Hpix|].
  rewrite grayscale_pixels by reflexivity.
  eexists. split; [reflexivity|].
  cbn [Image.mode Image.width Image.height Image.getpixel].
  split; [reflexivity|]. split; [reflexivity|]. split; [reflexivity|].
  intros x y Hx Hy. destruct (Hpix x y Hx Hy) as [r [g [b [l [E [El [Hl Ep]]]]]]].
  cbn [Image.getpixel]. cbv zeta. rewrite E. cbn [Image.band nth]. rewrite <- El.
  rewrite rgb2l_grey by exact Hl. reflexivity.
Qed.

Lemma grayscale_is_idempotent_witness :
  exists out,
    apply_grayscale leaf1 = Ok out /\
    Image.mode out = Image.RGB /\
    Image.width out = Image.width leaf1 /\
    Image.height out = Image.height leaf1 /\
    (forall x y, 0 <= x < Image.width leaf1 -> 0 <= y < Image.height leaf1 ->
       exists r g b l,
         Image.getpixel leaf1 x y = [r; g; b] /\
         l = Image.rgb2l r g b /\ Image.byte l /\
         Image.getpixel out x y = [l; l; l]) /\
    exists again, apply_grayscale out = Ok again /\ Image.same again out.
Proof. exact (grayscale_is_idempotent leaf1 leaf1_valid eq_refl). Defined.

(** The leaf-green pixel (10, 200, 30) has luma 124. *)
Example grayscale_leaf : rows_of (apply_grayscale leaf1) = Ok [[[124; 124; 124]]].
Proof. reflexivity. Qed.

(** [apply_invert] on an RGB image: every band [v] becomes [255 - v]. *)
Lemma invert_pixels (image : Image.t) :
  Image.valid image -> Image.mode image = Image.RGB ->
  exists out,
    apply_invert image = Ok out /\
    Image.mode out = Image.RGB /\
    Image.width out = Image.width image /\
    Image.height out = Image.height image /\
    forall x y, 0 <= x < Image.width image -> 0 <= y < Image.height image ->
      Image.getpixel out x y = map (fun v => 255 - v) (Image.getpixel image x y).
Proof.
  intros Hv Hm. unfold apply_invert, Image.convert. rewrite Hm.
  cbn [Image.Mode_eqb bind]. unfold Image.copy, ImageOps.invert.
  destruct (_lut_tabulated image (fun i => 255 - i) Hv (or_introl Hm))
    as [out [E [Hmo [Hw [Hh Hp]]]]].
  exists out. split; [exact E|]. split; [congruence|]. split; [exact Hw|].
  split; [exact Hh|]. intros x y Hx Hy. rewrite (Hp x y Hx Hy).
  destruct Hv as [_ [_ Hv]]. destruct (Hv x y Hx Hy) as [_ Hb].
  rewrite Forall_forall in Hb. apply map_ext_in. intros v Hin.
  apply Hb in Hin. unfold Image.byte in Hin. unfold CLIP8. case_cmp; lia.
Qed.

(** X2. The Invert filter replaces every band [v] of an RGB image by
    [255 - v], and is an involution: inverting the inverted image gives
    back the image, pixel for pixel. *)
Theorem invert_is_an_involution (image : Image.t) :
  Image.valid image ->
  Image.mode image = Image.RGB ->
  exists out back,
    apply_invert image = Ok out /\
    (forall x y, 0 <= x < Image.width image -> 0 <= y < Image.height image ->
       Image.getpixel out x y = map (fun v => 255 - v) (Image.getpixel image x y)) /\
    apply_invert out = Ok back /\
    Image.same back image.
Proof.
  intros Hv Hm.
  destruct (invert_pixels image Hv Hm) as [out [E [Hmo [Hw [Hh Hp]]]]].
  assert (Hvo : Image.valid out).
  { apply (valid_map_bytes image out (fun v => 255 - v)); try assumption; try congruence.
    unfold Image.byte. intros v Hb. lia. }
  destruct (invert_pixels out Hvo Hmo) as [back [E2 [Hmb [Hwb [Hhb Hpb]]]]].
  exists out, back. split; [exact E|]. split; [exact Hp|]. split; [exact E2|].
  split; [congruence|]. split; [congruence|]. split; [congruence|].
  intros x y Hx Hy. rewrite Hwb, Hw in Hx. rewrite Hhb, Hh in Hy.
  rewrite Hpb by congruence. rewrite Hp by assumption. rewrite map_map.
  rewrite <- (map_id (Image.getpixel image x y)) at 2.
  apply map_ext. intros v. lia.
Qed.

Lemma invert_is_an_involution_witness :
  exists out back,
    apply_invert leaf1 = Ok out /\
    (forall x y, 0 <= x < Image.width leaf1 -> 0 <= y < Image.height leaf1 ->
       Image.getpixel out x y = map (fun v => 255 - v) (Image.getpixel leaf1 x y)) /\
    apply_invert out = Ok back /\
    Image.same back leaf1.
Proof. exact (invert_is_an_involution leaf1 leaf1_valid eq_refl). Defined.

(** The posterize table on bytes, for 1 to 8 bits: the low
    [8 - bits] bits are cleared. *)
Lemma posterize_mask (bits v : Z) :
  1 <= bits <= 8 -> Image.byte v ->
  CLIP8 (Z.land v (Z.lnot (2 ^ (8 - bits) - 1))) = v - v mod 2 ^ (8 - bits).
Proof.
  intros Hb Hv.
  assert (H : forallb (fun b =>
                forallb (fun v => CLIP8 (Z.land v (Z.lnot (2 ^ (8 - (b + 1)) - 1)))
                                  =? v - v mod 2 ^ (8 - (b + 1)))
                        (range 256))
              (range 8) = true) by (vm_compute; reflexivity).
  apply (forallb_range _ 8 (bits - 1)) in H; [|lia]. cbv beta in H.
  unfold Image.byte in Hv. apply (forallb_range _ 256 v) in H; [|lia]. cbv beta in H.
  replace (bits - 1 + 1) with bits in H by lia. lia.
Qed.

Lemma posterize_pixels (image : Image.t) (bits : Z) :
  Image.valid image -> Image.mode image = Image.RGB -> 1 <= bits <= 8 ->
  exists out,
    apply_posterize image bits = Ok out /\
    Image.mode out = Image.RGB /\
    Image.width out = Image.width image /\
    Image.height out = Image.height image /\
    forall x y, 0 <= x < Image.width image -> 0 <= y < Image.height image ->
      Image.getpixel out x y
      = map (fun v => v - v mod 2 ^ (8 - bits)) (Image.getpixel image x y).
Proof.
  intros Hv Hm Hb. unfold apply_posterize, ImageOps.posterize.
  destruct (Z.ltb_spec 8 bits); [lia|].
  destruct (_lut_tabulated image (fun i => Z.land i (Z.lnot (2 ^ (8 - bits) - 1))) Hv
              (or_introl Hm)) as [out [E [Hmo [Hw [Hh Hp]]]]].
  exists out. split; [exact E|]. split; [congruence|]. split; [exact Hw|].
  split; [exact Hh|]. intros x y Hx Hy. rewrite (Hp x y Hx Hy).
  destruct Hv as [_ [_ Hv]]. destruct (Hv x y Hx Hy) as [_ Hbytes].
  rewrite Forall_forall in Hbytes. apply map_ext_in. intros v Hin.
  apply posterize_mask; [exact Hb|apply Hbytes, Hin].
Qed.

(** X3. The Posterize filter with [bits] bits, 1 to 8 as its slider
    allows, clears the low [8 - bits] bits of every band of an RGB
    image: [v] becomes [v - v mod 2^(8 - bits)].  So every band of the
    output is a multiple of [2^(8 - bits)] (with 1 bit: 0 or 128), 8
    bits leave the image as it is, and posterizing the output again
    changes nothing. *)
Theorem posterize_clears_low_bits (image : Image.t) (bits : Z) :
  Image.valid image ->
  Image.mode image = Image.RGB ->
  1 <= bits <= 8 ->
  exists out again,
    apply_posterize image bits = Ok out /\
    Image.mode out = Image.RGB /\
    Image.width out = Image.width image /\
    Image.height out = Image.height image /\
    (forall x y, 0 <= x < Image.width image -> 0 <= y < Image.height image ->
       Image.getpixel out x y
       = map (fun v => v - v mod 2 ^ (8 - bits)) (Image.getpixel image x y) /\
       Forall (fun v => Image.byte v /\ v mod 2 ^ (8 - bits) = 0) (Image.getpixel out x y) /\
       (bits = 1 -> Forall (fun v => v = 0 \/ v = 128) (Image.getpixel out x y))) /\
    (bits = 8 -> Image.same out image) /\
    apply_posterize out bits = Ok again /\
    Image.same again out.
Proof.
  intros Hv Hm Hb.
  destruct (posterize_pixels image bits Hv Hm Hb) as [out [E [Hmo [Hw [Hh Hp]]]]].
  assert (Hpow : 0 < 2 ^ (8 - bits)) by (apply Z.pow_pos_nonneg; lia).
  assert (Hf : forall v, Image.byte v ->
            Image.byte (v - v mod 2 ^ (8 - bits)) /\
            (v - v mod 2 ^ (8 - bits)) mod 2 ^ (8 - bits) = 0).
  { intros v Hbyte. unfold Image.byte in *.
    pose proof (Z.mod_pos_bound v (2 ^ (8 - bits)) Hpow) as Hr.
    pose proof (Z.mod_le v (2 ^ (8 - bits))) as Hle.
    split; [lia|].
    rewrite (Z.div_mod v (2 ^ (8 - bits))) at 1 by lia.
    replace (2 ^ (8 - bits) * (v / 2 ^ (8 - bits)) + v mod 2 ^ (8 - bits)
             - v mod 2 ^ (8 - bits))
      with (v / 2 ^ (8 - bits) * 2 ^ (8 - bits)) by lia.
    apply Z.mod_mul. lia. }
  assert (Hvo : Image.valid out).
  { apply (valid_map_bytes image out (fun v => v - v mod 2 ^ (8 - bits)));
      try assumption; try congruence. intros v Hbyte. apply Hf, Hbyte. }
  destruct (posterize_pixels out bits Hvo Hmo Hb) as [again [E2 [Hma [Hwa [Hha Hpa]]]]].
  exists out, again. split; [exact E|]. split; [exact Hmo|]. split; [exact Hw|].
  split; [exact Hh|].
  assert (Hbytes : forall x y, 0 <= x < Image.width image -> 0 <= y < Image.height image ->
            Forall Image.byte (Image.getpixel image x y)).
  { intros x y Hx Hy. destruct Hv as [_ [_ Hv]]. apply (Hv x y Hx Hy). }
  assert (Hout : forall x y, 0 <= x < Image.width image -> 0 <= y < Image.height image ->
            Forall (fun v => Image.byte v /\ v mod 2 ^ (8 - bits) = 0)
                   (Image.getpixel out x y)).
  { intros x y Hx Hy. rewrite (Hp x y Hx Hy). apply Forall_map.
    generalize (Hbytes x y Hx Hy). apply Forall_impl. exact Hf. }
  split; [|split; [|split]].
  - intros x y Hx Hy. split; [apply Hp; assumption|]. split; [apply Hout; assumption|].
    intros ->. generalize (Hout x y Hx Hy). apply Forall_impl.
    intros v [Hbyte Hmod]. change (2 ^ (8 - 1)) with 128 in Hmod.
    unfold Image.byte in Hbyte.
    rewrite (Z.div_mod v 128) in Hbyte |- * by lia. rewrite Hmod in *. lia.
  - intros ->. split; [congruence|]. split; [exact Hw|]. split; [exact Hh|].
    intros x y Hx Hy. rewrite Hw in Hx. rewrite Hh in Hy. rewrite (Hp x y Hx Hy).
    rewrite <- (map_id (Image.getpixel image x y)) at 2.
    apply map_ext. intros v. change (2 ^ (8 - 8)) with 1. rewrite Z.mod_1_r. lia.
  - exact E2.
  - split; [congruence|]. split; [exact Hwa|]. split; [exact Hha|].
    intros x y Hx Hy. rewrite Hwa, Hw in Hx. rewrite Hha, Hh in Hy.
    rewrite Hpa by congruence.
    rewrite <- (map_id (Image.getpixel out x y)) at 2.
    apply map_ext_in. intros v Hin.
    pose proof (Hout x y Hx Hy) as Ho. rewrite Forall_forall in Ho.
    destruct (Ho v Hin) as [_ Hmod]. lia.
Qed.

Lemma posterize_clears_low_bits_witness :
  exists out again,
    apply_posterize leaf1 1 = Ok out /\
    Image.mode out = Image.RGB /\
    Image.width out = Image.width leaf1 /\
    Image.height out = Image.height leaf1 /\
    (forall x y, 0 <= x < Image.width leaf1 -> 0 <= y < Image.height leaf1 ->
       Image.getpixel out x y
       = map (fun v => v - v mod 2 ^ (8 - 1)) (Image.getpixel leaf1 x y) /\
       Forall (fun v => Image.byte v /\ v mod 2 ^ (8 - 1) = 0) (Image.getpixel out x y) /\
       (1 = 1 -> Forall (fun v => v = 0 \/ v = 128) (Image.getpixel out x y))) /\
    (1 = 8 -> Image.same out leaf1) /\
    apply_posterize out 1 = Ok again /\
    Image.same again out.
Proof. apply (posterize_clears_low_bits leaf1 1 leaf1_valid eq_refl). lia. Defined.

(** With one bit the leaf-green pixel (10, 200, 30) becomes (0, 128, 0). *)
Example posterize_leaf_1 : rows_of (apply_posterize leaf1 1) = Ok [[[0; 128; 0]]].
Proof. vm_compute. reflexivity. Qed.

(** The table of [ImageOps.colorize] from blue to yellow, read at the
    grey level [l] in the three bands. *)
Lemma colorize_table (l : Z) :
  Image.byte l ->
  Image.lookup_bands
    (map CLIP8
       ((map (fun i => 0 + i * (255 - 0) / 255) (range 255) ++ [255])
        ++ (map (fun i => 0 + i * (255 - 0) / 255) (range 255) ++ [255])
        ++ (map (fun i => 255 + i * (0 - 255) / 255) (range 255) ++ [0])))
    0 [l; l; l]
  = [l; l; 255 - l].
Proof.
  intros Hl.
  set (table := map CLIP8 _).
  assert (H : forallb (fun l => match Image.lookup_bands table 0 [l; l; l] with
                                | [a; b; c] => (a =? l) && (b =? l) && (c =? 255 - l)
                                | _ => false
                                end) (range 256) = true) by (vm_compute; reflexivity).
  unfold Image.byte in Hl. apply (forallb_range _ 256 l) in H; [|lia]. cbv beta in H.
  destruct (Image.lookup_bands table 0 [l; l; l]) as [|a [|b [|c [|]]]]; try discriminate H.
  apply andb_prop in H. destruct H as [H Hc]. apply andb_prop in H. destruct H as [Ha Hb].
  f_equal; [lia|]. f_equal; [lia|]. f_equal. lia.
Qed.

(** X4. The Colorize filter maps every pixel (r, g, b) of an RGB image
    to (l, l, 255 - l), with l the luma of the pixel: black becomes
    blue (0, 0, 255), white becomes yellow (255, 255, 0), and red and
    green always carry the grey level while blue carries its
    inverse. *)
Theorem colorize_blue_to_yellow (image : Image.t) :
  Image.valid image ->
  Image.mode image = Image.RGB ->
  exists out,
    apply_colorize image = Ok out /\
    Image.mode out = Image.RGB /\
    Image.width out = Image.width image /\
    Image.height out = Image.height image /\
    forall x y, 0 <= x < Image.width image -> 0 <= y < Image.height image ->
      exists r g b l,
        Image.getpixel image x y = [r; g; b] /\
        l = Image.rgb2l r g b /\ Image.byte l /\
        Image.getpixel out x y = [l; l; 255 - l].
Proof.
  intros Hv Hm. unfold apply_colorize, Image.convert. rewrite Hm.
  cbn [Image.Mode_eqb Image.convert_pixel bind].
  change (getrgb "blue") with (Ok (0, 0, 255)).
  change (getrgb "yellow") with (Ok (255, 255, 0)). cbn [bind].
  unfold ImageOps.colorize, Image.convert.
  cbn [Image.mode Image.Mode_eqb Image.convert_pixel bind Image.width Image.height
       Image.getpixel].
  unfold ImageOps._lut, Image.point_list, Image.point_table. cbn [Image.mode].
  match goal with
  | |- context [if ?c then _ else _] => change c with false
  end. cbv iota.
  match goal with
  | |- context [if ?c then _ else _] => change c with true
  end. cbv iota.
  eexists. split; [reflexivity|].
  cbn [Image.mode Image.width Image.height Image.getpixel].
  repeat (split; [reflexivity|]).
  intros x y Hx Hy.
  destruct (rgb_pixel_inv image x y Hv Hm Hx Hy) as [r [g [b [E [Hr [Hg Hb]]]]]].
  exists r, g, b, (Image.rgb2l r g b). rewrite E. cbn [Image.band nth].
  pose proof (rgb2l_byte r g b Hr Hg Hb) as Hl.
  split; [reflexivity|]. split; [reflexivity|]. split; [exact Hl|].
  apply colorize_table, Hl.
Qed.

Lemma colorize_blue_to_yellow_witness :
  exists out,
    apply_colorize leaf1 = Ok out /\
    Image.mode out = Image.RGB /\
    Image.width out = Image.width leaf1 /\
    Image.height out = Image.height leaf1 /\
    forall x y, 0 <= x < Image.width leaf1 -> 0 <= y < Image.height leaf1 ->
      exists r g b l,
        Image.getpixel leaf1 x y = [r; g; b] /\
        l = Image.rgb2l r g b /\ Image.byte l /\
        Image.getpixel out x y = [l; l; 255 - l].
Proof. exact (colorize_blue_to_yellow leaf1 leaf1_valid eq_refl). Defined.

(* ================================================================== *)
(** * The tone sliders at 0 *)
(* ================================================================== *)

Lemma div50_0 : Py.truediv (Py.of_int 0) (Py.of_int 50) = Ok (S754_zero false).
Proof. reflexivity. Qed.

Lemma brightness_enhance_0 (image : Image.t) :
  Image.mode image = Image.RGB ->
  brightness_enhance image (S754_zero false)
  = Ok (Image.new Image.RGB (Image.size image) [0; 0; 0]).
Proof.
  intros Hm. unfold brightness_enhance, ImageEnhance.Brightness, ImageEnhance.enhance.
  cbn [bind]. rewrite blend_0 by (apply keep_alpha_match; reflexivity).
  unfold ImageEnhance.keep_alpha, Image.copy. rewrite Hm. reflexivity.
Qed.

(** X5. With the Exposure slider at 0, and likewise with the
    Brightness slider at 0, the adjustment returns the all-black image
    of the size of its input: the factor [slider / 50.0] is 0, and
    the enhancement at factor 0 is its degenerate image. *)
Theorem exposure_and_brightness_at_0 (image : Image.t) :
  Image.mode image = Image.RGB ->
  exposure_stage 0 image = Ok (Image.new Image.RGB (Image.size image) [0; 0; 0]) /\
  brightness_stage 0 image = Ok (Image.new Image.RGB (Image.size image) [0; 0; 0]).
Proof.
  intros Hm. unfold exposure_stage, brightness_stage. rewrite div50_0. cbn [bind].
  split; apply brightness_enhance_0, Hm.
Qed.

Lemma exposure_and_brightness_at_0_witness :
  exposure_stage 0 leaf1 = Ok (Image.new Image.RGB (Image.size leaf1) [0; 0; 0]) /\
  brightness_stage 0 leaf1 = Ok (Image.new Image.RGB (Image.size leaf1) [0; 0; 0]).
Proof. exact (exposure_and_brightness_at_0 leaf1 eq_refl). Defined.

(** X6. With the Saturation slider at 0 the adjustment returns what
    the Grayscale filter returns on the same RGB image: the degenerate
    image of the colour enhancement is the image converted to L and
    back. *)
Theorem saturation_0_is_grayscale (image : Image.t) :
  Image.mode image = Image.RGB ->
  saturation_stage 0 image = apply_grayscale image.
Proof.
  intros Hm. unfold saturation_stage. rewrite div50_0. cbn [bind].
  rewrite (grayscale_pixels image Hm).
  unfold ImageEnhance.Color, Image.convert. rewrite Hm.
  cbn [Image.Mode_eqb Image.convert_pixel bind Image.mode Image.width Image.height
       Image.getpixel].
  unfold ImageEnhance.enhance.
  rewrite blend_0.
  - unfold ImageEnhance.keep_alpha, Image.copy. rewrite Hm. reflexivity.
  - apply keep_alpha_match; cbn [Image.mode Image.width Image.height]; congruence.
Qed.

Lemma saturation_0_is_grayscale_witness :
  saturation_stage 0 leaf1 = apply_grayscale leaf1.
Proof. exact (saturation_0_is_grayscale leaf1 eq_refl). Defined.

(** X7. With the Contrast slider at 0 the adjustment returns, for an
    RGB image that is not empty, the uniform image of its mean grey:
    every pixel is (m, m, m), with m the mean luma of the image plus
    one half, truncated. *)
Theorem contrast_0_is_the_mean_grey (image : Image.t) :
  Image.valid image ->
  Image.mode image = Image.RGB ->
  0 < Image.width image -> 0 < Image.height image ->
  255 * (Image.width image * Image.height image) < 2 ^ 53 ->
  exists mean,
    ImageEnhance.mean_grey image = Ok mean /\
    contrast_stage 0 image
    = Ok (Image.mk Image.RGB (Image.width image) (Image.height image)
            (fun _ _ => [CLIP8 mean; CLIP8 mean; CLIP8 mean])).
Proof.
  intros Hv Hm Hw Hh Hsize.
  destruct (Contrast_completes image Hv Hm Hw Hh Hsize) as [d Hd].
  unfold contrast_stage. rewrite div50_0. cbn [bind].
  unfold ImageEnhance.Contrast in *.
  destruct (ImageEnhance.mean_grey image) as [mean|]; [|discriminate Hd].
  exists mean. split; [reflexivity|]. cbn [bind] in *.
  unfold Image.convert, Image.new, Image.size in *. rewrite Hm in *.
  cbn [Image.mode Image.Mode_eqb Image.convert_pixel bind Image.width Image.height
       Image.getpixel fst snd Image.band nth] in *.
  unfold ImageEnhance.enhance. rewrite blend_0.
  - unfold ImageEnhance.keep_alpha, Image.copy. rewrite Hm. reflexivity.
  - apply keep_alpha_match; cbn [Image.mode Image.width Image.height]; congruence.
Qed.

Lemma contrast_0_is_the_mean_grey_witness :
  exists mean,
    ImageEnhance.mean_grey leaf1 = Ok mean /\
    contrast_stage 0 leaf1
    = Ok (Image.mk Image.RGB (Image.width leaf1) (Image.height leaf1)
            (fun _ _ => [CLIP8 mean; CLIP8 mean; CLIP8 mean])).
Proof.
  apply (contrast_0_is_the_mean_grey leaf1 leaf1_valid eq_refl); reflexivity.
Defined.

Lemma div10_0 : Py.truediv (Py.of_int 0) (Py.of_int 10) = Ok (S754_zero false).
Proof. reflexivity. Qed.

(** X8. The Sharpness slider is neutral at 0, not at 50: its factor is
    [slider / 10.0 + 1], which is 1.0 at 0, and at factor 1.0 the
    enhancement returns the image unchanged, whatever the image. *)
Theorem sharpness_0_is_neutral (image : Image.t) :
  sharpness_stage 0 image = Ok image /\
  Py.add (S754_zero false) (Py.of_int 1) = Py.of_int 1 /\
  (q <- Py.truediv (Py.of_int 50) (Py.of_int 10) ;; Ok (Py.add q (Py.of_int 1)))
  = Ok (Py.of_int 6).
Proof.
  split; [|split; reflexivity].
  unfold sharpness_stage. rewrite div10_0. cbn [bind].
  change (Py.add (S754_zero false) (Py.of_int 1)) with (Py.of_int 1).
  unfold ImageEnhance.Sharpness, ImageEnhance.enhance. cbn [bind].
  apply blend_1, keep_alpha_match; apply SMOOTH_shape.
Qed.

(* ================================================================== *)
(** * Noise and tint *)
(* ================================================================== *)

Lemma add_noise_bytes (noise : nat -> Py.float) (k : nat) (p : Image.pixel) :
  length (add_noise noise k p) = length p /\ Forall Image.byte (add_noise noise k p).
Proof.
  revert k. induction p as [|v p IH]; intros k; cbn [add_noise length].
  - split; [reflexivity|constructor].
  - destruct (IH (S k)) as [Hlen Hb]. split; [congruence|].
    constructor; [apply np_clip_byte|exact Hb].
Qed.

(** At the slider values 0 to 50 the standard deviation
    [slider / 100 * 255] is not negative. *)
Lemma noise_scale_not_negative (v : Z) :
  0 <= v <= 50 ->
  Float.is_neg (Py.mul (SFdiv Py.prec Py.emax (Py.of_int v) (Py.of_int 100)) (Py.of_int 255))
  = false.
Proof.
  intros Hv.
  assert (H : forallb (fun v => negb (Float.is_neg
                (Py.mul (SFdiv Py.prec Py.emax (Py.of_int v) (Py.of_int 100))
                        (Py.of_int 255)))) (range 51) = true) by (vm_compute; reflexivity).
  apply (forallb_range _ 51 v) in H; [|lia]. cbv beta in H.
  apply negb_true_iff in H. exact H.
Qed.

(** Noise of standard deviation 0 adds 0 to every entry. *)
Lemma zero_noise (z : Py.float) :
  Float.is_finite z = true ->
  np.astype_int16 (Py.add (Py.of_int 0) (Py.mul (S754_zero false) z)) = 0.
Proof. destruct z as [s|s| |s m e]; try discriminate; intros _; destruct s; reflexivity. Qed.

Lemma add_zero_noise (noise : nat -> Py.float) (k : nat) (p : Image.pixel) :
  (forall j, np.astype_int16 (noise j) = 0) ->
  Forall Image.byte p -> add_noise noise k p = p.
Proof.
  intros Hn Hp. revert k. induction Hp as [|v p Hv Hp IH]; intros k; cbn [add_noise].
  - reflexivity.
  - rewrite Hn, IH. f_equal. unfold Image.byte in Hv. unfold np.clip, np.wrap16.
    rewrite Z.mod_small by lia. lia.
Qed.

(** X9. The Noise filter, ticked and with its slider at any value from
    0 to 50, returns for every RGB image an RGB image of the same size
    whose bands are bytes, whatever the deviates: the sum is clipped to
    0..255.  It takes exactly [height * width * 3] deviates from the
    generator, also at slider value 0, where it returns the image
    pixel-identical. *)
Theorem noise_filter_clips_and_draws (self : WorkspacePage) (g : np.RandomState)
    (image : Image.t) (v : Z) :
  isChecked self "Noise" = Ok true ->
  slider_value self "Noise" = Ok v ->
  0 <= v <= 50 ->
  Image.valid image ->
  Image.mode image = Image.RGB ->
  exists out,
    noise_filter self g image
    = Ok (out, fun k => g (Z.to_nat (Image.height image * Image.width image * 3) + k)%nat) /\
    Image.valid out /\
    Image.mode out = Image.RGB /\
    Image.width out = Image.width image /\
    Image.height out = Image.height image /\
    (v = 0 -> (forall k, Float.is_finite (g k) = true) -> Image.same out image).
Proof.
  intros Hc Hs Hv Hvalid Hm.
  unfold noise_filter. rewrite Hc, Hs. cbn [bind]. rewrite div100_Ok. cbn [bind].
  unfold apply_noise, np.normal. rewrite (noise_scale_not_negative v Hv). cbn [bind].
  destruct Hvalid as [Hw [Hh Hpix]].
  rewrite !Z.max_r by lia. rewrite Hm. cbn [Image.bands np.fromarray_mode].
  eexists. split; [reflexivity|].
  cbn [Image.mode Image.width Image.height Image.getpixel].
  split; [|split; [reflexivity|split; [reflexivity|split; [reflexivity|]]]].
  - split; [exact Hw|]. split; [exact Hh|]. intros x y Hx Hy.
    cbn [Image.mode Image.width Image.height Image.getpixel] in *.
    destruct (Hpix x y Hx Hy) as [Hlen _].
    destruct (add_noise_bytes
                (fun k => Py.add (Py.of_int 0)
                            (Py.mul (Py.mul (SFdiv Py.prec Py.emax (Py.of_int v) (Py.of_int 100))
                                            (Py.of_int 255)) (g k)))
                (Z.to_nat ((y * Image.width image + x) * 3)) (Image.getpixel image x y))
      as [Hl Hb].
    split; [|exact Hb]. rewrite Hl, Hm in *. exact Hlen.
  - intros -> Hfin. split; [symmetry; exact Hm|]. split; [reflexivity|]. split; [reflexivity|].
    intros x y Hx Hy. cbn [Image.getpixel Image.width Image.height] in *.
    destruct (Hpix x y Hx Hy) as [_ Hb].
    apply add_zero_noise; [|exact Hb].
    intros j.
    change (Py.mul (SFdiv Py.prec Py.emax (Py.of_int 0) (Py.of_int 100)) (Py.of_int 255))
      with (S754_zero false).
    apply zero_noise, Hfin.
Qed.

Lemma noise_filter_clips_and_draws_witness :
  exists out,
    noise_filter noisy_page counting grey1
    = Ok (out, fun k => counting (Z.to_nat (Image.height grey1 * Image.width grey1 * 3) + k)%nat) /\
    Image.valid out /\
    Image.mode out = Image.RGB /\
    Image.width out = Image.width grey1 /\
    Image.height out = Image.height grey1 /\
    (5 = 0 -> (forall k, Float.is_finite (counting k) = true) -> Image.same out grey1).
Proof.
  apply (noise_filter_clips_and_draws noisy_page counting grey1 5).
  - reflexivity.
  - reflexivity.
  - lia.
  - split; [cbn; lia|]. split; [cbn; lia|]. intros x y _ _. split; [reflexivity|].
    repeat constructor; unfold Image.byte; lia.
  - reflexivity.
Defined.

(** X10. The Tint filter, ticked, completes on every RGB image for
    every slider value and leaves a tint colour stored: the colour the
    page had, or pink (255, 105, 180) when the attribute was never
    set.  At slider value 0 the image comes back as it is, at 100 it is
    the solid tint colour. *)
Theorem tint_filter_colour_and_ends (self : WorkspacePage) (image : Image.t) (v : Z) :
  isChecked self "Tint" = Ok true ->
  slider_value self "Tint" = Ok v ->
  Image.mode image = Image.RGB ->
  exists color,
    color = match tint_color self with
            | Some c => c
            | None => Qt.mkColor true 255 105 180
            end /\
    (exists out, tint_filter self image = Ok (out, Some color)) /\
    (v = 0 -> tint_filter self image = Ok (image, Some color)) /\
    (v = 100 ->
     tint_filter self image
     = Ok (Image.new Image.RGB (Image.size image) (rgb_pixel (Qt.getRgb3 color)), Some color)).
Proof.
  intros Hc Hs Hm. eexists. split; [reflexivity|].
  unfold tint_filter. rewrite Hc, Hs. cbn [bind]. rewrite div100_Ok. cbn [bind].
  unfold apply_tint.
  change (Qt.fromName (Some "#FF69B4"%string)) with (Qt.mkColor true 255 105 180).
  set (color := match tint_color self with
                | Some c => c
                | None => Qt.mkColor true 255 105 180
                end).
  set (overlay := Image.new Image.RGB (Image.size image) (rgb_pixel (Qt.getRgb3 color))).
  assert (Hmatch : Image.match_ image overlay = true)
    by (apply match_same_shape; [exact Hm|reflexivity|reflexivity]).
  split; [|split].
  - destruct (blend_completes image overlay
                (SFdiv Py.prec Py.emax (Py.of_int v) (Py.of_int 100)) Hmatch) as [out E].
    exists out. rewrite E. reflexivity.
  - intros ->.
    change (SFdiv Py.prec Py.emax (Py.of_int 0) (Py.of_int 100)) with (S754_zero false).
    rewrite blend_0 by exact Hmatch. reflexivity.
  - intros ->.
    change (SFdiv Py.prec Py.emax (Py.of_int 100) (Py.of_int 100)) with (Py.of_int 1).
    rewrite blend_1 by exact Hmatch. reflexivity.
Qed.

Lemma tint_filter_colour_and_ends_witness :
  exists color,
    color = match tint_color (tick (page_of leaf1 leaf1) "Tint") with
            | Some c => c
            | None => Qt.mkColor true 255 105 180
            end /\
    (exists out, tint_filter (tick (page_of leaf1 leaf1) "Tint") leaf1 = Ok (out, Some color)) /\
    (30 = 0 -> tint_filter (tick (page_of leaf1 leaf1) "Tint") leaf1 = Ok (leaf1, Some color)) /\
    (30 = 100 ->
     tint_filter (tick (page_of leaf1 leaf1) "Tint") leaf1
     = Ok (Image.new Image.RGB (Image.size leaf1) (rgb_pixel (Qt.getRgb3 color)), Some color)).
Proof.
  apply (tint_filter_colour_and_ends (tick (page_of leaf1 leaf1) "Tint") leaf1 30);
    reflexivity.
Defined.

(** The tint the reset leaves: the colour made of the data of the first
    item of the last dropdown. *)
Lemma reset_dropdowns_tint (d : list (string * Qt.QComboBox)) (tint : option Qt.QColor)
    (key : string) (last : Qt.QComboBox) :
  snd (reset_dropdowns (d ++ [(key, last)]) tint)
  = Some (Qt.fromName (Qt.itemData (Qt.setCurrentIndex last 0) 0)).
Proof.
  revert tint. induction d as [|[k c] d IH]; intros tint.
  - reflexivity.
  - cbn [app reset_dropdowns]. specialize (IH (Some (Qt.fromName (Qt.itemData
                                                     (Qt.setCurrentIndex c 0) 0)))).
    destruct (reset_dropdowns (d ++ [(key, last)]) _). exact IH.
Qed.

(** X11. A change of style leaves the tint colour black, whatever it
    was: the reset calls [set_tint_color] with the data of the first
    item of every dropdown in turn, the Frame dropdown comes last and
    its items carry no data, and the colour made of no data is the
    invalid colour, whose RGB value is (0, 0, 0).  The Tint dropdown
    meanwhile shows Pink.  So the Tint filter at 100 then gives a black
    image. *)
Theorem reset_leaves_the_tint_black (self : WorkspacePage) (loaded image : Image.t)
    (tint frame : Qt.QComboBox) :
  dropdowns self = [("Tint"%string, tint); ("Frame"%string, frame)] ->
  Qt.items tint = tint_colors ->
  Qt.items frame = frame_styles ->
  Image.mode image = Image.RGB ->
  tint_color (reset_controls self loaded) = Some Qt.invalid /\
  Qt.getRgb3 Qt.invalid = (0, 0, 0) /\
  (exists dd, dict_get (dropdowns (reset_controls self loaded)) "Tint" = Ok dd /\
              Qt.currentText dd = "Pink"%string /\
              Qt.fromName (Qt.itemData dd 0) = Qt.mkColor true 255 105 180) /\
  apply_tint image (Py.of_int 1) (tint_color (reset_controls self loaded))
  = Ok (Image.new Image.RGB (Image.size image) [0; 0; 0], Some Qt.invalid).
Proof.
  intros Hd Ht Hf Hm.
  assert (Htint : tint_color (reset_controls self loaded) = Some Qt.invalid).
  { unfold reset_controls.
    pose proof (reset_dropdowns_tint [("Tint"%string, tint)] (tint_color self) "Frame" frame)
      as H.
    cbn [app] in H. rewrite <- Hd in H.
    destruct (reset_dropdowns (dropdowns self) (tint_color self)) as [dd t].
    cbn [snd] in H. cbn [tint_color]. rewrite H.
    unfold Qt.itemData, Qt.setCurrentIndex. cbn [Qt.items]. rewrite Hf. reflexivity. }
  split; [exact Htint|]. split; [reflexivity|]. split.
  - unfold reset_controls. rewrite Hd. cbn [reset_dropdowns].
    cbn [dropdowns dict_get String.eqb Ascii.eqb Bool.eqb].
    eexists. split; [reflexivity|].
    unfold Qt.currentText, Qt.itemData, Qt.setCurrentIndex.
    cbn [Qt.items Qt.currentIndex]. rewrite Ht. split; reflexivity.
  - rewrite Htint. unfold apply_tint.
    rewrite blend_1 by (apply match_same_shape; [exact Hm|reflexivity|reflexivity]).
    reflexivity.
Qed.

Lemma reset_leaves_the_tint_black_witness :
  tint_color (reset_controls (page_of leaf1 leaf1) leaf1) = Some Qt.invalid /\
  Qt.getRgb3 Qt.invalid = (0, 0, 0) /\
  (exists dd, dict_get (dropdowns (reset_controls (page_of leaf1 leaf1) leaf1)) "Tint" = Ok dd /\
              Qt.currentText dd = "Pink"%string /\
              Qt.fromName (Qt.itemData dd 0) = Qt.mkColor true 255 105 180) /\
  apply_tint leaf1 (Py.of_int 1) (tint_color (reset_controls (page_of leaf1 leaf1) leaf1))
  = Ok (Image.new Image.RGB (Image.size leaf1) [0; 0; 0], Some Qt.invalid).
Proof.
  exact (reset_leaves_the_tint_black (page_of leaf1 leaf1) leaf1 leaf1
           (Qt.mkCombo tint_colors 0) (Qt.mkCombo frame_styles 0)
           eq_refl eq_refl eq_refl eq_refl).
Defined.

(* ================================================================== *)
(** * The adjustment computation as a whole *)
(* ================================================================== *)

Section Whole.

Variable float_pow : Py.float -> Py.float -> Py.float.
Variable GaussianBlur : Py.float -> Image.t -> Image.t.

(** X12. The adjustment computation starts with [Image.blend], which
    refuses images that differ in size before it looks at the blend
    fraction: when the base image and the styled image differ in width
    or in height the computation raises [ValueError], whatever the
    controls say, also with the Transition slider at 0 or 100 where
    only one of the two images would be shown. *)
Theorem adjustments_need_equal_sizes (self : WorkspacePage) (g : np.RandomState)
    (s : Qt.QSlider) :
  dict_get (sliders self) "Transition" = Ok s ->
  Image.width (baseline_image self) <> Image.width (original_image self)
  \/ Image.height (baseline_image self) <> Image.height (original_image self) ->
  apply_all_adjustments float_pow GaussianBlur self g = Raise ValueError.
Proof.
  intros Hs Hsize. unfold apply_all_adjustments, blend_stage, slider_value.
  rewrite Hs. cbn [bind]. rewrite div100_Ok. cbn [bind].
  unfold Image.blend, Image.match_, Image.copy.
  assert (Hno : (Image.bands (Image.mode (baseline_image self))
                 =? Image.bands (Image.mode (original_image self)))
                && (Image.width (baseline_image self) =? Image.width (original_image self))
                && (Image.height (baseline_image self) =? Image.height (original_image self))
                = false).
  { destruct Hsize as [H | H]; apply Z.eqb_neq in H; rewrite H.
    - rewrite andb_false_r. reflexivity.
    - rewrite andb_false_r. reflexivity. }
  rewrite Hno. reflexivity.
Qed.






Hypothesis pow_one : forall x, float_pow x (Py.of_int 1) = x.


End Whole.

Lemma adjustments_need_equal_sizes_witness :
  apply_all_adjustments pow_stand_in blur_stand_in (page_of dot3 leaf1) counting
  = Raise ValueError.
Proof.
  apply (adjustments_need_equal_sizes pow_stand_in blur_stand_in (page_of dot3 leaf1) counting
           (Qt.newSlider 0 100 100)).
  - reflexivity.
  - left. cbn. lia.
Defined.


(* ================================================================== *)
(** * Rounding does not step over an integer *)
(* ================================================================== *)

Lemma divide_pow2_split (a p q : Z) :
  0 <= p -> 0 <= q -> (2 ^ (p + q) | a) -> (2 ^ p | a) /\ (2 ^ q | a / 2 ^ p).
Proof.
  intros Hp Hq [c Hc]. rewrite Z.pow_add_r in Hc by lia.
  assert (0 < 2 ^ p) by (apply Z.pow_pos_nonneg; lia).
  split.
  - exists (c * 2 ^ q). lia.
  - exists c. subst a.
    replace (c * (2 ^ p * 2 ^ q)) with (c * 2 ^ q * 2 ^ p) by lia.
    rewrite Z.div_mul by lia. reflexivity.
Qed.

Lemma shr_1_exact (mrs : shr_record) :
  0 <= shr_m mrs -> shr_r mrs = false -> shr_s mrs = false -> (2 | shr_m mrs) ->
  shr_r (shr_1 mrs) = false /\ shr_s (shr_1 mrs) = false.
Proof.
  destruct mrs as [m r s]. cbn [shr_m shr_r shr_s]. intros Hm -> -> [c Hc].
  destruct m as [|p|p]; [split; reflexivity| |lia].
  destruct p as [p|p|]; [lia|split; reflexivity|lia].
Qed.

(** Shifting out bits that are all zero leaves an exact location. *)
Lemma shr_iter_exact (p : positive) (mrs : shr_record) :
  0 <= shr_m mrs -> shr_r mrs = false -> shr_s mrs = false -> (2 ^ Zpos p | shr_m mrs) ->
  shr_r (iter_pos shr_1 p mrs) = false /\ shr_s (iter_pos shr_1 p mrs) = false.
Proof.
  revert mrs. induction p as [p IH|p IH|]; intros mrs Hm Hr Hs Hd; cbn [iter_pos].
  - rewrite (Pos2Z.inj_xI p) in Hd.
    replace (2 * Zpos p + 1) with (1 + (Zpos p + Zpos p)) in Hd by lia.
    apply divide_pow2_split in Hd; [|lia|lia]. destruct Hd as [H1 H2].
    change (2 ^ 1) with 2 in H1, H2.
    apply divide_pow2_split in H2; [|lia|lia]. destruct H2 as [H2 H3].
    destruct (shr_1_exact mrs Hm Hr Hs H1) as [Hr1 Hs1].
    assert (Hm1 : 0 <= shr_m (shr_1 mrs)) by (rewrite shr_1_m by exact Hm; apply Z.div_pos; lia).
    rewrite <- (shr_1_m mrs Hm) in H2, H3.
    destruct (IH (shr_1 mrs) Hm1 Hr1 Hs1 H2) as [Hr2 Hs2].
    assert (Hm2 : 0 <= shr_m (iter_pos shr_1 p (shr_1 mrs))).
    { rewrite shr_iter_m by exact Hm1. apply Z.div_pos; [exact Hm1|].
      apply Z.pow_pos_nonneg; lia. }
    apply IH; try assumption. rewrite shr_iter_m by exact Hm1. exact H3.
  - rewrite (Pos2Z.inj_xO p) in Hd.
    replace (2 * Zpos p) with (Zpos p + Zpos p) in Hd by lia.
    apply divide_pow2_split in Hd; [|lia|lia]. destruct Hd as [H2 H3].
    destruct (IH mrs Hm Hr Hs H2) as [Hr2 Hs2].
    assert (Hm2 : 0 <= shr_m (iter_pos shr_1 p mrs)).
    { rewrite shr_iter_m by exact Hm. apply Z.div_pos; [exact Hm|].
      apply Z.pow_pos_nonneg; lia. }
    apply IH; try assumption. rewrite shr_iter_m by exact Hm. exact H3.
  - apply shr_1_exact; assumption.
Qed.

Lemma loc_of_shr_record_of_loc (m : Z) (l : location) :
  loc_of_shr_record (shr_record_of_loc m l) = l.
Proof. destruct l as [|[| |]]; reflexivity. Qed.

Section AtMost.
Variables prec emax : Z.
Hypothesis prec_pos : 0 < prec.
Hypothesis prec_emax : 2 * prec <= emax.

(** [shr_fexp] on an exact number: the mantissa divided by the power
    of two that is shifted out, and an exact location again when the
    division is exact. *)
Lemma shr_fexp_exact (m e : Z) :
  0 <= m ->
  exists mrs e' n,
    shr_fexp prec emax m e loc_Exact = (mrs, e') /\
    n = Z.max 0 (fexp prec emax (Zdigits2 m + e) - e) /\
    e' = e + n /\
    shr_m mrs = m / 2 ^ n /\
    ((2 ^ n | m) -> loc_of_shr_record mrs = loc_Exact).
Proof.
  intros Hm. unfold shr_fexp, shr.
  destruct (fexp prec emax (Zdigits2 m + e) - e) as [|p|p] eqn:En.
  - eexists _, _, 0. split; [reflexivity|]. split; [reflexivity|]. split; [lia|].
    cbn [shr_record_of_loc shr_m]. split; [rewrite Z.div_1_r; reflexivity|reflexivity].
  - eexists _, _, (Zpos p). split; [reflexivity|]. split; [lia|]. split; [lia|].
    split.
    + rewrite shr_iter_m by (cbn; exact Hm). reflexivity.
    + intros Hd.
      destruct (shr_iter_exact p (shr_record_of_loc m loc_Exact)) as [Hr Hs];
        try reflexivity; try assumption.
      destruct (iter_pos shr_1 p (shr_record_of_loc m loc_Exact)) as [m' r s].
      cbn [shr_r shr_s] in Hr, Hs. subst r s. reflexivity.
  - eexists _, _, 0. split; [reflexivity|]. split; [lia|]. split; [lia|].
    cbn [shr_record_of_loc shr_m]. split; [rewrite Z.div_1_r; reflexivity|reflexivity].
Qed.

(** A positive number at most [N < 2^prec] has at most [prec] digits
    above its exponent. *)
Lemma at_most_digits (m e k N : Z) :
  0 < m -> 0 <= k -> 0 <= k + e -> m * 2 ^ (k + e) <= N * 2 ^ k -> N < 2 ^ prec ->
  Zdigits2 m + e <= prec.
Proof.
  intros Hm Hk Hke Hle HN.
  pose proof (Zdigits2_lower m Hm) as Hlow. pose proof (Zdigits2_pos m Hm) as Hd.
  assert (H1 : 2 ^ (Zdigits2 m - 1 + (k + e)) <= m * 2 ^ (k + e)).
  { rewrite Z.pow_add_r by lia. apply Z.mul_le_mono_nonneg_r; [|exact Hlow].
    apply Z.pow_nonneg. lia. }
  assert (H2 : N * 2 ^ k < 2 ^ (prec + k)).
  { rewrite Z.pow_add_r by lia. apply Z.mul_lt_mono_pos_r; [|exact HN].
    apply Z.pow_pos_nonneg; lia. }
  assert (H3 : 2 ^ (Zdigits2 m - 1 + (k + e)) < 2 ^ (prec + k)) by lia.
  apply Z.pow_lt_mono_r_iff in H3; lia.
Qed.

(** Rounding an exact number that is at most the integer [N], itself
    below [2^prec], gives a number that is at most [N]. *)
Lemma binary_round_aux_at_most (m e N : Z) :
  0 <= m -> 0 <= N < 2 ^ prec ->
  (exists k, 0 <= k /\ 0 <= k + e /\ m * 2 ^ (k + e) <= N * 2 ^ k) ->
  Float.at_most N (binary_round_aux prec emax false m e loc_Exact).
Proof.
  intros Hm HN [k [Hk [Hke Hle]]]. unfold binary_round_aux.
  destruct (shr_fexp_exact m e Hm) as [mrs1 [e1 [n [E1 [Hn [He1 [Hm1 Hx1]]]]]]].
  rewrite E1.
  set (m2 := round_nearest_even (shr_m mrs1) (loc_of_shr_record mrs1)).
  assert (Hpown : 0 < 2 ^ n) by (apply Z.pow_pos_nonneg; lia).
  assert (Hm1' : 0 <= shr_m mrs1) by (rewrite Hm1; apply Z.div_pos; lia).
  pose proof (round_nearest_even_range (shr_m mrs1) (loc_of_shr_record mrs1)) as Hm2.
  fold m2 in Hm2.
  assert (Hm2' : 0 <= m2) by lia.
  (* the rounded mantissa is still at most N *)
  assert (HA : exists k1, 0 <= k1 /\ 0 <= k1 + e1 /\ m2 * 2 ^ (k1 + e1) <= N * 2 ^ k1).
  { destruct (Z.eq_dec n 0) as [Hn0 | Hn0].
    - exists k. rewrite Hn0 in *. rewrite Z.div_1_r in Hm1.
      assert (Hex : loc_of_shr_record mrs1 = loc_Exact)
        by (apply Hx1; exists m; change (2 ^ 0) with 1; lia).
      unfold m2. rewrite Hex. cbn [round_nearest_even]. rewrite Hm1.
      replace e1 with e by lia. auto.
    - assert (Hnpos : 0 < n) by lia.
      destruct (Z.eq_dec m 0) as [Hm0 | Hm0].
      + exists (Z.max 0 (- e1)). subst m. rewrite Z.div_0_l in Hm1 by lia.
        assert (Hex : loc_of_shr_record mrs1 = loc_Exact)
          by (apply Hx1; exists 0; lia).
        unfold m2. rewrite Hex, Hm1. cbn [round_nearest_even].
        split; [lia|]. split; [lia|].
        assert (0 <= 2 ^ Z.max 0 (- e1)) by (apply Z.pow_nonneg; lia). nia.
      + assert (Hmpos : 0 < m) by lia.
        pose proof (at_most_digits m e k N Hmpos Hk Hke Hle (proj2 HN)) as Hd.
        assert (He1neg : e1 <= 0) by (unfold fexp, emin in Hn; lia).
        assert (Heneg : e < 0) by lia.
        exists (- e1). split; [lia|]. split; [lia|].
        replace (- e1 + e1) with 0 by lia. rewrite Z.pow_0_r, Z.mul_1_r.
        set (K := N * 2 ^ (- e1)).
        (* m <= K * 2^n *)
        assert (HmK : m <= K * 2 ^ n).
        { unfold K. rewrite <- Z.mul_assoc, <- Z.pow_add_r by lia.
          replace (- e1 + n) with (- e) by lia.
          assert (Hp1 : 0 < 2 ^ (k + e)) by (apply Z.pow_pos_nonneg; lia).
          replace (2 ^ k) with (2 ^ (- e) * 2 ^ (k + e)) in Hle
            by (rewrite <- Z.pow_add_r by lia; f_equal; lia).
          rewrite Z.mul_assoc in Hle.
          apply Z.mul_le_mono_pos_r in Hle; [exact Hle|exact Hp1]. }
        assert (Hq : shr_m mrs1 <= K).
        { rewrite Hm1. apply Z.div_le_upper_bound; [lia|]. lia. }
        destruct (Z.eq_dec (shr_m mrs1) K) as [HeqK | HneK].
        * assert (Hexact : m = K * 2 ^ n).
          { pose proof (Z.mul_div_le m (2 ^ n) Hpown) as Hfl.
            rewrite <- Hm1, HeqK in Hfl. lia. }
          assert (Hex : loc_of_shr_record mrs1 = loc_Exact)
            by (apply Hx1; exists K; exact Hexact).
          unfold m2. rewrite Hex. cbn [round_nearest_even]. lia.
        * lia. }
  destruct (shr_fexp_exact m2 e1 Hm2') as [mrs3 [e3 [n3 [E3 [Hn3 [He3 [Hm3 _]]]]]]].
  rewrite E3.
  destruct HA as [k1 [Hk1 [Hke1 Hle1]]].
  assert (Hpown3 : 0 < 2 ^ n3) by (apply Z.pow_pos_nonneg; lia).
  assert (HB : shr_m mrs3 * 2 ^ (k1 + e3) <= N * 2 ^ k1).
  { rewrite Hm3, He3.
    replace (k1 + (e1 + n3)) with (n3 + (k1 + e1)) by lia.
    rewrite Z.pow_add_r by lia. rewrite Z.mul_assoc.
    pose proof (Z.mul_div_le m2 (2 ^ n3) Hpown3) as Hfl.
    assert (0 <= 2 ^ (k1 + e1)) by (apply Z.pow_nonneg; lia).
    apply Z.le_trans with (m2 * 2 ^ (k1 + e1)); [|exact Hle1].
    apply Z.mul_le_mono_nonneg_r; lia. }
  assert (Hm3' : 0 <= shr_m mrs3) by (rewrite Hm3; apply Z.div_pos; lia).
  destruct (shr_m mrs3) as [|p|p] eqn:Ep; [cbn; lia| |lia].
  assert (Hke3 : 0 <= k1 + e3) by lia.
  pose proof (at_most_digits (Zpos p) e3 k1 N (Pos2Z.is_pos p) Hk1 Hke3 HB (proj2 HN)) as Hd3.
  pose proof (Zdigits2_pos (Zpos p) (Pos2Z.is_pos p)) as Hdp.
  destruct (Z.leb_spec e3 (emax - prec)); [|lia].
  cbn [Float.at_most]. exists k1. auto.
Qed.

(** The float of a natural number below [2^prec] is at most the
    number. *)
Lemma of_Z_at_most (w : Z) :
  0 <= w < 2 ^ prec -> Float.at_most w (binary_normalize prec emax w 0 false).
Proof.
  intros Hw. destruct w as [|p|p]; [cbn; lia| |lia].
  cbn [binary_normalize]. unfold binary_round.
  destruct (shl_align_spec p 0 (fexp prec emax (Zpos (digits2_pos p) + 0)))
    as [mz [ez [E [Hez [Hmz _]]]]].
  rewrite E. apply binary_round_aux_at_most; [lia|exact Hw|].
  exists (- ez). split; [lia|]. split; [lia|].
  replace (- ez + ez) with 0 by lia. rewrite Z.pow_0_r, Z.mul_1_r, Hmz.
  replace (0 - ez) with (- ez) by lia. lia.
Qed.

(** The product of two numbers at most [Nx] and [Ny] is at most
    [Nx * Ny]. *)
Lemma SFmul_at_most (x y : spec_float) (Nx Ny : Z) :
  Float.at_most Nx x -> Float.at_most Ny y -> Nx * Ny < 2 ^ prec ->
  Float.at_most (Nx * Ny) (SFmul prec emax x y).
Proof.
  intros Hx Hy HN.
  destruct x as [sx| | |[|] mx ex]; try contradiction;
    destruct y as [sy| | |[|] my ey]; try contradiction; cbn [Float.at_most] in Hx, Hy.
  - cbn. nia.
  - destruct Hy as [k [Hk [Hke Hle]]]. cbn [SFmul Float.at_most].
    assert (0 < 2 ^ (k + ey)) by (apply Z.pow_pos_nonneg; lia).
    assert (0 < 2 ^ k) by (apply Z.pow_pos_nonneg; lia). nia.
  - destruct Hx as [k [Hk [Hke Hle]]]. cbn [SFmul Float.at_most].
    assert (0 < 2 ^ (k + ex)) by (apply Z.pow_pos_nonneg; lia).
    assert (0 < 2 ^ k) by (apply Z.pow_pos_nonneg; lia). nia.
  - destruct Hx as [kx [Hkx [Hkex Hlex]]]. destruct Hy as [ky [Hky [Hkey Hley]]].
    assert (Hpx : 0 < 2 ^ kx) by (apply Z.pow_pos_nonneg; lia).
    assert (Hpy : 0 < 2 ^ ky) by (apply Z.pow_pos_nonneg; lia).
    assert (Hqx : 0 < 2 ^ (kx + ex)) by (apply Z.pow_pos_nonneg; lia).
    assert (Hqy : 0 < 2 ^ (ky + ey)) by (apply Z.pow_pos_nonneg; lia).
    assert (HNx : 0 <= Nx) by nia. assert (HNy : 0 <= Ny) by nia.
    cbn [SFmul xorb].
    apply binary_round_aux_at_most;
      [lia|split; [apply Z.mul_nonneg_nonneg; assumption|exact HN]|].
    exists (kx + ky). split; [lia|]. split; [lia|].
    assert (H : (Zpos mx * 2 ^ (kx + ex)) * (Zpos my * 2 ^ (ky + ey))
                <= (Nx * 2 ^ kx) * (Ny * 2 ^ ky)).
    { apply Z.mul_le_mono_nonneg; try assumption; apply Z.mul_nonneg_nonneg; lia. }
    assert (E1 : 2 ^ (kx + ky + (ex + ey)) = 2 ^ (kx + ex) * 2 ^ (ky + ey))
      by (rewrite <- Z.pow_add_r by lia; f_equal; lia).
    assert (E2 : 2 ^ (kx + ky) = 2 ^ kx * 2 ^ ky) by (apply Z.pow_add_r; lia).
    rewrite E1, E2, Pos2Z.inj_mul.
    eapply Z.le_trans; [|eapply Z.le_trans; [exact H|]]; apply Z.eq_le_incl; ring.
Qed.

End AtMost.

(** The integer part of a number that is at most [N]. *)
Lemma truncate_at_most (N : Z) (f : spec_float) :
  Float.at_most N f -> exists z, Float.truncate f = Some z /\ 0 <= z <= N.
Proof.
  destruct f as [s| | |[|] m e]; try contradiction; cbn [Float.at_most Float.truncate].
  - intros HN. exists 0. split; [reflexivity|lia].
  - intros [k [Hk [Hke Hle]]]. eexists. split; [reflexivity|].
    unfold Float.mag_trunc.
    assert (Hpk : 0 < 2 ^ k) by (apply Z.pow_pos_nonneg; lia).
    destruct e as [|p|p].
    + rewrite Z.shiftl_0_r. rewrite Z.add_0_r in Hle. nia.
    + rewrite Z.shiftl_mul_pow2 by lia.
      rewrite Z.pow_add_r in Hle by lia.
      assert (0 < 2 ^ Zpos p) by (apply Z.pow_pos_nonneg; lia). nia.
    + rewrite Z.shiftr_div_pow2 by lia.
      assert (Hpp : 0 < 2 ^ Zpos p) by (apply Z.pow_pos_nonneg; lia).
      assert (Hq : 0 < 2 ^ (k + Zneg p)) by (apply Z.pow_pos_nonneg; lia).
      split; [apply Z.div_pos; lia|].
      apply Z.div_le_upper_bound; [lia|].
      replace (2 ^ k) with (2 ^ Zpos p * 2 ^ (k + Zneg p)) in Hle
        by (rewrite <- Z.pow_add_r by lia; f_equal; lia).
      rewrite Z.mul_assoc in Hle.
      apply Z.mul_le_mono_pos_r in Hle; [lia|exact Hq].
Qed.

(* ================================================================== *)
(** * Integers that a float holds exactly *)
(* ================================================================== *)

Section Exact.
Variables prec emax : Z.
Hypothesis prec_pos : 0 < prec.
Hypothesis prec_emax : 2 * prec <= emax.

(** Rounding a number whose dropped bits are all zero only drops
    them. *)
Lemma binary_round_aux_exact (s : bool) (m e n : Z) :
  0 < m -> n = Z.max 0 (fexp prec emax (Zdigits2 m + e) - e) -> (2 ^ n | m) ->
  e + n <= emax - prec ->
  exists p, Zpos p * 2 ^ n = m /\
            binary_round_aux prec emax s m e loc_Exact = S754_finite s p (e + n).
Proof.
  intros Hm Hn [c Hc] He. unfold binary_round_aux.
  destruct (shr_fexp_exact prec emax m e) as [mrs1 [e1 [n1 [E1 [Hn1 [He1 [Hm1 Hx1]]]]]]];
    [lia|].
  rewrite E1. rewrite <- Hn in Hn1. subst n1.
  rewrite Hx1 by (exists c; exact Hc). cbn [round_nearest_even].
  assert (Hn0 : 0 <= n) by lia.
  assert (Hpow : 0 < 2 ^ n) by (apply Z.pow_pos_nonneg; lia).
  assert (Hc' : shr_m mrs1 = c) by (rewrite Hm1, Hc; apply Z.div_mul; lia).
  rewrite Hc'. assert (Hcpos : 0 < c) by nia.
  destruct (shr_fexp_exact prec emax c e1) as [mrs3 [e3 [n3 [E3 [Hn3 [He3 [Hm3 _]]]]]]];
    [lia|].
  rewrite E3.
  assert (Hd : Zdigits2 m = Zdigits2 c + n) by (rewrite Hc; apply Zdigits2_mul_pow2; lia).
  assert (Hn30 : n3 = 0) by (unfold fexp, emin in *; lia).
  rewrite Hn30 in Hm3, He3. rewrite Z.pow_0_r, Z.div_1_r in Hm3. rewrite Hm3.
  destruct c as [|p|p]; try lia.
  exists p. split; [lia|]. destruct (Z.leb_spec e3 (emax - prec)); [|lia]. f_equal. lia.
Qed.

(** A positive integer below [2^prec] becomes a float of exactly that
    value, its mantissa filling the precision. *)
Lemma of_Z_exact (w : Z) :
  0 < w < 2 ^ prec ->
  exists p e,
    Float.of_Z prec emax w = S754_finite false p e /\
    e <= 0 /\ emin prec emax <= e /\ Zpos p = w * 2 ^ (- e) /\ Zdigits2 (Zpos p) = prec.
Proof.
  intros Hw. destruct w as [|pw|pw]; try lia.
  unfold Float.of_Z. cbn [binary_normalize]. unfold binary_round.
  assert (Hd : Zdigits2 (Zpos pw) <= prec) by (apply Zdigits2_below; lia).
  pose proof (Zdigits2_pos (Zpos pw) (Pos2Z.is_pos pw)) as Hd0. cbn [Zdigits2] in Hd, Hd0.
  destruct (shl_align_spec pw 0 (fexp prec emax (Zpos (digits2_pos pw) + 0)))
    as [mz [ez [E [Hez [Hmz Hdz]]]]].
  rewrite E.
  destruct (binary_round_aux_exact false (Zpos mz) ez 0) as [p [Hp Ep]];
    [lia | cbn [Zdigits2]; unfold fexp, emin in *; lia | exists (Zpos mz); cbn; lia
     | unfold fexp, emin in *; lia |].
  rewrite Ep. exists p, (ez + 0). split; [reflexivity|].
  rewrite Z.pow_0_r, Z.mul_1_r in Hp.
  split; [unfold fexp, emin in *; lia|]. split; [unfold fexp, emin in *; lia|].
  split.
  - rewrite Hp, Hmz. f_equal. f_equal. lia.
  - rewrite Hp. cbn [Zdigits2]. unfold fexp, emin in *. lia.
Qed.

(** Multiplying by a float of value 1 changes nothing. *)
Lemma SFmul_one_exact (sx : bool) (mx my : positive) (ex k : Z) :
  Zdigits2 (Zpos mx) = prec -> emin prec emax <= ex -> ex <= emax - prec ->
  0 <= k -> Zpos my = 2 ^ k ->
  SFmul prec emax (S754_finite sx mx ex) (S754_finite false my (- k)) = S754_finite sx mx ex.
Proof.
  intros Hd Hmin Hmax Hk Hmy. cbn [SFmul]. rewrite Bool.xorb_false_r.
  assert (Hm : Zpos (mx * my) = Zpos mx * 2 ^ k) by (rewrite Pos2Z.inj_mul, Hmy; reflexivity).
  assert (Hdm : Zdigits2 (Zpos (mx * my)) = prec + k)
    by (rewrite Hm, Zdigits2_mul_pow2 by lia; lia).
  destruct (binary_round_aux_exact sx (Zpos (mx * my)) (ex + - k) k) as [p [Hp Ep]];
    [lia | rewrite Hdm; unfold fexp, emin in *; lia | exists (Zpos mx); exact Hm | lia |].
  rewrite Ep. rewrite Hm in Hp.
  assert (Hpow : 0 < 2 ^ k) by (apply Z.pow_pos_nonneg; lia).
  assert (p = mx) by nia. subst p. f_equal. lia.
Qed.

End Exact.

(** [int(float(w))] is [w] below [2^53]. *)
Lemma int_of_int (w : Z) : 0 <= w < 2 ^ 53 -> Py.int (Py.of_int w) = Ok w.
Proof.
  intros Hw. destruct (Z.eq_dec w 0) as [->|Hne]; [reflexivity|].
  destruct (of_Z_exact 53 1024 ltac:(lia) ltac:(lia) w ltac:(lia))
    as [p [e [E [He [_ [Hp _]]]]]].
  unfold Py.of_int, Py.prec, Py.emax. rewrite E. unfold Py.int. cbn [Float.truncate].
  f_equal. unfold Float.mag_trunc. destruct e as [|q|q]; try lia.
  - rewrite Z.shiftl_0_r, Hp. cbn. lia.
  - rewrite Z.shiftr_div_pow2 by lia. rewrite Hp.
    change (- Zneg q) with (Zpos q). apply Z.div_mul.
    assert (0 < 2 ^ Zpos q) by (apply Z.pow_pos_nonneg; lia). lia.
Qed.

(** [width * (100 / 100.0)] is the float of [width]. *)
Lemma mul_full_fraction (w : Z) :
  0 <= w < 2 ^ 53 ->
  Py.mul (Py.of_int w) (SFdiv Py.prec Py.emax (Py.of_int 100) (Py.of_int 100)) = Py.of_int w.
Proof.
  intros Hw.
  change (SFdiv Py.prec Py.emax (Py.of_int 100) (Py.of_int 100))
    with (S754_finite false 4503599627370496 (Z.opp 52)).
  destruct (Z.eq_dec w 0) as [->|Hne]; [reflexivity|].
  destruct (of_Z_exact 53 1024 ltac:(lia) ltac:(lia) w ltac:(lia))
    as [p [e [E [He [Hmin [_ Hd]]]]]].
  unfold Py.mul, Py.of_int, Py.prec, Py.emax. rewrite E.
  apply SFmul_one_exact; try assumption; try lia.
Qed.


(* ================================================================== *)
(** * The frames of the gallery exports *)
(* ================================================================== *)

(** The fraction [i / 100.0] of frame [i] is at most 1. *)
Lemma fraction_at_most_1 (i : Z) :
  0 <= i <= 100 ->
  Float.at_most 1 (SFdiv Py.prec Py.emax (Py.of_int i) (Py.of_int 100)).
Proof.
  intros Hi.
  assert (H : forallb (fun i => match SFdiv Py.prec Py.emax (Py.of_int i) (Py.of_int 100) with
                                | S754_zero _ => true
                                | S754_finite false m e => (e <? 0) && (Zpos m <=? 2 ^ (- e))
                                | _ => false
                                end) (range 101) = true) by (vm_compute; reflexivity).
  apply (forallb_range _ 101 i) in H; [|lia]. cbv beta in H.
  destruct (SFdiv Py.prec Py.emax (Py.of_int i) (Py.of_int 100)) as [s| | |[|] m e];
    try discriminate H.
  - cbn. lia.
  - apply andb_prop in H. destruct H as [He Hm].
    cbn [Float.at_most]. exists (- e). split; [lia|]. split; [lia|].
    replace (- e + e) with 0 by lia. rewrite Z.pow_0_r. lia.
Qed.

(** The split position [int(width * (i / 100.0))] lies between 0 and
    the width, is 0 for frame 0 and the width for frame 100. *)
Lemma split_position_bounds (w i : Z) :
  0 <= w < 2 ^ 53 -> 0 <= i <= 100 ->
  exists sp, split_position w i = Ok sp /\ 0 <= sp <= w /\
             (i = 0 -> sp = 0) /\ (i = 100 -> sp = w).
Proof.
  intros Hw Hi. unfold split_position. rewrite div100_Ok. cbn [bind].
  assert (Hp : 0 < 53) by lia. assert (Hpe : 2 * 53 <= 1024) by lia.
  pose proof (SFmul_at_most 53 1024 Hp Hpe (Py.of_int w)
                (SFdiv Py.prec Py.emax (Py.of_int i) (Py.of_int 100)) w 1
                (of_Z_at_most 53 1024 Hp Hpe w Hw) (fraction_at_most_1 i Hi)) as Hprod.
  rewrite Z.mul_1_r in Hprod. specialize (Hprod (proj2 Hw)).
  destruct (truncate_at_most _ _ Hprod) as [z [Ez Hz]].
  exists z. unfold Py.int, Py.mul. unfold Py.prec, Py.emax in *.
  rewrite Ez. split; [reflexivity|]. split; [exact Hz|]. split.
  - intros ->.
    change (SFdiv 53 1024 (Py.of_int 0) (Py.of_int 100)) with (S754_zero false) in Ez.
    destruct (Py.of_int w) as [s|s| |s m e]; cbn in Ez; try discriminate Ez; congruence.
  - intros ->. pose proof (mul_full_fraction w Hw) as Hfull.
    pose proof (int_of_int w Hw) as Hint.
    unfold Py.mul, Py.int, Py.prec, Py.emax in Hfull, Hint.
    rewrite Hfull in Ez. rewrite Ez in Hint. congruence.
Qed.

Lemma firstn_zero (m : Image.Mode) :
  firstn (Z.to_nat (Image.bands m)) (Image.zero m) = Image.zero m.
Proof. destruct m; reflexivity. Qed.

(** One frame of the Before/After export, for images of any two
    sizes. *)
Lemma before_after_gif_frame (original_image styled_image : Image.t) (i : Z) :
  Image.valid original_image ->
  Image.mode original_image = Image.mode styled_image ->
  0 <= Image.width styled_image < 2 ^ 53 ->
  0 <= i <= 100 ->
  exists sp frame,
    split_position (Image.width styled_image) i = Ok sp /\
    0 <= sp <= Image.width styled_image /\
    (i = 0 -> sp = 0) /\ (i = 100 -> sp = Image.width styled_image) /\
    gif_frame "Before/After" original_image styled_image i = Ok frame /\
    Image.mode frame = Image.mode styled_image /\
    Image.width frame = Image.width styled_image /\
    Image.height frame = Image.height styled_image /\
    forall x y, 0 <= x < Image.width styled_image -> 0 <= y < Image.height styled_image ->
      Image.getpixel frame x y =
        if (x <? sp) || (Image.height original_image <=? y)
        then Image.getpixel styled_image x y
        else if x <? Image.width original_image
             then Image.getpixel original_image x y
             else Image.zero (Image.mode original_image).
Proof.
  intros Hv Hm Hw Hi.
  destruct (split_position_bounds (Image.width styled_image) i Hw Hi)
    as [sp [Esp [Hsp [Hsp0 Hsp100]]]].
  exists sp. assert (Hh0 : 0 <= Image.height original_image) by (destruct Hv as [_ [? _]]; lia).
  unfold gif_frame. cbn [String.eqb Ascii.eqb Bool.eqb].
  rewrite Esp. cbn [bind]. unfold Image.crop.
  destruct (Z.ltb_spec (Image.width styled_image) sp); [lia|].
  destruct (Z.ltb_spec (Image.height original_image) 0); [lia|].
  cbn [bind]. unfold Image.paste, Image.copy. cbn [Image.mode Image.width Image.height].
  rewrite <- Hm, Mode_eqb_refl. cbn [bind].
  eexists. split; [reflexivity|]. split; [exact Hsp|]. split; [exact Hsp0|].
  split; [exact Hsp100|]. split; [reflexivity|].
  cbn [Image.mode Image.width Image.height Image.getpixel].
  split; [reflexivity|]. split; [reflexivity|]. split; [reflexivity|].
  intros x y Hx Hy.
  destruct (Z.ltb_spec x sp) as [Hlt|Hge].
  - destruct (Z.leb_spec sp x); [lia|]. reflexivity.
  - destruct (Z.leb_spec sp x); [|lia].
    destruct (Z.ltb_spec x (sp + (Image.width styled_image - sp))); [|lia].
    destruct (Z.leb_spec 0 y); [|lia].
    replace (0 + (Image.height original_image - 0)) with (Image.height original_image) by lia.
    cbn [andb orb].
    destruct (Z.leb_spec (Image.height original_image) y) as [Hout|Hin].
    + destruct (Z.ltb_spec y (Image.height original_image)); [lia|]. reflexivity.
    + destruct (Z.ltb_spec y (Image.height original_image)); [|lia].
      unfold Image.inside.
      replace (x - sp + sp) with x by lia. replace (y - 0 + 0) with y by lia.
      destruct (Z.leb_spec 0 x); [|lia].
      destruct (Z.leb_spec 0 y); [|lia].
      destruct (Z.ltb_spec y (Image.height original_image)); [|lia].
      destruct (Z.ltb_spec x (Image.width original_image)); cbn [andb].
      * apply firstn_valid; [exact Hv | lia | lia].
      * apply firstn_zero.
Qed.

(** X14. The Before/After export, for an original and a styled image
    of the same mode and of any two sizes (the styled one less than
    2^53 pixels wide): it makes 101 frames, each of the mode and size
    of the styled image.  Frame [i] shows the styled image left of the
    split position [int(width * (i / 100.0))], which lies between 0 and
    the width, is 0 for frame 0 and the width for frame 100, and the
    original image from the split position on; where the original
    image does not reach, it shows zeros to the right of it and the
    styled image below it.  So the last frame is the styled image. *)
Theorem before_after_frames (original_image styled_image : Image.t) :
  Image.valid original_image ->
  Image.mode original_image = Image.mode styled_image ->
  0 <= Image.width styled_image < 2 ^ 53 ->
  exists frames,
    export_animation_gif "Before/After" original_image styled_image = Ok frames /\
    length frames = 101%nat /\
    forall i, 0 <= i <= 100 ->
      exists sp frame,
        split_position (Image.width styled_image) i = Ok sp /\
        0 <= sp <= Image.width styled_image /\
        (i = 0 -> sp = 0) /\ (i = 100 -> sp = Image.width styled_image) /\
        nth_error frames (Z.to_nat i) = Some frame /\
        Image.mode frame = Image.mode styled_image /\
        Image.width frame = Image.width styled_image /\
        Image.height frame = Image.height styled_image /\
        forall x y, 0 <= x < Image.width styled_image -> 0 <= y < Image.height styled_image ->
          Image.getpixel frame x y =
            if (x <? sp) || (Image.height original_image <=? y)
            then Image.getpixel styled_image x y
            else if x <? Image.width original_image
                 then Image.getpixel original_image x y
                 else Image.zero (Image.mode original_image).
Proof.
  intros Hv Hm Hw.
  destruct (mapM_nth (gif_frame "Before/After" original_image styled_image) (range 101))
    as [frames [E [Hlen Hnth]]].
  { intros i Hin. apply In_range in Hin.
    destruct (before_after_gif_frame original_image styled_image i Hv Hm Hw)
      as [sp [frame [_ [_ [_ [_ [Ef _]]]]]]]; [lia|].
    exists frame. exact Ef. }
  exists frames. split; [exact E|]. split; [rewrite Hlen; reflexivity|].
  intros i Hi.
  destruct (before_after_gif_frame original_image styled_image i Hv Hm Hw Hi)
    as [sp [frame [Esp [Hsp [Hsp0 [Hsp100 [Ef [Hmf [Hwf [Hhf Hp]]]]]]]]]].
  destruct (Hnth (Z.to_nat i) i) as [b [Hb Hfb]]; [apply nth_error_range; lia|].
  rewrite Ef in Hfb. injection Hfb as <-.
  exists sp, frame. repeat (split; [assumption|]). exact Hp.
Qed.

Lemma before_after_frames_witness :
  exists frames,
    export_animation_gif "Before/After" red2 blue2 = Ok frames /\
    length frames = 101%nat /\
    forall i, 0 <= i <= 100 ->
      exists sp frame,
        split_position (Image.width blue2) i = Ok sp /\
        0 <= sp <= Image.width blue2 /\
        (i = 0 -> sp = 0) /\ (i = 100 -> sp = Image.width blue2) /\
        nth_error frames (Z.to_nat i) = Some frame /\
        Image.mode frame = Image.mode blue2 /\
        Image.width frame = Image.width blue2 /\
        Image.height frame = Image.height blue2 /\
        forall x y, 0 <= x < Image.width blue2 -> 0 <= y < Image.height blue2 ->
          Image.getpixel frame x y =
            if (x <? sp) || (Image.height red2 <=? y)
            then Image.getpixel blue2 x y
            else if x <? Image.width red2
                 then Image.getpixel red2 x y
                 else Image.zero (Image.mode red2).
Proof.
  apply (before_after_frames red2 blue2).
  - split; [cbn; lia|]. split; [cbn; lia|]. intros x y _ _. split; [reflexivity|].
    repeat constructor; unfold Image.byte; lia.
  - reflexivity.
  - cbn. lia.
Defined.

(** X15. The GIF export and the video export render the same frames,
    for every mode string, when the two images are equally wide (the
    two loops take the width from different images).  A mode string
    that is neither "Transition" nor "Before/After" leaves the frame
    variable unbound in the first round of either loop:
    [UnboundLocalError], and no frame. *)
Theorem gif_and_video_frames_agree (mode : string) (original_image styled_image : Image.t) :
  Image.width original_image = Image.width styled_image ->
  export_animation_video mode original_image styled_image
  = export_animation_gif mode original_image styled_image /\
  (mode <> "Transition"%string -> mode <> "Before/After"%string ->
   export_animation_gif mode original_image styled_image = Raise UnboundLocalError).
Proof.
  intros Hw. split.
  - unfold export_animation_video, export_animation_gif. apply mapM_ext_in.
    intros i _. unfold video_frame, gif_frame. rewrite Hw. reflexivity.
  - intros H1 H2. unfold export_animation_gif.
    change (range 101) with (0 :: map Z.of_nat (seq 1 100)). cbn [mapM].
    unfold gif_frame.
    destruct (String.eqb_spec mode "Transition"); [contradiction|].
    destruct (String.eqb_spec mode "Before/After"); [contradiction|].
    reflexivity.
Qed.

Lemma gif_and_video_frames_agree_witness :
  export_animation_video "Fade" red2 blue2 = export_animation_gif "Fade" red2 blue2 /\
  ("Fade"%string <> "Transition"%string -> "Fade"%string <> "Before/After"%string ->
   export_animation_gif "Fade" red2 blue2 = Raise UnboundLocalError).
Proof. exact (gif_and_video_frames_agree "Fade" red2 blue2 eq_refl). Defined.

(* ================================================================== *)
(** * Sepia *)
(* ================================================================== *)

Lemma below_one_at_most (f : spec_float) : Float.below_one f = true -> Float.at_most 1 f.
Proof.
  destruct f as [s| | |[|] m e]; try discriminate; intros H.
  cbn [Float.below_one] in H. apply andb_prop in H. destruct H as [He Hm].
  cbn [Float.at_most]. exists (- e). split; [lia|]. split; [lia|].
  replace (- e + e) with 0 by lia. rewrite Z.pow_0_r. lia.
Qed.

Lemma at_most_weaken (N N' : Z) (f : spec_float) :
  N <= N' -> Float.at_most N f -> Float.at_most N' f.
Proof.
  intros HN. destruct f as [s| | |[|] m e]; cbn [Float.at_most]; try contradiction.
  - lia.
  - intros [k [Hk [Hke Hle]]]. exists k. split; [exact Hk|]. split; [exact Hke|].
    assert (0 < 2 ^ k) by (apply Z.pow_pos_nonneg; lia). nia.
Qed.

Section Sums.
Variables prec emax : Z.
Hypothesis prec_pos : 0 < prec.
Hypothesis prec_emax : 2 * prec <= emax.

Lemma binary_round_at_most (p : positive) (e N : Z) :
  0 <= N < 2 ^ prec ->
  (exists k, 0 <= k /\ 0 <= k + e /\ Zpos p * 2 ^ (k + e) <= N * 2 ^ k) ->
  Float.at_most N (binary_round prec emax false p e).
Proof.
  intros HN [k [Hk [Hke Hle]]]. unfold binary_round.
  destruct (shl_align_spec p e (fexp prec emax (Zpos (digits2_pos p) + e)))
    as [mz [ez [E [Hez [Hmz _]]]]].
  rewrite E. apply (binary_round_aux_at_most prec emax prec_pos prec_emax); [lia|exact HN|].
  exists (k + (e - ez)). split; [lia|]. split; [lia|].
  replace (k + (e - ez) + ez) with (k + e) by lia.
  rewrite Hmz. rewrite (Z.pow_add_r 2 k (e - ez)) by lia.
  assert (0 < 2 ^ (e - ez)) by (apply Z.pow_pos_nonneg; lia).
  replace (Zpos p * 2 ^ (e - ez) * 2 ^ (k + e))
    with (Zpos p * 2 ^ (k + e) * 2 ^ (e - ez)) by ring.
  rewrite Z.mul_assoc. apply Z.mul_le_mono_nonneg_r; lia.
Qed.

(** The sum of two numbers at most [Nx] and [Ny] is at most
    [Nx + Ny]. *)
Lemma SFadd_at_most (x y : spec_float) (Nx Ny : Z) :
  Float.at_most Nx x -> Float.at_most Ny y -> Nx + Ny < 2 ^ prec ->
  Float.at_most (Nx + Ny) (SFadd prec emax x y).
Proof.
  intros Hx Hy HN.
  assert (HNx : 0 <= Nx).
  { destruct x as [s| | |[|] m e]; cbn [Float.at_most] in Hx; try contradiction; [lia|].
    destruct Hx as [k [Hk [Hke Hle]]].
    assert (0 < 2 ^ k) by (apply Z.pow_pos_nonneg; lia).
    assert (0 < 2 ^ (k + e)) by (apply Z.pow_pos_nonneg; lia). nia. }
  assert (HNy : 0 <= Ny).
  { destruct y as [s| | |[|] m e]; cbn [Float.at_most] in Hy; try contradiction; [lia|].
    destruct Hy as [k [Hk [Hke Hle]]].
    assert (0 < 2 ^ k) by (apply Z.pow_pos_nonneg; lia).
    assert (0 < 2 ^ (k + e)) by (apply Z.pow_pos_nonneg; lia). nia. }
  destruct x as [sx| | |[|] mx ex]; try contradiction;
    destruct y as [sy| | |[|] my ey]; try contradiction.
  - cbn [SFadd]. destruct sx, sy; cbn [Float.at_most]; lia.
  - cbn [SFadd]. apply (at_most_weaken Ny); [lia|exact Hy].
  - cbn [SFadd]. apply (at_most_weaken Nx); [lia|exact Hx].
  - cbn [Float.at_most] in Hx, Hy.
    destruct Hx as [kx [Hkx [Hkex Hlex]]]. destruct Hy as [ky [Hky [Hkey Hley]]].
    cbn [SFadd cond_Zopp]. set (ez := Z.min ex ey).
    destruct (shl_align_spec mx ex ez) as [ax [ea [Ea [Hea [Hax _]]]]].
    destruct (shl_align_spec my ey ez) as [ay [eb [Eb [Heb [Hay _]]]]].
    rewrite Ea, Eb. cbn [fst].
    assert (Hea' : ea = ez) by (unfold ez in *; lia).
    assert (Heb' : eb = ez) by (unfold ez in *; lia).
    rewrite Hea' in Hax. rewrite Heb' in Hay.
    change (Zpos ax + Zpos ay) with (Zpos (ax + ay)). cbn [binary_normalize].
    apply binary_round_at_most; [lia|].
    exists (kx + ky). split; [lia|]. split; [unfold ez; lia|].
    rewrite Pos2Z.inj_add, Hax, Hay.
    assert (Hpx : 0 < 2 ^ kx) by (apply Z.pow_pos_nonneg; lia).
    assert (Hpy : 0 < 2 ^ ky) by (apply Z.pow_pos_nonneg; lia).
    assert (Ex : 2 ^ (ex - ez) * 2 ^ (kx + ky + ez) = 2 ^ (kx + ex) * 2 ^ ky).
    { rewrite <- !Z.pow_add_r by (unfold ez; lia). f_equal. lia. }
    assert (Ey : 2 ^ (ey - ez) * 2 ^ (kx + ky + ez) = 2 ^ (ky + ey) * 2 ^ kx).
    { rewrite <- !Z.pow_add_r by (unfold ez; lia). f_equal. lia. }
    assert (Ek : 2 ^ (kx + ky) = 2 ^ kx * 2 ^ ky) by (apply Z.pow_add_r; lia).
    rewrite Z.mul_add_distr_r, <- !Z.mul_assoc, Ex, Ey, Ek.
    assert (H1 : Zpos mx * (2 ^ (kx + ex) * 2 ^ ky) <= Nx * (2 ^ kx * 2 ^ ky)).
    { rewrite !Z.mul_assoc. apply Z.mul_le_mono_nonneg_r; lia. }
    assert (H2 : Zpos my * (2 ^ (ky + ey) * 2 ^ kx) <= Ny * (2 ^ kx * 2 ^ ky)).
    { rewrite (Z.mul_comm (2 ^ kx) (2 ^ ky)), !Z.mul_assoc.
      apply Z.mul_le_mono_nonneg_r; lia. }
    lia.
Qed.

End Sums.

(** The coefficients of the sepia formula are numbers between 0
    and 1. *)
Lemma sepia_coefficients :
  forallb Float.below_one
    [Py.lit 393 1000; Py.lit 769 1000; Py.lit 189 1000;
     Py.lit 349 1000; Py.lit 686 1000; Py.lit 168 1000;
     Py.lit 272 1000; Py.lit 534 1000; Py.lit 131 1000] = true.
Proof. vm_compute. reflexivity. Qed.

(** One band of the sepia formula: the integer part exists, lies
    between 0 and [r + g + b], and is capped at 255. *)
Lemma sepia_band_byte (c1 c2 c3 : Py.float) (r g b : Z) :
  Float.below_one c1 = true -> Float.below_one c2 = true -> Float.below_one c3 = true ->
  Image.byte r -> Image.byte g -> Image.byte b ->
  exists z,
    Float.truncate (Py.add (Py.add (Py.mul c1 (Py.of_int r)) (Py.mul c2 (Py.of_int g)))
                           (Py.mul c3 (Py.of_int b))) = Some z /\
    0 <= z <= r + g + b /\
    sepia_band c1 c2 c3 r g b = Z.min z 255 /\
    Image.byte (sepia_band c1 c2 c3 r g b).
Proof.
  intros H1 H2 H3 Hr Hg Hb. unfold Image.byte in *.
  assert (Hp : 0 < 53) by lia. assert (Hpe : 2 * 53 <= 1024) by lia.
  assert (Hterm : forall c v, Float.below_one c = true -> 0 <= v <= 255 ->
            Float.at_most v (Py.mul c (Py.of_int v))).
  { intros c v Hc Hv.
    pose proof (SFmul_at_most 53 1024 Hp Hpe c (Py.of_int v) 1 v (below_one_at_most c Hc)) as H.
    rewrite Z.mul_1_l in H. apply H.
    - apply (of_Z_at_most 53 1024 Hp Hpe). change (2 ^ 53) with 9007199254740992. lia.
    - change (2 ^ 53) with 9007199254740992. lia. }
  pose proof (SFadd_at_most 53 1024 Hp Hpe _ _ r g (Hterm c1 r H1 Hr) (Hterm c2 g H2 Hg)) as H12.
  assert (Hlt1 : r + g < 2 ^ 53) by (change (2 ^ 53) with 9007199254740992; lia).
  specialize (H12 Hlt1).
  pose proof (SFadd_at_most 53 1024 Hp Hpe _ _ (r + g) b H12 (Hterm c3 b H3 Hb)) as H123.
  assert (Hlt2 : r + g + b < 2 ^ 53) by (change (2 ^ 53) with 9007199254740992; lia).
  specialize (H123 Hlt2).
  destruct (truncate_at_most _ _ H123) as [z [Ez Hz]].
  exists z. split; [exact Ez|]. split; [exact Hz|].
  unfold sepia_band. unfold Py.add, Py.mul, Py.prec, Py.emax in *. rewrite Ez.
  split; [reflexivity|]. lia.
Qed.

(** X16. The Sepia filter returns, for every RGB image, an RGB image
    of the same size whose bands are bytes: in each of its three sums
    [c1 * r + c2 * g + c3 * b] the integer part exists (no overflow in
    [int]), is not negative and is capped at 255.  A black pixel stays
    black. *)
Theorem sepia_stays_in_byte_range (image : Image.t) :
  Image.valid image ->
  Image.mode image = Image.RGB ->
  exists out,
    apply_sepia image = Ok out /\
    Image.valid out /\
    Image.mode out = Image.RGB /\
    Image.width out = Image.width image /\
    Image.height out = Image.height image /\
    forall x y, 0 <= x < Image.width image -> 0 <= y < Image.height image ->
      exists r g b tr tg tb,
        Image.getpixel image x y = [r; g; b] /\
        Image.getpixel out x y = [Z.min tr 255; Z.min tg 255; Z.min tb 255] /\
        0 <= tr <= r + g + b /\ 0 <= tg <= r + g + b /\ 0 <= tb <= r + g + b /\
        Float.truncate
          (Py.add (Py.add (Py.mul (Py.lit 393 1000) (Py.of_int r))
                          (Py.mul (Py.lit 769 1000) (Py.of_int g)))
                  (Py.mul (Py.lit 189 1000) (Py.of_int b))) = Some tr /\
        Float.truncate
          (Py.add (Py.add (Py.mul (Py.lit 349 1000) (Py.of_int r))
                          (Py.mul (Py.lit 686 1000) (Py.of_int g)))
                  (Py.mul (Py.lit 168 1000) (Py.of_int b))) = Some tg /\
        Float.truncate
          (Py.add (Py.add (Py.mul (Py.lit 272 1000) (Py.of_int r))
                          (Py.mul (Py.lit 534 1000) (Py.of_int g)))
                  (Py.mul (Py.lit 131 1000) (Py.of_int b))) = Some tb /\
        (r = 0 -> g = 0 -> b = 0 -> Image.getpixel out x y = [0; 0; 0]).
Proof.
  intros Hv Hm. unfold apply_sepia, Image.convert. rewrite Hm.
  cbn [Image.Mode_eqb bind]. unfold Image.copy.
  eexists. split; [reflexivity|].
  cbn [Image.mode Image.width Image.height Image.getpixel].
  assert (Hpix : forall x y, 0 <= x < Image.width image -> 0 <= y < Image.height image ->
    exists r g b tr tg tb,
      Image.getpixel image x y = [r; g; b] /\
      (let p := Image.getpixel image x y in
       let r := Image.band 0 p in
       let g := Image.band 1 p in
       let b := Image.band 2 p in
       [sepia_band (Py.lit 393 1000) (Py.lit 769 1000) (Py.lit 189 1000) r g b;
        sepia_band (Py.lit 349 1000) (Py.lit 686 1000) (Py.lit 168 1000) r g b;
        sepia_band (Py.lit 272 1000) (Py.lit 534 1000) (Py.lit 131 1000) r g b])
      = [Z.min tr 255; Z.min tg 255; Z.min tb 255] /\
      0 <= tr <= r + g + b /\ 0 <= tg <= r + g + b /\ 0 <= tb <= r + g + b /\
      Float.truncate
        (Py.add (Py.add (Py.mul (Py.lit 393 1000) (Py.of_int r))
                        (Py.mul (Py.lit 769 1000) (Py.of_int g)))
                (Py.mul (Py.lit 189 1000) (Py.of_int b))) = Some tr /\
      Float.truncate
        (Py.add (Py.add (Py.mul (Py.lit 349 1000) (Py.of_int r))
                        (Py.mul (Py.lit 686 1000) (Py.of_int g)))
                (Py.mul (Py.lit 168 1000) (Py.of_int b))) = Some tg /\
      Float.truncate
        (Py.add (Py.add (Py.mul (Py.lit 272 1000) (Py.of_int r))
                        (Py.mul (Py.lit 534 1000) (Py.of_int g)))
                (Py.mul (Py.lit 131 1000) (Py.of_int b))) = Some tb).
  { intros x y Hx Hy.
    destruct (rgb_pixel_inv image x y Hv Hm Hx Hy) as [r [g [b [E [Hr [Hg Hb]]]]]].
    pose proof sepia_coefficients as Hc. cbn [forallb] in Hc.
    repeat (apply andb_prop in Hc; destruct Hc as [? Hc]).
    destruct (sepia_band_byte (Py.lit 393 1000) (Py.lit 769 1000) (Py.lit 189 1000) r g b)
      as [tr [Er [Hr1 [Hr2 _]]]]; try assumption.
    destruct (sepia_band_byte (Py.lit 349 1000) (Py.lit 686 1000) (Py.lit 168 1000) r g b)
      as [tg [Eg [Hg1 [Hg2 _]]]]; try assumption.
    destruct (sepia_band_byte (Py.lit 272 1000) (Py.lit 534 1000) (Py.lit 131 1000) r g b)
      as [tb [Eb [Hb1 [Hb2 _]]]]; try assumption.
    exists r, g, b, tr, tg, tb. rewrite E. cbv zeta. cbn [Image.band nth].
    rewrite Hr2, Hg2, Hb2. repeat (split; [first [reflexivity | assumption]|]). assumption. }
  split; [|split; [reflexivity|split; [reflexivity|split; [reflexivity|]]]].
  - destruct Hv as [Hw [Hh Hvp]]. split; [exact Hw|]. split; [exact Hh|].
    cbn [Image.mode Image.width Image.height Image.getpixel Image.bands].
    intros x y Hx Hy.
    destruct (Hpix x y Hx Hy) as [r [g [b [tr [tg [tb [E [Ep [Hr [Hg [Hb _]]]]]]]]]]].
    cbv zeta in Ep. rewrite Ep. split; [reflexivity|].
    unfold Image.byte. repeat constructor; lia.
  - intros x y Hx Hy.
    destruct (Hpix x y Hx Hy)
      as [r [g [b [tr [tg [tb [E [Ep [Hr [Hg [Hb [Er [Eg Eb]]]]]]]]]]]]].
    cbv zeta in Ep.
    exists r, g, b, tr, tg, tb. split; [exact E|]. split; [exact Ep|].
    repeat (split; [assumption|]).
    intros -> -> ->. rewrite Ep. f_equal; [lia|]. f_equal; [lia|]. f_equal. lia.
Qed.

Lemma sepia_stays_in_byte_range_witness :
  exists out,
    apply_sepia white1 = Ok out /\
    Image.valid out /\
    Image.mode out = Image.RGB /\
    Image.width out = Image.width white1 /\
    Image.height out = Image.height white1 /\
    forall x y, 0 <= x < Image.width white1 -> 0 <= y < Image.height white1 ->
      exists r g b tr tg tb,
        Image.getpixel white1 x y = [r; g; b] /\
        Image.getpixel out x y = [Z.min tr 255; Z.min tg 255; Z.min tb 255] /\
        0 <= tr <= r + g + b /\ 0 <= tg <= r + g + b /\ 0 <= tb <= r + g + b /\
        Float.truncate
          (Py.add (Py.add (Py.mul (Py.lit 393 1000) (Py.of_int r))
                          (Py.mul (Py.lit 769 1000) (Py.of_int g)))
                  (Py.mul (Py.lit 189 1000) (Py.of_int b))) = Some tr /\
        Float.truncate
          (Py.add (Py.add (Py.mul (Py.lit 349 1000) (Py.of_int r))
                          (Py.mul (Py.lit 686 1000) (Py.of_int g)))
                  (Py.mul (Py.lit 168 1000) (Py.of_int b))) = Some tg /\
        Float.truncate
          (Py.add (Py.add (Py.mul (Py.lit 272 1000) (Py.of_int r))
                          (Py.mul (Py.lit 534 1000) (Py.of_int g)))
                  (Py.mul (Py.lit 131 1000) (Py.of_int b))) = Some tb /\
        (r = 0 -> g = 0 -> b = 0 -> Image.getpixel out x y = [0; 0; 0]).
Proof. exact (sepia_stays_in_byte_range white1 white1_valid eq_refl). Defined.

(** White becomes (255, 255, 238): the red and green sums pass 255 and
    are capped. *)
Example sepia_white : rows_of (apply_sepia white1) = Ok [[[255; 255; 238]]].
Proof. vm_compute. reflexivity. Qed.

(* ================================================================== *)
(** * The hue adjustment at every slider position *)
(* ================================================================== *)

Section Finite.
Variables prec emax : Z.
Hypothesis prec_pos : 0 < prec.
Hypothesis prec_lt_emax : prec < emax.

(** The product of two numbers in range is in range. *)
Lemma SFmul_ranged (x y : spec_float) (lox hix loy hiy : Z) :
  Float.ranged lox hix x -> Float.ranged loy hiy y ->
  hix + hiy <= emax - prec -> emin prec emax <= hix + hiy ->
  Float.ranged (lox + loy) (hix + hiy + 1) (SFmul prec emax x y).
Proof.
  intros Hx Hy Hmax Hmin.
  destruct x as [sx| | |sx mx ex]; try contradiction;
    destruct y as [sy| | |sy my ey]; try contradiction; cbn [SFmul]; try exact I.
  cbn [Float.ranged] in Hx, Hy.
  pose proof (Pos2Z.is_pos (digits2_pos mx)). pose proof (Pos2Z.is_pos (digits2_pos my)).
  assert (Hd : Zdigits2 (Zpos (mx * my)) <= Zpos (digits2_pos mx) + Zpos (digits2_pos my)).
  { apply Zdigits2_below; [lia|lia|].
    pose proof (Zdigits2_upper (Zpos mx)). pose proof (Zdigits2_upper (Zpos my)).
    cbn [Zdigits2] in *. rewrite Z.pow_add_r by lia. rewrite Pos2Z.inj_mul. nia. }
  apply binary_round_aux_ranged; try assumption; lia.
Qed.

(** An integer converted to a float is in range. *)
Lemma of_Z_ranged (n K : Z) :
  Zdigits2 n <= K -> 0 < K -> K < emax ->
  Float.ranged (1 - prec) (K + 1) (Float.of_Z prec emax n).
Proof.
  intros HK H0 Hmax. unfold Float.of_Z.
  destruct n as [|p|p]; cbn [binary_normalize Zdigits2] in *; [exact I| |];
    (apply binary_round_ranged; try assumption; unfold fexp, emin in *; lia).
Qed.

(** The remainder of [fmod] by a positive integer is in range,
    whatever the finite number divided. *)
Lemma fmod_pos_ranged (f : spec_float) (y lo : Z) :
  Float.ranged lo emax f -> 0 < y -> Zdigits2 y < emax ->
  Float.ranged (Z.min (Z.min lo 0) (emin prec emax)) (Zdigits2 y + 1)
    (Float.fmod_pos prec emax f y).
Proof.
  intros Hf Hy Hmax. pose proof (Zdigits2_pos y Hy) as Hdy.
  destruct f as [s| | |s m e]; try contradiction; cbn [Float.fmod_pos Float.ranged] in *;
    [exact I|].
  destruct e as [|p|p].
  - set (r := Z.shiftl (Zpos m) 0 mod y). cbv zeta.
    assert (Hr : 0 <= r < y) by (apply Z.mod_pos_bound; lia).
    assert (Hd : forall q, Zpos q = r -> Zpos (digits2_pos q) + 0 <= Zdigits2 y).
    { intros q Hq. change (Zpos (digits2_pos q)) with (Zdigits2 (Zpos q)).
      pose proof (Zdigits2_mono (Zpos q) y). lia. }
    destruct r as [|q|q] eqn:Er; [destruct s; exact I| |lia].
    destruct s; cbn [Z.opp binary_normalize];
      (apply binary_round_ranged; try assumption;
       [lia | unfold fexp, emin; lia | apply Hd; reflexivity | unfold emin; lia]).
  - set (r := Z.shiftl (Zpos m) (Zpos p) mod y). cbv zeta.
    assert (Hr : 0 <= r < y) by (apply Z.mod_pos_bound; lia).
    assert (Hd : forall q, Zpos q = r -> Zpos (digits2_pos q) + 0 <= Zdigits2 y).
    { intros q Hq. change (Zpos (digits2_pos q)) with (Zdigits2 (Zpos q)).
      pose proof (Zdigits2_mono (Zpos q) y). lia. }
    destruct r as [|q|q] eqn:Er; [destruct s; exact I| |lia].
    destruct s; cbn [Z.opp binary_normalize];
      (apply binary_round_ranged; try assumption;
       [lia | unfold fexp, emin; lia | apply Hd; reflexivity | unfold emin; lia]).
  - set (r := Zpos m mod (y * 2 ^ Zpos p)). cbv zeta.
    assert (Hpow : 0 < 2 ^ Zpos p) by (apply Z.pow_pos_nonneg; lia).
    assert (Hr : 0 <= r < y * 2 ^ Zpos p) by (apply Z.mod_pos_bound; nia).
    assert (Hd : forall q, Zpos q = r -> Zpos (digits2_pos q) + Zneg p <= Zdigits2 y).
    { intros q Hq. change (Zpos (digits2_pos q)) with (Zdigits2 (Zpos q)).
      pose proof (Zdigits2_mono (Zpos q) (y * 2 ^ Zpos p)).
      rewrite Zdigits2_mul_pow2 in H by lia. lia. }
    destruct r as [|q|q] eqn:Er; [destruct s; exact I| |lia].
    destruct s; cbn [Z.opp binary_normalize];
      (apply binary_round_ranged; try assumption;
       [lia | unfold fexp, emin; lia | apply Hd; reflexivity | unfold emin; lia]).
Qed.

End Finite.

(** [x % 256] of a finite float is finite. *)
Lemma mod_pos_256_finite (x : Py.float) (lo : Z) :
  Float.ranged lo Py.emax x -> Float.is_finite (Py.mod_pos x 256) = true.
Proof.
  intros Hx. unfold Py.mod_pos. cbv zeta.
  assert (Hp : 0 < Py.prec) by (unfold Py.prec; lia).
  assert (Hpe : Py.prec < Py.emax) by (unfold Py.prec, Py.emax; lia).
  pose proof (fmod_pos_ranged Py.prec Py.emax Hp Hpe x 256 lo Hx) as Hm.
  assert (H256 : Zdigits2 256 = 9) by reflexivity. rewrite H256 in Hm.
  specialize (Hm ltac:(lia) ltac:(unfold Py.emax; lia)).
  set (m := Float.fmod_pos Py.prec Py.emax x 256) in *.
  destruct (Float.is_zero m); [reflexivity|].
  destruct (Float.is_neg m).
  - set (lo' := Z.min (Z.min lo 0) (emin Py.prec Py.emax)) in *.
    assert (Hy : Float.ranged lo' 10 (Py.of_int 256)).
    { apply (ranged_weaken (1 - Py.prec) 10); [unfold lo', emin, Py.prec, Py.emax; lia|lia|].
      apply (of_Z_ranged Py.prec Py.emax Hp Hpe 256 9); [rewrite H256; lia|lia|].
      unfold Py.emax; lia. }
    pose proof (SFadd_ranged Py.prec Py.emax Hp Hpe m (Py.of_int 256) lo' 10 Hm Hy) as Hs.
    specialize (Hs ltac:(unfold emin, Py.prec, Py.emax; lia) ltac:(unfold Py.emax; lia)).
    unfold Py.add. destruct (SFadd _ _ _ _); try contradiction; reflexivity.
  - destruct m; try contradiction; reflexivity.
Qed.

Lemma Zdigits2_small (n k : Z) : 0 <= k -> - 2 ^ k < n < 2 ^ k -> Zdigits2 n <= k.
Proof.
  intros Hk Hn. destruct n as [|p|p].
  - cbn. lia.
  - apply Zdigits2_below; lia.
  - change (Zdigits2 (Zneg p)) with (Zdigits2 (Zpos p)). apply Zdigits2_below; lia.
Qed.

(** Every entry of the hue table is a finite float, whatever the
    slider: its rounding gives an integer. *)
Lemma hue_entry_rounds (slider p : Z) :
  0 <= slider <= 100 -> 0 <= p < 256 ->
  exists z, Py.round (Py.mod_pos (Py.add (Py.of_int p)
                                    (Py.mul (Py.of_int (slider - 50)) (Py.lit 36 10))) 256)
            = Ok z.
Proof.
  intros Hs Hp.
  assert (Hprec : 0 < Py.prec) by (unfold Py.prec; lia).
  assert (Hpe : Py.prec < Py.emax) by (unfold Py.prec, Py.emax; lia).
  assert (H1 : Float.ranged (1 - Py.prec) 7 (Py.of_int (slider - 50))).
  { apply (of_Z_ranged Py.prec Py.emax Hprec Hpe (slider - 50) 6);
      [apply Zdigits2_small; [lia|change (2 ^ 6) with 64; lia] | lia | unfold Py.emax; lia]. }
  assert (H2 : Float.ranged (- 51) 2 (Py.lit 36 10)) by (vm_compute; split; discriminate).
  pose proof (SFmul_ranged Py.prec Py.emax Hprec Hpe _ _ _ _ _ _ H1 H2) as H3.
  specialize (H3 ltac:(unfold Py.prec, Py.emax; lia) ltac:(unfold emin, Py.prec, Py.emax; lia)).
  assert (H4 : Float.ranged (1 - Py.prec) 10 (Py.of_int p)).
  { apply (of_Z_ranged Py.prec Py.emax Hprec Hpe p 9);
      [apply Zdigits2_small; [lia|change (2 ^ 9) with 512; lia] | lia | unfold Py.emax; lia]. }
  pose proof (SFadd_ranged Py.prec Py.emax Hprec Hpe (Py.of_int p)
                (Py.mul (Py.of_int (slider - 50)) (Py.lit 36 10)) (1 - Py.prec + - 51) 10) as H5.
  apply (ranged_weaken _ _ (1 - Py.prec + - 51) 10) in H4; [|lia|lia].
  apply (ranged_weaken _ _ (1 - Py.prec + - 51) 10) in H3; [|lia|lia].
  rename H4 into H4', H3 into H3'.
  specialize (H5 H4' H3' ltac:(unfold emin, Py.prec, Py.emax; lia) ltac:(unfold Py.emax; lia)).
  apply (ranged_weaken _ _ (Z.min (1 - Py.prec + - 51) (emin Py.prec Py.emax)) Py.emax) in H5;
    [|apply Z.le_refl|unfold Py.emax; lia].
  apply (round_finite _ (mod_pos_256_finite _ _ H5)).
Qed.

(** The hue table on an L band: 256 integers, entry [p] the rounded
    [(p + hue_shift) % 256]. *)
Lemma hue_point (slider : Z) (h : Image.t) :
  0 <= slider <= 100 -> Image.mode h = Image.L ->
  exists table,
    length table = 256%nat /\
    (forall p, 0 <= p < 256 ->
       Py.round (Py.mod_pos (Py.add (Py.of_int p)
                               (Py.mul (Py.of_int (slider - 50)) (Py.lit 36 10))) 256)
       = Ok (nth (Z.to_nat p) table 0)) /\
    Image.point h (hue_lut (Py.mul (Py.of_int (slider - 50)) (Py.lit 36 10)))
    = Ok (Image.mk Image.L (Image.width h) (Image.height h)
            (fun x y => Image.lookup_bands (map CLIP8 table) 0 (Image.getpixel h x y))).
Proof.
  intros Hs Hm.
  set (shift := Py.mul (Py.of_int (slider - 50)) (Py.lit 36 10)).
  destruct (mapM_nth (fun p => Py.round (Py.mod_pos (Py.add (Py.of_int p) shift) 256))
              (range 256)) as [table [E [Hlen Hnth]]].
  { intros p Hin. apply In_range in Hin. apply hue_entry_rounds; assumption. }
  rewrite range_length in Hlen.
  exists table. split; [exact Hlen|]. split.
  - intros p Hp. destruct (Hnth (Z.to_nat p) p (nth_error_range p 256 Hp)) as [b [Hb Eb]].
    rewrite Eb. f_equal. symmetry. apply nth_error_nth. exact Hb.
  - unfold Image.point. rewrite Hm. change (Z.to_nat (Image.bands Image.L)) with 1%nat.
    unfold hue_lut.
    rewrite (mapM_pure (fun p => PyFloat (Py.mod_pos (Py.add (Py.of_int p) shift) 256))).
    cbn [bind repeat concat]. rewrite app_nil_r.
    assert (Er : mapM py_round
                   (map (fun p => PyFloat (Py.mod_pos (Py.add (Py.of_int p) shift) 256))
                      (range 256)) = Ok table).
    { rewrite <- E. generalize (range 256). intros l. induction l as [|a l IH]; [reflexivity|].
      cbn [map mapM py_round]. rewrite IH. reflexivity. }
    rewrite Er. cbn [bind]. unfold Image.point_table. rewrite Hm, Hlen. reflexivity.
Qed.

(** The hue adjustment at any slider position: the table, the result
    and what becomes of each pixel. *)
Lemma hue_stage_shifts (slider : Z) (image : Image.t) :
  Image.valid image -> Image.mode image = Image.RGB -> 0 <= slider <= 100 ->
  exists table out,
    length table = 256%nat /\
    (forall p, 0 <= p < 256 ->
       Py.round (Py.mod_pos (Py.add (Py.of_int p)
                               (Py.mul (Py.of_int (slider - 50)) (Py.lit 36 10))) 256)
       = Ok (nth (Z.to_nat p) table 0)) /\
    hue_stage slider image = Ok out /\
    Image.valid out /\
    Image.mode out = Image.RGB /\
    Image.width out = Image.width image /\
    Image.height out = Image.height image /\
    forall x y, 0 <= x < Image.width image -> 0 <= y < Image.height image ->
      let p := Image.getpixel image x y in
      let hsv := Image.rgb2hsv (Image.band 0 p) (Image.band 1 p) (Image.band 2 p) in
      Image.getpixel out x y
      = Image.hsv2rgb (CLIP8 (nth (Z.to_nat (Image.band 0 hsv)) table 0))
          (Image.band 1 hsv) (Image.band 2 hsv) /\
      (Image.band 0 p = Image.band 1 p -> Image.band 1 p = Image.band 2 p ->
       Image.getpixel out x y = p).
Proof.
  intros Hv Hm Hs. unfold hue_stage. cbv zeta.
  unfold Image.convert at 1. rewrite Hm.
  cbn [Image.Mode_eqb Image.convert_pixel bind].
  set (hsv := Image.mk Image.HSV _ _ _).
  rewrite (split_HSV hsv eq_refl).
  destruct (hue_point slider (Image.getchannel hsv 0) Hs eq_refl) as [table [Hlen [Htab Ept]]].
  rewrite Ept. cbn [bind].
  rewrite merge_3 by reflexivity. cbn [bind].
  unfold Image.convert. cbn [Image.mode Image.Mode_eqb Image.convert_pixel].
  cbn [Image.width Image.height Image.getpixel Image.getchannel].
  exists table. eexists. split; [exact Hlen|]. split; [exact Htab|].
  split; [reflexivity|].
  cbn [Image.mode Image.width Image.height Image.getpixel].
  assert (Hpix : forall x y, 0 <= x < Image.width image -> 0 <= y < Image.height image ->
     exists r g b h s v,
       Image.getpixel image x y = [r; g; b] /\
       Image.rgb2hsv r g b = [h; s; v] /\ Image.byte v /\
       Image.hsv2rgb
         (Image.band 0 [Image.band 0 (Image.lookup_bands (map CLIP8 table) 0
                                        [Image.band 0 (Image.getpixel hsv x y)]);
                        Image.band 0 [Image.band 1 (Image.getpixel hsv x y)];
                        Image.band 0 [Image.band 2 (Image.getpixel hsv x y)]])
         (Image.band 1 [Image.band 0 (Image.lookup_bands (map CLIP8 table) 0
                                        [Image.band 0 (Image.getpixel hsv x y)]);
                        Image.band 0 [Image.band 1 (Image.getpixel hsv x y)];
                        Image.band 0 [Image.band 2 (Image.getpixel hsv x y)]])
         (Image.band 2 [Image.band 0 (Image.lookup_bands (map CLIP8 table) 0
                                        [Image.band 0 (Image.getpixel hsv x y)]);
                        Image.band 0 [Image.band 1 (Image.getpixel hsv x y)];
                        Image.band 0 [Image.band 2 (Image.getpixel hsv x y)]])
       = Image.hsv2rgb (CLIP8 (nth (Z.to_nat h) table 0)) s v).
  { intros x y Hx Hy.
    destruct (rgb_pixel_inv image x y Hv Hm Hx Hy) as [r [g [b [Hp [Hr [Hg Hb]]]]]].
    destruct (rgb2hsv_valid r g b Hr Hg Hb) as [h [s [v [E [Hh [Hs' Hvv]]]]]].
    exists r, g, b, h, s, v. split; [exact Hp|]. split; [exact E|]. split; [exact Hvv|].
    unfold hsv. cbn [Image.getpixel Image.lookup_bands].
    rewrite !Hp. cbn [Image.band nth]. rewrite !E. cbn [Image.band nth].
    rewrite Z.mul_0_l, Z.add_0_l.
    assert (Hn : (Z.to_nat h < length table)%nat) by (unfold Image.byte in Hh; lia).
    rewrite (nth_indep _ 0 (CLIP8 0)) by (rewrite length_map; exact Hn).
    rewrite map_nth. reflexivity. }
  split; [|split; [reflexivity|split; [reflexivity|split; [reflexivity|]]]].
  - destruct Hv as [Hw0 [Hh0 Hvp]]. split; [exact Hw0|]. split; [exact Hh0|].
    cbn [Image.mode Image.width Image.height Image.getpixel Image.bands].
    intros x y Hx Hy.
    destruct (Hpix x y Hx Hy) as [r [g [b [h [s [v [_ [_ [Hvv E]]]]]]]]].
    rewrite E.
    destruct (hsv2rgb_valid (CLIP8 (nth (Z.to_nat h) table 0)) s v Hvv)
      as [r' [g' [b' [E' [Hr' [Hg' Hb']]]]]].
    rewrite E'. split; [reflexivity|]. repeat (constructor; [assumption|]). constructor.
  - intros x y Hx Hy. cbv zeta.
    destruct (Hpix x y Hx Hy) as [r [g [b [h [s [v [Hp [Ehsv [Hvv E]]]]]]]]].
    rewrite E, Hp. cbn [Image.band nth]. rewrite Ehsv. cbn [Image.band nth].
    split; [reflexivity|]. intros Hrg Hgb. subst g b.
    unfold Image.rgb2hsv in Ehsv. cbv zeta in Ehsv.
    replace (Image.min3 r r r =? Image.max3 r r r) with true in Ehsv
      by (symmetry; apply Z.eqb_eq; unfold Image.min3, Image.max3; lia).
    injection Ehsv as <- <- <-. unfold Image.hsv2rgb. cbn [Z.eqb].
    replace (Image.max3 r r r) with r by (unfold Image.max3; lia). reflexivity.
Qed.

(** X17. The hue adjustment completes on every valid RGB image at every
    slider position from 0 to 100.  Its table holds 256 integers, entry
    [p] the rounded [(p + (slider - 50) * 3.6) % 256]; the result has
    the size of the image, and each pixel is the image's pixel
    converted to HSV, its H band replaced by the table's entry (clipped
    to a byte) and S and V kept, and converted back.  A grey pixel,
    whose three bands are equal, comes out unchanged. *)
Theorem hue_shifts_only_the_h_band (slider : Z) (image : Image.t) :
  Image.valid image -> Image.mode image = Image.RGB -> 0 <= slider <= 100 ->
  exists table out,
    length table = 256%nat /\
    (forall p, 0 <= p < 256 ->
       Py.round (Py.mod_pos (Py.add (Py.of_int p)
                               (Py.mul (Py.of_int (slider - 50)) (Py.lit 36 10))) 256)
       = Ok (nth (Z.to_nat p) table 0)) /\
    hue_stage slider image = Ok out /\
    Image.valid out /\
    Image.mode out = Image.RGB /\
    Image.width out = Image.width image /\
    Image.height out = Image.height image /\
    forall x y, 0 <= x < Image.width image -> 0 <= y < Image.height image ->
      let p := Image.getpixel image x y in
      let hsv := Image.rgb2hsv (Image.band 0 p) (Image.band 1 p) (Image.band 2 p) in
      Image.getpixel out x y
      = Image.hsv2rgb (CLIP8 (nth (Z.to_nat (Image.band 0 hsv)) table 0))
          (Image.band 1 hsv) (Image.band 2 hsv) /\
      (Image.band 0 p = Image.band 1 p -> Image.band 1 p = Image.band 2 p ->
       Image.getpixel out x y = p).
Proof. exact (hue_stage_shifts slider image). Qed.

Lemma hue_shifts_only_the_h_band_witness :
  exists table out,
    length table = 256%nat /\
    (forall p, 0 <= p < 256 ->
       Py.round (Py.mod_pos (Py.add (Py.of_int p)
                               (Py.mul (Py.of_int (80 - 50)) (Py.lit 36 10))) 256)
       = Ok (nth (Z.to_nat p) table 0)) /\
    hue_stage 80 leaf1 = Ok out /\
    Image.valid out /\
    Image.mode out = Image.RGB /\
    Image.width out = Image.width leaf1 /\
    Image.height out = Image.height leaf1 /\
    forall x y, 0 <= x < Image.width leaf1 -> 0 <= y < Image.height leaf1 ->
      let p := Image.getpixel leaf1 x y in
      let hsv := Image.rgb2hsv (Image.band 0 p) (Image.band 1 p) (Image.band 2 p) in
      Image.getpixel out x y
      = Image.hsv2rgb (CLIP8 (nth (Z.to_nat (Image.band 0 hsv)) table 0))
          (Image.band 1 hsv) (Image.band 2 hsv) /\
      (Image.band 0 p = Image.band 1 p -> Image.band 1 p = Image.band 2 p ->
       Image.getpixel out x y = p).
Proof.
  apply (hue_shifts_only_the_h_band 80 leaf1).
  - split; [cbn; lia|]. split; [cbn; lia|]. intros x y _ _. split; [reflexivity|].
    repeat constructor; unfold Image.byte; lia.
  - reflexivity.
  - lia.
Defined.

(* ================================================================== *)
(** * The gamma slider below 6, and the reset for every page *)
(* ================================================================== *)

Lemma gamma_value_by_slider (slider : Z) :
  0 <= slider <= 100 ->
  gamma_value slider
  = Ok (if slider <=? 5 then Py.lit 1 10
        else SFdiv Py.prec Py.emax (Py.of_int slider) (Py.of_int 50)).
Proof.
  intros Hs.
  assert (H : forallb (fun i => if i <=? 5
                                then negb (SFltb (Py.lit 1 10)
                                             (SFdiv Py.prec Py.emax (Py.of_int i) (Py.of_int 50)))
                                else SFltb (Py.lit 1 10)
                                       (SFdiv Py.prec Py.emax (Py.of_int i) (Py.of_int 50)))
                      (range 101) = true) by (vm_compute; reflexivity).
  apply (forallb_range _ 101 slider) in H; [|lia]. cbv beta in H.
  unfold gamma_value.
  change (Py.truediv (Py.of_int slider) (Py.of_int 50))
    with (Ok (SFdiv Py.prec Py.emax (Py.of_int slider) (Py.of_int 50))).
  cbn [bind]. unfold Py.max.
  destruct (slider <=? 5).
  - apply negb_true_iff in H. rewrite H. reflexivity.
  - rewrite H. reflexivity.
Qed.

(** X18. The gamma slider does nothing more below 6: at every value
    from 0 to 5 the quotient [slider / 50.0] is at most 0.1, the
    effective gamma is 0.1 and the stage returns what it returns at 0.
    From 6 on the effective gamma is the quotient. *)
Theorem gamma_slider_flat_below_6 (float_pow : Py.float -> Py.float -> Py.float)
    (slider : Z) (image : Image.t) :
  0 <= slider <= 100 ->
  (slider <= 5 ->
   gamma_value slider = Ok (Py.lit 1 10) /\
   gamma_stage float_pow slider image = gamma_stage float_pow 0 image) /\
  (5 < slider ->
   gamma_value slider = Ok (SFdiv Py.prec Py.emax (Py.of_int slider) (Py.of_int 50))).
Proof.
  intros Hs. pose proof (gamma_value_by_slider slider Hs) as E. split.
  - intros H5. destruct (Z.leb_spec slider 5); [|lia].
    split; [exact E|]. unfold gamma_stage. rewrite E. reflexivity.
  - intros H5. destruct (Z.leb_spec slider 5); [lia|]. exact E.
Qed.

Lemma gamma_slider_flat_below_6_witness :
  (3 <= 5 ->
   gamma_value 3 = Ok (Py.lit 1 10) /\
   gamma_stage (fun x _ => x) 3 leaf1 = gamma_stage (fun x _ => x) 0 leaf1) /\
  (5 < 3 ->
   gamma_value 3 = Ok (SFdiv Py.prec Py.emax (Py.of_int 3) (Py.of_int 50))).
Proof. apply (gamma_slider_flat_below_6 (fun x _ => x) 3 leaf1). lia. Defined.

(** X19. A change of style resets the controls of every page that has
    the sliders of [initUI], whatever their values and whatever boxes
    are ticked: every slider gets the value [initUI] gave it, except
    the noise slider, which gets 10 where [initUI] gave 5; every check
    box is cleared and every dropdown shows its first item. *)
Theorem style_change_resets_every_control (self : WorkspacePage) (loaded : Image.t) :
  map fst (sliders self) = map fst initUI_sliders ->
  map (fun kv => (Qt.minimum (snd kv), Qt.maximum (snd kv))) (sliders self)
  = map (fun kv => (Qt.minimum (snd kv), Qt.maximum (snd kv))) initUI_sliders ->
  slider_values (reset_controls self loaded)
  = [("Transition", 100); ("Blur", 50); ("Posterize", 1); ("Solarize", 0); ("Noise", 10);
     ("Tint", 30); ("Paper Texture", 0); ("Exposure", 50); ("Gamma", 50);
     ("Brightness", 50); ("Contrast", 50); ("Saturation", 50); ("Hue", 50);
     ("Temperature", 50); ("Sharpness", 50)]%string /\
  slider_values (mkPage initUI_sliders initUI_filters_enabled initUI_dropdowns None
                   loaded loaded None)
  = [("Transition", 100); ("Blur", 50); ("Posterize", 1); ("Solarize", 0); ("Noise", 5);
     ("Tint", 30); ("Paper Texture", 0); ("Exposure", 50); ("Gamma", 50);
     ("Brightness", 50); ("Contrast", 50); ("Saturation", 50); ("Hue", 50);
     ("Temperature", 50); ("Sharpness", 50)]%string /\
  map snd (filters_enabled (reset_controls self loaded))
  = map (fun _ => false) (filters_enabled self) /\
  map (fun kv => Qt.currentIndex (snd kv)) (dropdowns (reset_controls self loaded))
  = map (fun _ => 0%nat) (dropdowns self).
Proof.
  intros Hkeys Hranges.
  destruct (reset_controls_values self loaded Hkeys Hranges) as [H1 [H2 H3]].
  split; [exact H1|]. split; [reflexivity|]. split; [exact H2|exact H3].
Qed.

Lemma style_change_resets_every_control_witness :
  slider_values (reset_controls (tick (move_slider (page_of grey1 leaf1) "Noise" 37) "Sepia")
                   leaf1)
  = [("Transition", 100); ("Blur", 50); ("Posterize", 1); ("Solarize", 0); ("Noise", 10);
     ("Tint", 30); ("Paper Texture", 0); ("Exposure", 50); ("Gamma", 50);
     ("Brightness", 50); ("Contrast", 50); ("Saturation", 50); ("Hue", 50);
     ("Temperature", 50); ("Sharpness", 50)]%string /\
  slider_values (mkPage initUI_sliders initUI_filters_enabled initUI_dropdowns None
                   leaf1 leaf1 None)
  = [("Transition", 100); ("Blur", 50); ("Posterize", 1); ("Solarize", 0); ("Noise", 5);
     ("Tint", 30); ("Paper Texture", 0); ("Exposure", 50); ("Gamma", 50);
     ("Brightness", 50); ("Contrast", 50); ("Saturation", 50); ("Hue", 50);
     ("Temperature", 50); ("Sharpness", 50)]%string /\
  map snd (filters_enabled
             (reset_controls (tick (move_slider (page_of grey1 leaf1) "Noise" 37) "Sepia")
                leaf1))
  = map (fun _ => false)
      (filters_enabled (tick (move_slider (page_of grey1 leaf1) "Noise" 37) "Sepia")) /\
  map (fun kv => Qt.currentIndex (snd kv))
    (dropdowns (reset_controls (tick (move_slider (page_of grey1 leaf1) "Noise" 37) "Sepia")
                  leaf1))
  = map (fun _ => 0%nat)
      (dropdowns (tick (move_slider (page_of grey1 leaf1) "Noise" 37) "Sepia")).
Proof.
  apply (style_change_resets_every_control
           (tick (move_slider (page_of grey1 leaf1) "Noise" 37) "Sepia") leaf1);
    reflexivity.
Defined.
